(** * Adam and AdaMax: a shallow embedding of [Adam::Optimize]

    Source: [src/mlpack/core/optimizers/adam/adam_impl.hpp].

    The optimizer is generic in three directions, and so is the embedding:
    - the arithmetic of [double] (class [DoubleOps]); two instances are
      given, IEEE binary64 ([binary64_ops], which computes) and the real
      numbers ([real_ops], the arithmetic the specification reasons in);
    - the objective (class [DecomposableFunctionType], the template
      parameter of the C++ class);
    - the random permutation drawn by [arma::shuffle] ([ShuffleSource]).

    Armadillo matrices are records of a shape and the entries in memory
    order; an operation on two matrices of different shapes throws, which
    the control monad [ctl] models by [Fail]. *)

From Stdlib Require Import NArith ZArith List Bool Lia Permutation.
From Stdlib Require Import Reals Lra.
From Stdlib Require Import Floats.
Import ListNotations.

Set Implicit Arguments.

(** ** Scalars: the operations of [double] that the code uses *)

Class DoubleOps (D : Type) : Type := {
  d_zero : D;                   (* the literal 0 / 0.0 *)
  d_one : D;                    (* the literal 1 / 1.0 *)
  DBL_MAX : D;                  (* <cfloat> *)
  d_add : D -> D -> D;
  d_sub : D -> D -> D;
  d_mul : D -> D -> D;
  d_div : D -> D -> D;
  d_sqrt : D -> D;              (* std::sqrt, arma::sqrt entrywise *)
  d_abs : D -> D;               (* std::abs, arma::abs entrywise *)
  d_max : D -> D -> D;          (* arma::max entrywise *)
  d_pow : D -> D -> D;          (* std::pow *)
  d_of_size_t : N -> D;         (* the cast (double) i *)
  d_ltb : D -> D -> bool;       (* < *)
  d_neqb : D -> D -> bool;      (* != *)
  d_isnan : D -> bool;          (* std::isnan *)
  d_isinf : D -> bool           (* std::isinf *)
}.

Declare Scope dbl_scope.
Delimit Scope dbl_scope with D.
Infix "+" := d_add : dbl_scope.
Infix "-" := d_sub : dbl_scope.
Infix "*" := d_mul : dbl_scope.
Infix "/" := d_div : dbl_scope.

(** ** [size_t] *)

Definition SIZE_MODULUS : N := 2 ^ 64.

(** [++x] on a [size_t]. *)
Definition size_succ (x : N) : N := ((x + 1) mod SIZE_MODULUS)%N.

(** The indices [0, 1, ..., n-1]:
    [arma::linspace<arma::Col<size_t>>(0, n - 1, n)]. *)
Definition iota (n : N) : list N := map N.of_nat (seq 0 (N.to_nat n)).

(** ** Matrices *)

Section Matrices.
Context {D : Type} {ops : DoubleOps D}.

Record mat : Type := Mat {
  n_rows : N;
  n_cols : N;
  mem : list D
}.

Inductive error : Type :=
| ShapeMismatch     (* Armadillo: incompatible matrix dimensions *)
| DivisionByZero    (* currentFunction % numFunctions with numFunctions = 0 *)
| IndexOutOfBounds. (* visitationOrder[currentFunction] past the end *)

Inductive res (A : Type) : Type :=
| Ok (a : A)
| Err (e : error).
Arguments Err {A} e.

Fixpoint zip_with (f : D -> D -> D) (xs ys : list D) : list D :=
  match xs, ys with
  | x :: xs', y :: ys' => f x y :: zip_with f xs' ys'
  | _, _ => []
  end.

Definition same_size (A B : mat) : bool :=
  (n_rows A =? n_rows B)%N && (n_cols A =? n_cols B)%N.

(** An entrywise operation on two matrices; the result has the shape of
    the left operand. *)
Definition entrywise (f : D -> D -> D) (A B : mat) : res mat :=
  if same_size A B
  then Ok (Mat (n_rows A) (n_cols A) (zip_with f (mem A) (mem B)))
  else Err ShapeMismatch.

Definition mat_map (f : D -> D) (A : mat) : mat :=
  Mat (n_rows A) (n_cols A) (map f (mem A)).

(** [arma::zeros<arma::mat>(r, c)] *)
Definition zeros (r c : N) : mat := Mat r c (repeat d_zero (N.to_nat (r * c))).

(** The default-constructed [arma::mat]: 0 by 0. *)
Definition empty_mat : mat := Mat 0 0 [].

(** [A *= k], [k * A], [A * k]: every entry times the scalar. *)
Definition scale (A : mat) (k : D) : mat := mat_map (fun x => (x * k)%D) A.

(** [A + k] *)
Definition plus_scalar (A : mat) (k : D) : mat := mat_map (fun x => (x + k)%D) A.

Definition mat_abs : mat -> mat := mat_map d_abs.
Definition mat_sqrt : mat -> mat := mat_map d_sqrt.

Definition mat_add : mat -> mat -> res mat := entrywise d_add.   (* A += B *)
Definition mat_sub : mat -> mat -> res mat := entrywise d_sub.   (* A -= B *)
Definition mat_div : mat -> mat -> res mat := entrywise d_div.   (* A / B *)
Definition schur : mat -> mat -> res mat := entrywise d_mul.     (* A % B *)
Definition mat_max : mat -> mat -> res mat := entrywise d_max.   (* arma::max(A, B) *)

End Matrices.

Arguments mat D : clear implicits.
Arguments Err {A} e.

(** ** The collaborators *)

(** The template parameter [DecomposableFunctionType]: the objective is
    the sum of [NumFunctions] terms.  [Gradient] returns the contents of the
    buffer it was given to fill. *)
Class DecomposableFunctionType (D : Type) : Type := {
  NumFunctions : N;
  Evaluate : mat D -> N -> D;
  Gradient : mat D -> N -> mat D
}.

(** [arma::shuffle] draws from Armadillo's global generator, whose state is
    threaded explicitly. *)
Class ShuffleSource (rng : Type) : Type := {
  arma_shuffle : rng -> list N -> rng * list N
}.

(** The data members of [Adam] that the constructor stores. *)
Record Adam (D : Type) : Type := {
  stepSize : D;
  beta1 : D;
  beta2 : D;
  eps : D;
  maxIterations : N;
  tolerance : D;
  shuffle : bool;
  adaMax : bool
}.

(** ** The run *)

Section Optimizer.
Context {D : Type} {ops : DoubleOps D}.
Context {function : DecomposableFunctionType D}.
Context {rng : Type} {shuffler : ShuffleSource rng}.
Variable self : Adam D.

(** What the run does to the outside: calls of the objective, draws of a
    permutation and lines written to [Log]. *)
Inductive event : Type :=
| CallEvaluate (idx : N)
| CallGradient (idx : N)
| CallShuffle
| InfoObjective (iteration : N) (objective : D)
| WarnDiverged (objective : D)
| InfoConverged (tol : D)
| InfoMaxIterations (maxIt : N).

(** The local variables of [Optimize] that live across loop iterations.
    The buffer [gradient] is not among them: every iteration overwrites it
    before reading it. *)
Record state : Type := State {
  i : N;
  currentFunction : N;
  overallObjective : D;
  lastObjective : D;
  iterate : mat D;
  m : mat D;
  u : mat D;
  v : mat D;
  visitationOrder : list N;
  generator : rng;
  trace : list event
}.

Inductive exit : Type :=
| Diverged      (* line 102 *)
| Converged     (* line 109 *)
| Exhausted.    (* line 176 *)

(** Control: go on with a value, return from [Optimize], or throw. *)
Inductive ctl (A : Type) : Type :=
| Next (a : A)
| Ret (why : exit) (value : D) (final : state)
| Fail (e : error).
Arguments Ret {A} why value final.
Arguments Fail {A} e.

Definition bind {A B : Type} (c : ctl A) (k : A -> ctl B) : ctl B :=
  match c with
  | Next a => k a
  | Ret why value final => Ret why value final
  | Fail e => Fail e
  end.

Definition lift {A : Type} (r : res A) : ctl A :=
  match r with
  | Ok a => Next a
  | Err e => Fail e
  end.

Notation "x <- c ;; k" := (bind c (fun x => k))
  (at level 61, c at next level, right associativity).

Definition numFunctions : N := NumFunctions.

(** One more line of [Log] in the trace. *)
Definition emit (e : event) (st : state) : state :=
  State (i st) (currentFunction st) (overallObjective st) (lastObjective st)
        (iterate st) (m st) (u st) (v st) (visitationOrder st) (generator st)
        (trace st ++ [e]).

(** [for (size_t i = 0; i < numFunctions; ++i)
      overallObjective += function.Evaluate(iterate, i);] from [acc]. *)
Definition sum_terms (x : mat D) (acc : D) : D :=
  fold_left (fun a idx => (a + Evaluate x idx)%D) (iota numFunctions) acc.

Definition evaluate_calls : list event := map CallEvaluate (iota numFunctions).

(** Lines 50 to 86: the order of visitation, the first objective and the
    zeroed moments; line 68 only allocates [gradient]. *)
Definition init (x0 : mat D) (g0 : rng) : state :=
  let order :=
    if shuffle self then arma_shuffle g0 (iota numFunctions) else (g0, []) in
  State 1 0 (sum_terms x0 d_zero) DBL_MAX x0
        (zeros (n_rows x0) (n_cols x0))
        (if adaMax self then zeros (n_rows x0) (n_cols x0) else empty_mat)
        (if adaMax self then empty_mat else zeros (n_rows x0) (n_cols x0))
        (snd order) (fst order)
        ((if shuffle self then [CallShuffle] else []) ++ evaluate_calls).

(** Lines 112 to 118: reset the counter variables and, when shuffling,
    determine the order of visitation. *)
Definition reset_counters (st : state) : state :=
  let order :=
    if shuffle self
    then arma_shuffle (generator st) (visitationOrder st)
    else (generator st, visitationOrder st) in
  State (i st) 0 d_zero (overallObjective st)
        (iterate st) (m st) (u st) (v st) (snd order) (fst order)
        (trace st ++ (if shuffle self then [CallShuffle] else [])).

(** Lines 91 to 119: the start of a sequence. *)
Definition epoch_start (st : state) : ctl state :=
  if (numFunctions =? 0)%N then Fail DivisionByZero
  else if negb (currentFunction st mod numFunctions =? 0)%N then Next st
  else
    let objective := overallObjective st in
    let st1 := emit (InfoObjective (i st) objective) st in
    if d_isnan objective || d_isinf objective
    then Ret Diverged objective (emit (WarnDiverged objective) st1)
    else if d_ltb (d_abs (lastObjective st - objective)%D) (tolerance self)
    then Ret Converged objective (emit (InfoConverged (tolerance self)) st1)
    else Next (reset_counters st1).

(** The term this iteration works on (lines 122 to 125, 163 to 167). *)
Definition selected (st : state) : res N :=
  if shuffle self
  then match nth_error (visitationOrder st) (N.to_nat (currentFunction st)) with
       | Some idx => Ok idx
       | None => Err IndexOutOfBounds
       end
  else Ok (currentFunction st).

Definition biasCorrection1 (t : N) : D :=
  (d_one - d_pow (beta1 self) (d_of_size_t t))%D.

Definition biasCorrection2 (t : N) : D :=
  (d_one - d_pow (beta2 self) (d_of_size_t t))%D.

(** Lines 128 and 129. *)
Definition update_m (m0 gradient : mat D) : res (mat D) :=
  mat_add (scale m0 (beta1 self)) (scale gradient (d_one - beta1 self)%D).

(** Lines 134 and 135. *)
Definition update_u (u0 gradient : mat D) : res (mat D) :=
  mat_max (scale u0 (beta2 self)) (mat_abs gradient).

(** Lines 139 and 140. *)
Definition update_v (v0 gradient : mat D) : res (mat D) :=
  match schur gradient gradient with
  | Ok gg => mat_add (scale v0 (beta2 self)) (scale gg (d_one - beta2 self)%D)
  | Err e => Err e
  end.

(** Lines 148 and 149. *)
Definition step_adamax (t : N) (x m1 u1 : mat D) : res (mat D) :=
  if d_neqb (biasCorrection1 t) d_zero
  then match mat_div (scale m1 (stepSize self / biasCorrection1 t)%D)
                     (plus_scalar u1 (eps self)) with
       | Ok delta => mat_sub x delta
       | Err e => Err e
       end
  else Ok x.

(** Lines 158 and 159. *)
Definition step_adam (t : N) (x m1 v1 : mat D) : res (mat D) :=
  match mat_div
          (scale m1 (stepSize self * d_sqrt (biasCorrection2 t)
                     / biasCorrection1 t)%D)
          (plus_scalar (mat_sqrt v1) (eps self)) with
  | Ok delta => mat_sub x delta
  | Err e => Err e
  end.

(** The state once a step has the new moments and the new iterate [x1]:
    lines 163 to 167 add the value of the term at [x1]. *)
Definition stepped (st : state) (idx : N) (x1 m1 u1 v1 : mat D) : state :=
  State (i st) (currentFunction st)
        (overallObjective st + Evaluate x1 idx)%D (lastObjective st)
        x1 m1 u1 v1 (visitationOrder st) (generator st)
        (trace st ++ [CallGradient idx; CallEvaluate idx]).

(** Lines 121 to 167: one gradient, the moments, the iterate and the
    term added to the running objective. *)
Definition update (st : state) : ctl state :=
  idx <- lift (selected st) ;;
  let gradient := Gradient (iterate st) idx in
  m1 <- lift (update_m (m st) gradient) ;;
  u1 <- lift (if adaMax self then update_u (u st) gradient else Ok (u st)) ;;
  v1 <- lift (if adaMax self then Ok (v st) else update_v (v st) gradient) ;;
  x1 <- lift (if adaMax self
              then step_adamax (i st) (iterate st) m1 u1
              else step_adam (i st) (iterate st) m1 v1) ;;
  Next (stepped st idx x1 m1 u1 v1).

(** The body of the [for] statement. *)
Definition body (st : state) : ctl state :=
  st1 <- epoch_start st ;; update st1.

(** [++i, ++currentFunction] *)
Definition advance (st : state) : state :=
  State (size_succ (i st)) (size_succ (currentFunction st))
        (overallObjective st) (lastObjective st)
        (iterate st) (m st) (u st) (v st) (visitationOrder st) (generator st)
        (trace st).

(** Lines 170 to 176. *)
Definition finish (st : state) : ctl state :=
  Ret Exhausted (sum_terms (iterate st) d_zero)
      (State (i st) (currentFunction st) (sum_terms (iterate st) d_zero)
             (lastObjective st) (iterate st) (m st) (u st) (v st)
             (visitationOrder st) (generator st)
             (trace st ++ InfoMaxIterations (maxIterations self)
                    :: evaluate_calls)).

(** One test of [i != maxIterations] and, if it holds, one pass. *)
Definition pass (st : state) : ctl state :=
  if (i st =? maxIterations self)%N then finish st
  else st1 <- body st ;; Next (advance st1).

Inductive outcome : Type :=
| Returns (why : exit) (value : D) (final : state)
| Throws (e : error)
| OutOfFuel.

Fixpoint loop (fuel : nat) (st : state) : outcome :=
  match fuel with
  | O => OutOfFuel
  | S fuel' =>
      match pass st with
      | Next st' => loop fuel' st'
      | Ret why value final => Returns why value final
      | Fail e => Throws e
      end
  end.

(** The number of passes from [i = 1] until [i == maxIterations], the
    counter wrapping around: [maxIterations - 1] as a [size_t]. *)
Definition passes : N :=
  ((maxIterations self + SIZE_MODULUS - 1) mod SIZE_MODULUS)%N.

(** [double Adam::Optimize(arma::mat& iterate)]: the value returned and, in
    [final], the iterate as the caller finds it. *)
Definition Optimize (x0 : mat D) (g0 : rng) : outcome :=
  loop (S (N.to_nat passes)) (init x0 g0).

(** The state at the head of the loop after [k] passes. *)
Fixpoint run (k : nat) (st : state) : ctl state :=
  match k with
  | O => Next st
  | S k' => st' <- run k' st ;; pass st'
  end.

End Optimizer.

Arguments event D : clear implicits.
Arguments state D rng : clear implicits.
Arguments ctl D rng A : clear implicits.
Arguments outcome D rng : clear implicits.
Arguments Ret {D rng A} why value final.
Arguments Fail {D rng A} e.
Arguments Throws {D rng} e.
Arguments OutOfFuel {D rng}.

(** ** Arithmetic instances *)

(** *** IEEE binary64, computed by the kernel's primitive floats *)

(** The integral value of a non-negative float: the inverse of the cast
    [(double) i] wherever that cast is exact. *)
Definition float_to_N (y : float) : N :=
  match Prim2SF y with
  | S754_finite false mant e =>
      Z.to_N (if (0 <=? e)%Z then Zpos mant * 2 ^ e else Zpos mant / 2 ^ (- e))
  | _ => 0%N
  end.

(** [std::pow] belongs to the C library, which fixes neither its algorithm
    nor its last bit.  At the exponents the optimizer passes, the values of
    [(double) i], this is the product of [i] copies of the base. *)
Definition pow_binary64 (x y : float) : float :=
  N.iter (float_to_N y) (fun acc => PrimFloat.mul acc x) PrimFloat.one.

(** [std::max(a, b)]: [(a < b) ? b : a]. *)
Definition max_binary64 (a b : float) : float :=
  if PrimFloat.ltb a b then b else a.

(** The cast of a [size_t] to [double] rounds to nearest. *)
Definition size_t_to_binary64 (n : N) : float :=
  SF2Prim (binary_normalize prec emax (Z.of_N n) 0 false).

#[export] Instance binary64_ops : DoubleOps float := {|
  d_zero := PrimFloat.zero;
  d_one := PrimFloat.one;
  DBL_MAX := 0x1.fffffffffffffp+1023%float;
  d_add := PrimFloat.add;
  d_sub := PrimFloat.sub;
  d_mul := PrimFloat.mul;
  d_div := PrimFloat.div;
  d_sqrt := PrimFloat.sqrt;
  d_abs := PrimFloat.abs;
  d_max := max_binary64;
  d_pow := pow_binary64;
  d_of_size_t := size_t_to_binary64;
  d_ltb := PrimFloat.ltb;
  d_neqb := fun a b => negb (PrimFloat.eqb a b);
  d_isnan := PrimFloat.is_nan;
  d_isinf := PrimFloat.is_infinity
|}.

(** Not below zero, on the specification of a double. *)
Definition SF_never_negative (x : spec_float) : Prop :=
  SFltb x (S754_zero false) = false.

(** *** The real numbers: exact arithmetic, no NaN and no infinity *)

(** [std::pow] on the reals: [exp (y * ln x)] for a positive base; for
    other bases the product of [y] copies, [y] a natural number. *)
Definition pow_real (x y : R) : R :=
  if Rlt_dec 0 x then Rpower x y else (x ^ Z.to_nat (Int_part y))%R.

#[export] Instance real_ops : DoubleOps R := {|
  d_zero := 0%R;
  d_one := 1%R;
  DBL_MAX := IZR ((2 ^ 53 - 1) * 2 ^ 971);
  d_add := Rplus;
  d_sub := Rminus;
  d_mul := Rmult;
  d_div := Rdiv;
  d_sqrt := R_sqrt.sqrt;
  d_abs := Rabs;
  d_max := Rmax;
  d_pow := pow_real;
  d_of_size_t := fun n => INR (N.to_nat n);
  d_ltb := fun a b => if Rlt_dec a b then true else false;
  d_neqb := fun a b => if Req_dec_T a b then false else true;
  d_isnan := fun _ => false;
  d_isinf := fun _ => false
|}.

(** ** Collaborators to run the optimizer on *)

(** A generator that is never advanced and leaves the order as it is; a
    run without shuffling never consults it. *)
#[export] Instance identity_shuffle : ShuffleSource unit := {|
  arma_shuffle := fun g order => (g, order)
|}.

(** A generator that counts its draws and rotates the order by one. *)
#[export] Instance rotating_shuffle : ShuffleSource nat := {|
  arma_shuffle := fun g order =>
    (S g, match order with [] => [] | x :: rest => rest ++ [x] end)
|}.

Section Objectives.
Context {D : Type} {ops : DoubleOps D}.

Definition entry (x : mat D) (idx : N) : D := nth (N.to_nat idx) (mem x) d_zero.

Definition square (a : D) : D := (a * a)%D.

(** [f(x) = sum_i (x_i - target_i)^2], one term per coordinate. *)
Definition squared_distance (targets : list D) : DecomposableFunctionType D := {|
  NumFunctions := N.of_nat (length targets);
  Evaluate := fun x idx => square (entry x idx - nth (N.to_nat idx) targets d_zero)%D;
  Gradient := fun x idx =>
    Mat (n_rows x) (n_cols x)
        (map (fun j => if (j =? idx)%N
                       then ((d_one + d_one)
                             * (entry x j - nth (N.to_nat j) targets d_zero))%D
                       else d_zero)
             (iota (N.of_nat (length (mem x)))))
|}.

(** Terms with the constant slopes [slopes] on one by one iterates:
    [f_i(x) = slope_i * x_0], whose gradient is the single entry
    [slope_i]. *)
Definition linear_terms (slopes : list D) : DecomposableFunctionType D := {|
  NumFunctions := N.of_nat (length slopes);
  Evaluate := fun x idx => (nth (N.to_nat idx) slopes d_zero * entry x 0)%D;
  Gradient := fun x idx =>
    Mat (n_rows x) (n_cols x) [nth (N.to_nat idx) slopes d_zero]
|}.

(** The objective [f] with a [Gradient] that resizes the buffer it fills
    to the transposed shape. *)
Definition with_transposed_gradient (f : DecomposableFunctionType D) :
    DecomposableFunctionType D := {|
  NumFunctions := NumFunctions;
  Evaluate := Evaluate;
  Gradient := fun x idx =>
    let g := Gradient x idx in Mat (n_cols g) (n_rows g) (mem g)
|}.

End Objectives.

Definition column {D : Type} (xs : list D) : mat D :=
  Mat (N.of_nat (length xs)) 1 xs.

(** The hyperparameters of the specification's convergence test. *)
Definition test_adam (maxIt : N) (adamax : bool) : Adam float := {|
  stepSize := 0x1.999999999999ap-4%float;      (* 0.1 *)
  beta1 := 0x1.ccccccccccccdp-1%float;         (* 0.9 *)
  beta2 := 0x1.ff7ced916872bp-1%float;         (* 0.999 *)
  eps := 0x1.5798ee2308c3ap-27%float;          (* 1e-8 *)
  maxIterations := maxIt;
  tolerance := 0x1.5fd7fe1796495p-37%float;    (* 1e-11 *)
  shuffle := false;
  adaMax := adamax
|}.

(** The hyperparameters of the convergence test again, but for the
    largest finite tolerance. *)
Definition lenient_adam : Adam float := {|
  stepSize := 0x1.999999999999ap-4%float;
  beta1 := 0x1.ccccccccccccdp-1%float;
  beta2 := 0x1.ff7ced916872bp-1%float;
  eps := 0x1.5798ee2308c3ap-27%float;
  maxIterations := 10000;
  tolerance := 0x1.fffffffffffffp+1023%float;  (* DBL_MAX *)
  shuffle := false;
  adaMax := false
|}.

(** AdaMax with every rate one half, and nothing below its tolerance. *)
Definition halving_adamax (maxIt : N) (shuffled : bool) : Adam float := {|
  stepSize := 0x1p-1%float;
  beta1 := 0x1p-1%float;
  beta2 := 0x1p-1%float;
  eps := 1%float;
  maxIterations := maxIt;
  tolerance := 0%float;
  shuffle := shuffled;
  adaMax := true
|}.

(** The hyperparameters of the convergence test again, but for a step
    size of [2^600]. *)
Definition reckless_adam : Adam float := {|
  stepSize := 0x1p+600%float;
  beta1 := 0x1.ccccccccccccdp-1%float;
  beta2 := 0x1.ff7ced916872bp-1%float;
  eps := 0x1.5798ee2308c3ap-27%float;
  maxIterations := 10000;
  tolerance := 0x1.5fd7fe1796495p-37%float;
  shuffle := false;
  adaMax := false
|}.

(** [f(x) = (x - 3)^2], the specification's single-term objective. *)
Definition parabola : DecomposableFunctionType float :=
  squared_distance [3%float].

(** [f(x) = x^2]. *)
Definition parabola_at_origin : DecomposableFunctionType float :=
  squared_distance [0%float].

(** [f(x) = (x_0 - 3)^2 + (x_1 - 1)^2]. *)
Definition two_terms : DecomposableFunctionType float :=
  squared_distance [3%float; 1%float].

(** Five terms, one per coordinate. *)
Definition five_terms : DecomposableFunctionType float :=
  squared_distance [3%float; 1%float; 2%float; 0%float; 5%float].

(** Two terms on a one by one iterate: [f_0(x) = x], [f_1(x) = 0]. *)
Definition slope_then_flat_binary64 : DecomposableFunctionType float :=
  linear_terms [1%float; 0%float].

(** An objective without terms. *)
Definition no_terms : DecomposableFunctionType float :=
  squared_distance [].

(** The two terms again, their gradients in the transposed shape. *)
Definition transposed_two_terms : DecomposableFunctionType float :=
  with_transposed_gradient two_terms.

(** Hyperparameters in exact arithmetic; the tolerance is zero, which no
    difference of objectives is below. *)
Definition exact_adam (maxIt : N) (adamax : bool) : Adam R := {|
  stepSize := 1%R;
  beta1 := (/ 2)%R;
  beta2 := (/ 2)%R;
  eps := 1%R;
  maxIterations := maxIt;
  tolerance := 0%R;
  shuffle := false;
  adaMax := adamax
|}.

(** Two terms on a one by one iterate: [f_0(x) = x], [f_1(x) = 0]. *)
Definition slope_then_flat : DecomposableFunctionType R :=
  linear_terms [1%R; 0%R].

(** Adam in exact arithmetic with the tolerance one half. *)
Definition tolerant_exact_adam (maxIt : N) : Adam R := {|
  stepSize := 1%R;
  beta1 := (/ 2)%R;
  beta2 := (/ 2)%R;
  eps := 1%R;
  maxIterations := maxIt;
  tolerance := (/ 2)%R;
  shuffle := false;
  adaMax := false
|}.

(** [f(x) = (x_0 - 1)^2 + (x_1 - 2)^2] over the reals. *)
Definition two_parabolas : DecomposableFunctionType R :=
  squared_distance [1%R; 2%R].

(** ** What the specification says of a step, entry by entry *)

Section Formulas.
Context {D : Type} {ops : DoubleOps D}.
Variable self : Adam D.

Fixpoint zip_with3 (f : D -> D -> D -> D) (xs ys zs : list D) : list D :=
  match xs, ys, zs with
  | x :: xs', y :: ys', z :: zs' => f x y z :: zip_with3 f xs' ys' zs'
  | _, _, _ => []
  end.

(** [beta^t] *)
Definition power (beta : D) (t : N) : D := d_pow beta (d_of_size_t t).

(** [m <- beta1 m + (1 - beta1) gradient] *)
Definition first_moment_formula (m0 g : D) : D :=
  (beta1 self * m0 + (d_one - beta1 self) * g)%D.

(** [v <- beta2 v + (1 - beta2) gradient^2] *)
Definition second_moment_formula (v0 g : D) : D :=
  (beta2 self * v0 + (d_one - beta2 self) * (g * g))%D.

(** [u <- max(beta2 u, |gradient|)] *)
Definition inf_norm_formula (u0 g : D) : D :=
  d_max (beta2 self * u0)%D (d_abs g).

(** [iterate <- iterate - (stepSize sqrt(1 - beta2^t) / (1 - beta1^t)) m
    / (sqrt(v) + eps)] *)
Definition adam_formula (t : N) (x m1 v1 : D) : D :=
  (x - (stepSize self * d_sqrt (d_one - power (beta2 self) t)
        / (d_one - power (beta1 self) t)) * m1
       / (d_sqrt v1 + eps self))%D.

(** [iterate <- iterate - (stepSize / (1 - beta1^t)) m / (u + eps)] *)
Definition adamax_formula (t : N) (x m1 u1 : D) : D :=
  (x - (stepSize self / (d_one - power (beta1 self) t)) * m1
       / (u1 + eps self))%D.

(** Taking the magnitude does not bring a value below a bound that the
    value itself is not below. *)
Definition abs_keeps_at_least : Prop :=
  forall x t : D, d_ltb x t = false -> d_ltb (d_abs x) t = false.

(** What line 97 tests: NaN or infinite. *)
Definition nonfinite (x : D) : bool := d_isnan x || d_isinf x.

(** A sum with a NaN or an infinity is a NaN or an infinity. *)
Definition nonfinite_absorbs : Prop :=
  forall a b : D, nonfinite a = true -> nonfinite (a + b)%D = true.

(** Not below zero: for a double, a positive number, a zero of either
    sign, or NaN. *)
Definition never_negative (e : D) : Prop := d_ltb e d_zero = false.

(** The rules of signs that the moment updates rest on. *)
Record sign_rules : Prop := {
  zero_sign : never_negative d_zero;
  mul_sign : forall a b, never_negative a -> never_negative b ->
                         never_negative (a * b)%D;
  square_sign : forall a, never_negative (a * a)%D;
  add_sign : forall a b, never_negative a -> never_negative b ->
                         never_negative (a + b)%D;
  abs_sign : forall a, never_negative (d_abs a);
  max_sign : forall a b, never_negative a -> never_negative b ->
                         never_negative (d_max a b)
}.

(** No magnitude is below a bound that zero is not below. *)
Definition magnitude_not_below : Prop :=
  forall x t : D, d_ltb d_zero t = false -> d_ltb (d_abs x) t = false.

(** A relation that holds between the entries of two matrices at every
    position both have. *)
Definition entries_related (P : D -> D -> Prop) (A B : mat D) : Prop :=
  forall j a b,
    nth_error (mem A) j = Some a -> nth_error (mem B) j = Some b -> P a b.

Definition entries_all (P : D -> Prop) (A : mat D) : Prop := Forall P (mem A).

End Formulas.

(** ** Observations of a run *)

Section Observations.
Context {D : Type} {ops : DoubleOps D}.
Context {function : DecomposableFunctionType D}.
Context {rng : Type} {shuffler : ShuffleSource rng}.
Variable self : Adam D.

Definition is_call (e : event D) : bool :=
  match e with
  | CallEvaluate _ | CallGradient _ => true
  | _ => false
  end.

(** The calls of the objective, in order. *)
Definition objective_calls (tr : list (event D)) : list (event D) :=
  filter is_call tr.

(** The term indices at which a gradient was computed, in order. *)
Fixpoint gradient_indices (tr : list (event D)) : list N :=
  match tr with
  | [] => []
  | CallGradient idx :: rest => idx :: gradient_indices rest
  | _ :: rest => gradient_indices rest
  end.

(** The calls of [k] steps that visit the terms in their order, round
    after round. *)
Definition sequential_calls (k : nat) : list (event D) :=
  flat_map (fun j => [CallGradient (N.of_nat j mod numFunctions);
                      CallEvaluate (N.of_nat j mod numFunctions)])
           (seq 0 k).

(** The moment buffer in use: [u] for AdaMax, [v] for Adam. *)
Definition second_buffer (st : state D rng) : mat D :=
  if adaMax self then u st else v st.

(** The state at the head of the loop after [n] passes of a run. *)
Definition state_after (x0 : mat D) (g0 : rng) (n : nat) : state D rng :=
  match run self n (init self x0 g0) with
  | Next s => s
  | _ => init self x0 g0
  end.

(** The term that the [j]-th step of the epoch of [st] works on. *)
Definition term_index (st : state D rng) (j : nat) : N :=
  if shuffle self then nth j (visitationOrder st) 0%N else N.of_nat j.

(** The running objective after the first [c] steps of the epoch that
    [st], the state after [k] passes, is in: each step adds the value of
    its term at the iterate that the step has just produced. *)
Definition interleaved_aggregate
    (x0 : mat D) (g0 : rng) (k : nat) (st : state D rng) (c : nat) : D :=
  fold_left
    (fun acc j =>
       (acc + Evaluate (iterate (state_after x0 g0 (k - c + j + 1)))
                       (term_index st j))%D)
    (seq 0 c) d_zero.

(** The reading of a convergence return that takes every return through
    the tolerance test to end an epoch: at least [numFunctions] passes are
    done and the value returned is the interleaved sum over the last
    [numFunctions] of them. *)
Definition returns_epoch_aggregate (x0 : mat D) (g0 : rng) : Prop :=
  forall (k : nat) (st : state D rng),
    run self k (init self x0 g0) = Next st ->
    i st <> maxIterations self ->
    (currentFunction st mod numFunctions = 0)%N ->
    d_isnan (overallObjective st) || d_isinf (overallObjective st) = false ->
    d_ltb (d_abs (lastObjective st - overallObjective st)%D) (tolerance self)
      = true ->
    (N.to_nat numFunctions <= k)%nat /\
    overallObjective st
    = interleaved_aggregate x0 g0 k st (N.to_nat numFunctions).

(** The objective has terms, and their number is a [size_t]. *)
Definition valid_function : Prop := (1 <= numFunctions < SIZE_MODULUS)%N.

(** [Gradient] fills a buffer of the shape of the iterate. *)
Definition gradient_shaped : Prop :=
  forall x idx, same_size (Gradient x idx) x = true.

(** A shuffled order is as long as the order before. *)
Definition shuffle_keeps_length : Prop :=
  forall g order, length (snd (arma_shuffle g order)) = length order.

(** The moment buffer that the mode leaves alone: [v] for AdaMax, [u] for
    Adam. *)
Definition idle_buffer (st : state D rng) : mat D :=
  if adaMax self then v st else u st.

(** A gradient at each index, each followed by the value of the same
    term. *)
Definition paired_calls (indices : list N) : list (event D) :=
  flat_map (fun idx => [CallGradient idx; CallEvaluate idx]) indices.

(** The index of a call is one of [0 .. numFunctions - 1]. *)
Definition call_in_range (e : event D) : Prop :=
  match e with
  | CallEvaluate idx | CallGradient idx => (idx < numFunctions)%N
  | _ => True
  end.

Definition is_shuffle (e : event D) : bool :=
  match e with
  | CallShuffle => true
  | _ => false
  end.

(** The number of permutations drawn. *)
Definition shuffle_draws (tr : list (event D)) : nat :=
  length (filter is_shuffle tr).

(** [n] draws in a row, each shuffling the order the one before
    produced. *)
Fixpoint shuffled (n : nat) (g : rng) (order : list N) : rng * list N :=
  match n with
  | O => (g, order)
  | S n' => arma_shuffle (fst (shuffled n' g order)) (snd (shuffled n' g order))
  end.

(** The sequences started in [k] passes: the passes [0], [numFunctions],
    [2 numFunctions], ... below [k]. *)
Definition epoch_starts (k : nat) : nat :=
  N.to_nat ((N.of_nat k + numFunctions - 1) / numFunctions).

(** [arma::shuffle] returns the elements it was given, in some order. *)
Definition shuffle_permutes : Prop :=
  forall g order, Permutation (snd (arma_shuffle g order)) order.

(** The lines written to [Log]. *)
Definition is_log (e : event D) : bool :=
  match e with
  | InfoObjective _ _ | WarnDiverged _ | InfoConverged _
  | InfoMaxIterations _ => true
  | _ => false
  end.

Definition log_lines (tr : list (event D)) : list (event D) :=
  filter is_log tr.

(** Pass [j], counted from zero, starts a sequence. *)
Definition starts_sequence (j : nat) : bool :=
  (N.of_nat j mod numFunctions =? 0)%N.

(** One line for every pass below [k] that starts a sequence, with the
    number of the iteration and the running objective found there. *)
Definition objective_lines (x0 : mat D) (g0 : rng) (k : nat) : list (event D) :=
  map (fun j => InfoObjective (N.of_nat j + 1)
                              (overallObjective (state_after x0 g0 j)))
      (filter starts_sequence (seq 0 k)).

(** Every term has the zero gradient at [x]. *)
Definition stationary_at (x : mat D) : Prop :=
  forall idx, Gradient x idx = zeros (n_rows x) (n_cols x).

(** A matrix holds as many entries as its shape says. *)
Definition well_formed (x : mat D) : Prop :=
  length (mem x) = N.to_nat (n_rows x * n_cols x).

End Observations.

(** The reading of the inf-norm buffer as a running maximum: no pass of a
    run lowers an entry of [u]. *)
Definition inf_norm_never_decreases
    {function : DecomposableFunctionType R} {rng : Type}
    {shuffler : ShuffleSource rng}
    (self : Adam R) (x0 : mat R) (g0 : rng) : Prop :=
  forall (k : nat) (st st' : state R rng),
    run self k (init self x0 g0) = Next st ->
    run self (S k) (init self x0 g0) = Next st' ->
    entries_related Rle (u st) (u st').

(** No entry of a gradient is above [G] in magnitude. *)
Definition gradient_bounded {function : DecomposableFunctionType R} (G : R) :
    Prop :=
  forall x idx, Forall (fun e => (Rabs e <= G)%R) (mem (Gradient x idx)).

(** * Facts about matrices and single steps *)

(** ** Shapes *)

Section Shapes.
Context {D : Type} {ops : DoubleOps D}.

Lemma same_size_iff (A B : mat D) :
  same_size A B = true <-> n_rows A = n_rows B /\ n_cols A = n_cols B.
Proof.
  unfold same_size. rewrite andb_true_iff, !N.eqb_eq. reflexivity.
Qed.

Lemma same_size_refl (A : mat D) : same_size A A = true.
Proof. apply same_size_iff. auto. Qed.

Lemma same_size_sym (A B : mat D) :
  same_size A B = true -> same_size B A = true.
Proof. rewrite !same_size_iff. intuition congruence. Qed.

Lemma same_size_trans (A B C : mat D) :
  same_size A B = true -> same_size B C = true -> same_size A C = true.
Proof. rewrite !same_size_iff. intuition congruence. Qed.

Lemma same_size_map_l (f : D -> D) (A B : mat D) :
  same_size (mat_map f A) B = same_size A B.
Proof. reflexivity. Qed.

Lemma same_size_map_r (f : D -> D) (A B : mat D) :
  same_size A (mat_map f B) = same_size A B.
Proof. reflexivity. Qed.

Lemma entrywise_Ok (f : D -> D -> D) (A B C : mat D) :
  entrywise f A B = Ok C ->
  same_size A B = true /\ same_size C A = true /\
  mem C = zip_with f (mem A) (mem B).
Proof.
  unfold entrywise. destruct (same_size A B) eqn:E; intros H; inversion H.
  split; [reflexivity | split; [| reflexivity]].
  apply same_size_iff. auto.
Qed.

Lemma entrywise_same_size (f : D -> D -> D) (A B : mat D) :
  same_size A B = true ->
  entrywise f A B = Ok (Mat (n_rows A) (n_cols A) (zip_with f (mem A) (mem B))).
Proof. unfold entrywise. now intros ->. Qed.

Lemma zip_with_map_l (f : D -> D -> D) (g : D -> D) (xs ys : list D) :
  zip_with f (map g xs) ys = zip_with (fun x y => f (g x) y) xs ys.
Proof.
  revert ys. induction xs as [| x xs IH]; intros [| y ys]; simpl; auto.
  now rewrite IH.
Qed.

Lemma zip_with_map_r (f : D -> D -> D) (g : D -> D) (xs ys : list D) :
  zip_with f xs (map g ys) = zip_with (fun x y => f x (g y)) xs ys.
Proof.
  revert ys. induction xs as [| x xs IH]; intros [| y ys]; simpl; auto.
  now rewrite IH.
Qed.

Lemma zip_with_ext (f g : D -> D -> D) (xs ys : list D) :
  (forall x y, f x y = g x y) -> zip_with f xs ys = zip_with g xs ys.
Proof.
  intros E. revert ys. induction xs as [| x xs IH]; intros [| y ys]; simpl; auto.
  now rewrite E, IH.
Qed.

Lemma zip_with_diag (f : D -> D -> D) (xs : list D) :
  zip_with f xs xs = map (fun x => f x x) xs.
Proof. induction xs as [| x xs IH]; simpl; auto. now rewrite IH. Qed.

(** The entries of [zip_with f xs (zip_with g ys zs)], read off three lists
    at once. *)
Lemma zip_with_zip_with_r (f g : D -> D -> D) (xs ys zs : list D) :
  zip_with f xs (zip_with g ys zs)
  = zip_with3 (fun x y z => f x (g y z)) xs ys zs.
Proof.
  revert ys zs. induction xs as [| x xs IH]; intros [| y ys] [| z zs];
    simpl; auto.
  now rewrite IH.
Qed.

Lemma zip_with3_ext (f g : D -> D -> D -> D) (xs ys zs : list D) :
  (forall x y z, f x y z = g x y z) ->
  zip_with3 f xs ys zs = zip_with3 g xs ys zs.
Proof.
  intros E. revert ys zs.
  induction xs as [| x xs IH]; intros [| y ys] [| z zs]; simpl; auto.
  now rewrite E, IH.
Qed.

Lemma zip_with_Forall (P Q R : D -> Prop) (f : D -> D -> D) (xs ys : list D) :
  (forall x y, P x -> Q y -> R (f x y)) ->
  Forall P xs -> Forall Q ys -> Forall R (zip_with f xs ys).
Proof.
  intros Hf Hx. revert ys. induction Hx as [| x xs Hx Hxs IH];
    intros ys Hy; simpl; [constructor |].
  destruct Hy as [| y ys Hy Hys]; constructor; auto.
Qed.

Lemma zip_with_nth_error (f : D -> D -> D) (xs ys : list D) (j : nat) (c : D) :
  nth_error (zip_with f xs ys) j = Some c ->
  exists a b, nth_error xs j = Some a /\ nth_error ys j = Some b /\ c = f a b.
Proof.
  revert ys j. induction xs as [| x xs IH]; intros [| y ys] [| j]; simpl;
    intros H; try discriminate.
  - inversion H. eauto.
  - now apply IH.
Qed.

End Shapes.

(** ** The moments and the iterate after one step *)

Section StepFacts.
Context {D : Type} {ops : DoubleOps D}.
Variable self : Adam D.

Lemma update_m_Ok (m0 g m1 : mat D) :
  update_m self m0 g = Ok m1 ->
  same_size m1 m0 = true /\
  mem m1 = zip_with (fun a b => (a * beta1 self + b * (d_one - beta1 self))%D)
                    (mem m0) (mem g).
Proof.
  unfold update_m, mat_add. intros H.
  apply entrywise_Ok in H as (_ & Hs & Hm). split; [exact Hs |].
  rewrite Hm. unfold scale, mat_map. simpl.
  now rewrite zip_with_map_l, zip_with_map_r.
Qed.

Lemma update_u_Ok (u0 g u1 : mat D) :
  update_u self u0 g = Ok u1 ->
  same_size u1 u0 = true /\
  mem u1 = zip_with (fun a b => d_max (a * beta2 self)%D (d_abs b))
                    (mem u0) (mem g).
Proof.
  unfold update_u, mat_max. intros H.
  apply entrywise_Ok in H as (_ & Hs & Hm). split; [exact Hs |].
  rewrite Hm. unfold scale, mat_abs, mat_map. simpl.
  now rewrite zip_with_map_l, zip_with_map_r.
Qed.

Lemma update_v_Ok (v0 g v1 : mat D) :
  update_v self v0 g = Ok v1 ->
  same_size v1 v0 = true /\
  mem v1 = zip_with (fun a b => (a * beta2 self
                                 + (b * b) * (d_one - beta2 self))%D)
                    (mem v0) (mem g).
Proof.
  unfold update_v, schur, mat_add. intros H.
  destruct (entrywise d_mul g g) as [gg |] eqn:Hgg; [| discriminate].
  apply entrywise_Ok in Hgg as (_ & _ & Hgg).
  apply entrywise_Ok in H as (_ & Hs & Hm). split; [exact Hs |].
  rewrite Hm. unfold scale, mat_map. simpl.
  rewrite Hgg, zip_with_diag, map_map, zip_with_map_l, zip_with_map_r.
  reflexivity.
Qed.

Lemma step_adam_Ok (t : N) (x m1 v1 x1 : mat D) :
  step_adam self t x m1 v1 = Ok x1 ->
  same_size x1 x = true /\
  mem x1 = zip_with3
             (fun a b c =>
                (a - b * (stepSize self * d_sqrt (biasCorrection2 self t)
                          / biasCorrection1 self t)
                     / (d_sqrt c + eps self))%D)
             (mem x) (mem m1) (mem v1).
Proof.
  unfold step_adam, mat_div, mat_sub. intros H.
  destruct (entrywise d_div _ _) as [delta |] eqn:Hd; [| discriminate].
  apply entrywise_Ok in Hd as (_ & _ & Hd).
  apply entrywise_Ok in H as (_ & Hs & Hm). split; [exact Hs |].
  rewrite Hm, Hd. unfold scale, plus_scalar, mat_sqrt, mat_map. simpl.
  rewrite map_map, zip_with_map_l, zip_with_map_r, zip_with_zip_with_r.
  reflexivity.
Qed.

Lemma step_adamax_Ok (t : N) (x m1 u1 x1 : mat D) :
  step_adamax self t x m1 u1 = Ok x1 ->
  if d_neqb (biasCorrection1 self t) d_zero
  then same_size x1 x = true /\
       mem x1 = zip_with3
                  (fun a b c =>
                     (a - b * (stepSize self / biasCorrection1 self t)
                          / (c + eps self))%D)
                  (mem x) (mem m1) (mem u1)
  else x1 = x.
Proof.
  unfold step_adamax, mat_div, mat_sub. intros H.
  destruct (d_neqb (biasCorrection1 self t) d_zero).
  - destruct (entrywise d_div _ _) as [delta |] eqn:Hd; [| discriminate].
    apply entrywise_Ok in Hd as (_ & _ & Hd).
    apply entrywise_Ok in H as (_ & Hs & Hm). split; [exact Hs |].
    rewrite Hm, Hd. unfold scale, plus_scalar, mat_map. simpl.
    rewrite zip_with_map_l, zip_with_map_r, zip_with_zip_with_r.
    reflexivity.
  - now inversion H.
Qed.

(** With the shapes in agreement no operation throws. *)

Lemma update_m_shaped (m0 g : mat D) :
  same_size m0 g = true -> exists m1, update_m self m0 g = Ok m1.
Proof.
  intros H. unfold update_m, mat_add. rewrite entrywise_same_size; eauto.
Qed.

Lemma update_u_shaped (u0 g : mat D) :
  same_size u0 g = true -> exists u1, update_u self u0 g = Ok u1.
Proof.
  intros H. unfold update_u, mat_max. rewrite entrywise_same_size; eauto.
Qed.

Lemma update_v_shaped (v0 g : mat D) :
  same_size v0 g = true -> exists v1, update_v self v0 g = Ok v1.
Proof.
  intros H. unfold update_v, schur, mat_add.
  rewrite (@entrywise_same_size _ d_mul g g (same_size_refl g)).
  rewrite entrywise_same_size; eauto.
Qed.

Lemma step_adam_shaped (t : N) (x m1 v1 : mat D) :
  same_size m1 x = true -> same_size v1 x = true ->
  exists x1, step_adam self t x m1 v1 = Ok x1.
Proof.
  intros Hm Hv. unfold step_adam, mat_div, mat_sub.
  rewrite entrywise_same_size.
  - rewrite entrywise_same_size; eauto. simpl. now apply same_size_sym.
  - unfold scale, plus_scalar, mat_sqrt.
    rewrite same_size_map_l, !same_size_map_r.
    eapply same_size_trans; [exact Hm | now apply same_size_sym].
Qed.

Lemma step_adamax_shaped (t : N) (x m1 u1 : mat D) :
  same_size m1 x = true -> same_size u1 x = true ->
  exists x1, step_adamax self t x m1 u1 = Ok x1.
Proof.
  intros Hm Hu. unfold step_adamax, mat_div, mat_sub.
  destruct (d_neqb _ _); [| eauto].
  rewrite entrywise_same_size.
  - rewrite entrywise_same_size; eauto. simpl. now apply same_size_sym.
  - unfold scale, plus_scalar.
    rewrite same_size_map_l, same_size_map_r.
    eapply same_size_trans; [exact Hm | now apply same_size_sym].
Qed.

End StepFacts.

(** ** The collaborators keep their contracts *)

Lemma squared_distance_shaped (D : Type) (ops : DoubleOps D) (targets : list D) :
  gradient_shaped (function := squared_distance targets).
Proof. intros x idx. simpl. apply same_size_iff. auto. Qed.

Lemma linear_terms_shaped (D : Type) (ops : DoubleOps D) (slopes : list D) :
  gradient_shaped (function := linear_terms slopes).
Proof. intros x idx. simpl. apply same_size_iff. auto. Qed.

Lemma identity_shuffle_keeps_length :
  shuffle_keeps_length (shuffler := identity_shuffle).
Proof. intros g order. reflexivity. Qed.

(** * Properties of the run *)

Section Run.
Context {D : Type} {ops : DoubleOps D}.
Context {function : DecomposableFunctionType D}.
Context {rng : Type} {shuffler : ShuffleSource rng}.
Variable self : Adam D.
Variable x0 : mat D.
Variable g0 : rng.

Local Abbreviation start := (init self x0 g0).

Lemma bind_Next_inv (A B : Type) (c : ctl D rng A) (k : A -> ctl D rng B) (b : B) :
  bind c k = Next b -> exists a, c = Next a /\ k a = Next b.
Proof. destruct c as [a | |]; simpl; intros H; try discriminate; eauto. Qed.

Lemma bind_assoc (A B C : Type) (c : ctl D rng A)
    (k : A -> ctl D rng B) (h : B -> ctl D rng C) :
  bind (bind c k) h = bind c (fun a => bind (k a) h).
Proof. destruct c; reflexivity. Qed.

Lemma bind_Next_r (A : Type) (c : ctl D rng A) : bind c (@Next D rng A) = c.
Proof. destruct c; reflexivity. Qed.

Lemma lift_Next_inv (A : Type) (r : res A) (a : A) :
  lift (D := D) (rng := rng) r = Next a -> r = Ok a.
Proof. destruct r; simpl; intros H; inversion H; reflexivity. Qed.

(** A run of [S k] passes is one pass followed by [k] passes. *)
Lemma run_front (k : nat) (st : state D rng) :
  run self (S k) st = bind (pass self st) (run self k).
Proof.
  induction k as [| k IH].
  - simpl. now rewrite bind_Next_r.
  - change (run self (S (S k)) st)
      with (bind (run self (S k) st) (pass self)).
    rewrite IH, bind_assoc. reflexivity.
Qed.

Lemma run_prefix (k : nat) (st st' : state D rng) :
  run self (S k) st = Next st' ->
  exists mid, run self k st = Next mid /\ pass self mid = Next st'.
Proof. simpl. apply bind_Next_inv. Qed.

(** The loop, after [k] passes that all went on, is where [run] says. *)
Lemma loop_run (k fuel : nat) (st st' : state D rng) :
  run self k st = Next st' -> loop self (k + fuel) st = loop self fuel st'.
Proof.
  revert st. induction k as [| k IH]; intros st H.
  - simpl in H. inversion H. reflexivity.
  - rewrite run_front in H. apply bind_Next_inv in H as (mid & Hp & Hr).
    simpl. rewrite Hp. now apply IH.
Qed.

(** A return of the loop is the return of one pass, from a state that the
    passes before it reached. *)
Lemma loop_Returns (fuel : nat) (st : state D rng) why value final :
  loop self fuel st = Returns why value final ->
  exists k st', (k < fuel)%nat /\ run self k st = Next st' /\
                pass self st' = Ret why value final.
Proof.
  revert st. induction fuel as [| fuel IH]; intros st H; simpl in H.
  - discriminate.
  - destruct (pass self st) as [st1 | w v f | e] eqn:Hp.
    + apply IH in H as (k & st' & Hk & Hr & Hret).
      exists (S k), st'. split; [lia |]. split; [| exact Hret].
      rewrite run_front, Hp. exact Hr.
    + inversion H; subst. exists 0%nat, st. repeat split; [lia | assumption].
    + discriminate.
Qed.

(** ** Inversion of one pass *)

Lemma epoch_start_Next (st st1 : state D rng) :
  epoch_start self st = Next st1 ->
  numFunctions <> 0%N /\
  ((currentFunction st mod numFunctions <> 0)%N /\ st1 = st
   \/
   (currentFunction st mod numFunctions = 0)%N /\
   d_isnan (overallObjective st) || d_isinf (overallObjective st) = false /\
   d_ltb (d_abs (lastObjective st - overallObjective st)%D) (tolerance self)
     = false /\
   st1 = reset_counters self
           (emit (InfoObjective (i st) (overallObjective st)) st)).
Proof.
  unfold epoch_start. intros H.
  destruct (numFunctions =? 0)%N eqn:HN; [discriminate |].
  apply N.eqb_neq in HN. split; [exact HN |].
  destruct (currentFunction st mod numFunctions =? 0)%N eqn:Hc; simpl in H.
  - apply N.eqb_eq in Hc. right.
    destruct (d_isnan (overallObjective st) || d_isinf (overallObjective st));
      [discriminate |].
    destruct (d_ltb _ (tolerance self)); [discriminate |].
    inversion H. repeat apply conj; auto.
  - apply N.eqb_neq in Hc. left. inversion H. subst. split; [exact Hc | reflexivity].
Qed.

(** The start of a sequence touches neither the step counter, nor the
    iterate, nor the moments. *)
Lemma epoch_start_keeps (st st1 : state D rng) :
  epoch_start self st = Next st1 ->
  i st1 = i st /\ iterate st1 = iterate st /\ m st1 = m st /\
  u st1 = u st /\ v st1 = v st.
Proof.
  intros H. apply epoch_start_Next in H as (_ & [(_ & ->) | (_ & _ & _ & ->)]);
    simpl; auto.
Qed.

Lemma update_Next (st st2 : state D rng) :
  update self st = Next st2 ->
  exists idx x1 m1 u1 v1,
    selected self st = Ok idx /\
    update_m self (m st) (Gradient (iterate st) idx) = Ok m1 /\
    (if adaMax self then update_u self (u st) (Gradient (iterate st) idx)
     else Ok (u st)) = Ok u1 /\
    (if adaMax self then Ok (v st)
     else update_v self (v st) (Gradient (iterate st) idx)) = Ok v1 /\
    (if adaMax self then step_adamax self (i st) (iterate st) m1 u1
     else step_adam self (i st) (iterate st) m1 v1) = Ok x1 /\
    st2 = stepped st idx x1 m1 u1 v1.
Proof.
  unfold update. intros H.
  apply bind_Next_inv in H as (idx & Hidx & H). apply lift_Next_inv in Hidx.
  apply bind_Next_inv in H as (m1 & Hm & H). apply lift_Next_inv in Hm.
  apply bind_Next_inv in H as (u1 & Hu & H). apply lift_Next_inv in Hu.
  apply bind_Next_inv in H as (v1 & Hv & H). apply lift_Next_inv in Hv.
  apply bind_Next_inv in H as (x1 & Hx & H). apply lift_Next_inv in Hx.
  inversion H. exists idx, x1, m1, u1, v1. repeat apply conj; auto.
Qed.

(** A step never returns from [Optimize]. *)
Lemma update_no_Ret (st : state D rng) why value final :
  update self st <> Ret why value final.
Proof.
  unfold update.
  destruct (selected self st); simpl; [| discriminate].
  destruct (update_m self _ _); simpl; [| discriminate].
  destruct (if adaMax self then update_u self _ _ else _); simpl; [| discriminate].
  destruct (if adaMax self then Ok (v st) else _); simpl; [| discriminate].
  destruct (if adaMax self then step_adamax self _ _ _ _ else _); simpl;
    discriminate.
Qed.

Lemma pass_Next (st st' : state D rng) :
  pass self st = Next st' ->
  i st <> maxIterations self /\
  exists st1 st2,
    epoch_start self st = Next st1 /\ update self st1 = Next st2 /\
    st' = advance st2.
Proof.
  unfold pass, body. intros H.
  destruct (i st =? maxIterations self)%N eqn:Hi; [discriminate |].
  apply N.eqb_neq in Hi. split; [exact Hi |].
  apply bind_Next_inv in H as (st2 & H & Hadv).
  apply bind_Next_inv in H as (st1 & Hes & Hup).
  inversion Hadv. eauto.
Qed.

(** ** The step counter *)

Lemma size_succ_small (x : N) :
  (x + 1 < SIZE_MODULUS)%N -> size_succ x = (x + 1)%N.
Proof. intros H. unfold size_succ. now apply N.mod_small. Qed.

Lemma passes_spec :
  (maxIterations self < SIZE_MODULUS)%N ->
  (passes self < SIZE_MODULUS)%N /\
  ((passes self + 1) mod SIZE_MODULUS)%N = maxIterations self /\
  ((1 <= maxIterations self)%N -> passes self = (maxIterations self - 1)%N).
Proof.
  unfold passes, SIZE_MODULUS. intros HM.
  assert (H0 : (maxIterations self = 0 \/ 1 <= maxIterations self)%N) by lia.
  destruct H0 as [H0 | H0].
  - rewrite H0. split; [| split]; [reflexivity | reflexivity | lia].
  - assert (E : ((maxIterations self + 2 ^ 64 - 1) mod 2 ^ 64
                 = maxIterations self - 1)%N).
    { replace (maxIterations self + 2 ^ 64 - 1)%N
        with ((maxIterations self - 1) + 1 * 2 ^ 64)%N by lia.
      rewrite N.Div0.mod_add. apply N.mod_small. lia. }
    rewrite E. split; [lia | split; [| reflexivity]].
    replace (maxIterations self - 1 + 1)%N with (maxIterations self) by lia.
    now apply N.mod_small.
Qed.

(** After [k] passes the counter [i] is [k + 1], wrapped, and [k] is within
    the number of passes that the loop makes. *)
Lemma counter_after (k : nat) (st : state D rng) :
  (maxIterations self < SIZE_MODULUS)%N ->
  run self k (init self x0 g0) = Next st ->
  (N.of_nat k <= passes self)%N /\
  i st = ((N.of_nat k + 1) mod SIZE_MODULUS)%N.
Proof.
  intros HM. destruct (passes_spec HM) as (Hlt & Hmod & _).
  revert st. induction k as [| k IH]; intros st H.
  - simpl in H. inversion H. simpl. split; [lia | reflexivity].
  - apply run_prefix in H as (mid & Hr & Hp).
    destruct (IH _ Hr) as (Hk & Hi).
    apply pass_Next in Hp as (Hne & st1 & st2 & Hes & Hup & ->).
    apply update_Next in Hup as (idx & x1 & m1 & u1 & v1 & _ & _ & _ & _ & _ & ->).
    apply epoch_start_keeps in Hes as (Hi1 & _).
    assert (Hk' : (N.of_nat k < passes self)%N).
    { destruct (N.eq_dec (N.of_nat k) (passes self)) as [E | E]; [| lia].
      exfalso. apply Hne. rewrite Hi, E. exact Hmod. }
    simpl. rewrite Hi1, Hi. split; [lia |].
    unfold size_succ. rewrite N.Div0.add_mod_idemp_l.
    f_equal. lia.
Qed.

(** Inside the loop the counter has not wrapped: it is the number of the
    pass. *)
Lemma counter_in_loop (k : nat) (st : state D rng) :
  (maxIterations self < SIZE_MODULUS)%N ->
  run self k (init self x0 g0) = Next st ->
  i st <> maxIterations self ->
  (N.of_nat k < passes self)%N /\ i st = (N.of_nat k + 1)%N.
Proof.
  intros HM Hr Hne. destruct (passes_spec HM) as (Hlt & Hmod & _).
  destruct (counter_after _ HM Hr) as (Hk & Hi).
  assert (Hk' : (N.of_nat k < passes self)%N).
  { destruct (N.eq_dec (N.of_nat k) (passes self)) as [E | E]; [| lia].
    exfalso. apply Hne. rewrite Hi, E. exact Hmod. }
  split; [exact Hk' |]. rewrite Hi. apply N.mod_small. lia.
Qed.

(** At the head of the loop, the test [i != maxIterations] fails exactly
    when all the passes are done. *)
Lemma counter_at_exit (k : nat) (st : state D rng) :
  (maxIterations self < SIZE_MODULUS)%N ->
  run self k (init self x0 g0) = Next st ->
  i st = maxIterations self <-> N.of_nat k = passes self.
Proof.
  intros HM Hr. destruct (passes_spec HM) as (Hlt & Hmod & _).
  destruct (counter_after _ HM Hr) as (Hk & Hi). split; intros E.
  - destruct (N.eq_dec (N.of_nat k) (passes self)) as [E' | E']; [exact E' |].
    exfalso. assert (Hs : (N.of_nat k + 1 < SIZE_MODULUS)%N) by lia.
    rewrite N.mod_small in Hi by exact Hs.
    assert (H0 : (maxIterations self = 0 \/ 1 <= maxIterations self)%N) by lia.
    destruct H0 as [H0 | H0]; [lia |].
    destruct (passes_spec HM) as (_ & _ & Hp). specialize (Hp H0). lia.
  - rewrite Hi, E. exact Hmod.
Qed.


(** ** The states that a run reaches *)

Lemma step_adamax_size (t : N) (x m1 u1 x1 : mat D) :
  step_adamax self t x m1 u1 = Ok x1 -> same_size x1 x = true.
Proof.
  intros H. apply step_adamax_Ok in H.
  destruct (d_neqb _ _); [tauto | subst; apply same_size_refl].
Qed.

Lemma update_shapes (st st2 : state D rng) :
  update self st = Next st2 ->
  same_size (m st) (iterate st) = true ->
  same_size (second_buffer self st) (iterate st) = true ->
  same_size (iterate st2) (iterate st) = true /\
  same_size (m st2) (iterate st2) = true /\
  same_size (second_buffer self st2) (iterate st2) = true.
Proof.
  intros H Hm Hb.
  apply update_Next in H
    as (idx & x1 & m1 & u1 & v1 & _ & Hm1 & Hu1 & Hv1 & Hx1 & ->).
  unfold second_buffer in *. simpl.
  apply update_m_Ok in Hm1 as (Hm1 & _).
  destruct (adaMax self).
  - apply update_u_Ok in Hu1 as (Hu1 & _).
    apply step_adamax_size in Hx1.
    split; [exact Hx1 |].
    split; (eapply same_size_trans; [eassumption |]);
      (eapply same_size_trans; [eassumption |]); now apply same_size_sym.
  - apply update_v_Ok in Hv1 as (Hv1 & _).
    apply step_adam_Ok in Hx1 as (Hx1 & _).
    split; [exact Hx1 |].
    split; (eapply same_size_trans; [eassumption |]);
      (eapply same_size_trans; [eassumption |]); now apply same_size_sym.
Qed.

(** The moments keep the shape of the iterate, and the iterate keeps the
    shape it came with. *)
Lemma shapes_after (k : nat) (st : state D rng) :
  run self k start = Next st ->
  same_size (iterate st) x0 = true /\
  same_size (m st) (iterate st) = true /\
  same_size (second_buffer self st) (iterate st) = true.
Proof.
  revert st. induction k as [| k IH]; intros st H.
  - simpl in H. inversion H. unfold second_buffer. simpl.
    destruct (adaMax self); repeat split; apply same_size_iff; simpl; auto.
  - apply run_prefix in H as (mid & Hr & Hp).
    destruct (IH _ Hr) as (Hx & Hm & Hb).
    apply pass_Next in Hp as (_ & st1 & st2 & Hes & Hup & ->).
    apply epoch_start_keeps in Hes as (_ & Ex & Em & Eu & Ev).
    assert (Hb1 : second_buffer self st1 = second_buffer self mid)
      by (unfold second_buffer; now rewrite Eu, Ev).
    apply update_shapes in Hup as (Hx2 & Hm2 & Hb2);
      rewrite ?Em, ?Ex, ?Hb1; auto.
    change (iterate (advance st2)) with (iterate st2).
    change (m (advance st2)) with (m st2).
    change (second_buffer self (advance st2)) with (second_buffer self st2).
    repeat split; auto.
    eapply same_size_trans; [exact Hx2 |]. now rewrite Ex.
Qed.

(** *** The position in the epoch *)

Lemma position_after (Hvalid : valid_function) (k : nat) (st : state D rng) :
  run self k start = Next st ->
  (currentFunction st <= numFunctions)%N /\
  (currentFunction st mod numFunctions = N.of_nat k mod numFunctions)%N /\
  (currentFunction st = 0%N -> k = 0%nat) /\
  (currentFunction st <= N.of_nat k)%N.
Proof.
  pose proof Hvalid as HN. unfold valid_function in HN.
  revert st. induction k as [| k IH]; intros st H.
  - simpl in H. inversion H. simpl. repeat split; lia.
  - apply run_prefix in H as (mid & Hr & Hp).
    destruct (IH _ Hr) as (Hle & Hmod & _ & Hk).
    apply pass_Next in Hp as (_ & st1 & st2 & Hes & Hup & ->).
    apply update_Next in Hup
      as (idx & x1 & m1 & u1 & v1 & _ & _ & _ & _ & _ & ->).
    simpl.
    assert (Hc1 : currentFunction st1 = (N.of_nat k mod numFunctions)%N).
    { apply epoch_start_Next in Hes
        as (_ & [(Hne & ->) | (He & _ & _ & ->)]).
      - rewrite <- Hmod. symmetry. apply N.mod_small.
        destruct (N.eq_dec (currentFunction mid) numFunctions) as [E | E];
          [| lia].
        exfalso. apply Hne. rewrite E. apply N.Div0.mod_same.
      - simpl. now rewrite <- Hmod, He. }
    assert (Hlt : (N.of_nat k mod numFunctions < numFunctions)%N)
      by (apply N.mod_lt; lia).
    assert (Hmk : (N.of_nat k mod numFunctions <= N.of_nat k)%N)
      by (apply N.Div0.mod_le).
    rewrite Hc1. rewrite size_succ_small by lia.
    repeat split; try lia.
    rewrite N.Div0.add_mod_idemp_l. f_equal. lia.
Qed.

(** The term counter once the start of a sequence is past: the number of
    the pass, modulo the number of terms. *)
Lemma position_in_step (Hvalid : valid_function) (k : nat) (st st1 : state D rng) :
  run self k start = Next st ->
  epoch_start self st = Next st1 ->
  currentFunction st1 = (N.of_nat k mod numFunctions)%N.
Proof.
  pose proof Hvalid as HN. unfold valid_function in HN. intros Hr Hes.
  destruct (position_after Hvalid _ Hr) as (Hle & Hmod & _ & _).
  apply epoch_start_Next in Hes as (_ & [(Hne & ->) | (He & _ & _ & ->)]).
  - rewrite <- Hmod. symmetry. apply N.mod_small.
    destruct (N.eq_dec (currentFunction st) numFunctions) as [E | E]; [| lia].
    exfalso. apply Hne. rewrite E. apply N.Div0.mod_same.
  - simpl. now rewrite <- Hmod, He.
Qed.

(** *** The order of visitation *)

Lemma length_iota (n : N) : length (iota n) = N.to_nat n.
Proof. unfold iota. now rewrite length_map, length_seq. Qed.

Lemma order_length (k : nat) (st : state D rng) :
  shuffle self = true -> shuffle_keeps_length ->
  run self k start = Next st ->
  length (visitationOrder st) = N.to_nat numFunctions.
Proof.
  intros Hs Hkeep. revert st. induction k as [| k IH]; intros st H.
  - simpl in H. inversion H. simpl. rewrite Hs, Hkeep. apply length_iota.
  - apply run_prefix in H as (mid & Hr & Hp). specialize (IH _ Hr).
    apply pass_Next in Hp as (_ & st1 & st2 & Hes & Hup & ->).
    apply update_Next in Hup
      as (idx & x1 & m1 & u1 & v1 & _ & _ & _ & _ & _ & ->).
    simpl.
    apply epoch_start_Next in Hes as (_ & [(_ & ->) | (_ & _ & _ & ->)]);
      [exact IH |].
    simpl. rewrite Hs, Hkeep. exact IH.
Qed.

Lemma selected_ok (Hvalid : valid_function) (k : nat) (st st1 : state D rng) :
  shuffle_keeps_length ->
  run self k start = Next st ->
  epoch_start self st = Next st1 ->
  exists idx, selected self st1 = Ok idx.
Proof.
  pose proof Hvalid as HN. unfold valid_function in HN. intros Hkeep Hr Hes.
  unfold selected. destruct (shuffle self) eqn:Hs; [| eauto].
  pose proof (position_in_step Hvalid _ Hr Hes) as Hc.
  assert (Hlen : length (visitationOrder st1) = N.to_nat numFunctions).
  { pose proof (order_length k Hs Hkeep Hr) as Hl.
    apply epoch_start_Next in Hes as (_ & [(_ & ->) | (_ & _ & _ & ->)]);
      [exact Hl |].
    simpl. rewrite Hs, Hkeep. exact Hl. }
  destruct (nth_error (visitationOrder st1) (N.to_nat (currentFunction st1)))
    eqn:E; [eauto |].
  apply nth_error_None in E. rewrite Hlen, Hc in E.
  assert (Hlt : (N.of_nat k mod numFunctions < numFunctions)%N)
    by (apply N.mod_lt; lia).
  lia.
Qed.

(** *** Progress *)

Lemma update_progress (st : state D rng) (idx : N) :
  gradient_shaped ->
  selected self st = Ok idx ->
  same_size (m st) (iterate st) = true ->
  same_size (second_buffer self st) (iterate st) = true ->
  exists st2, update self st = Next st2.
Proof.
  intros Hg Hsel Hm Hb. unfold update. rewrite Hsel. simpl.
  set (g := Gradient (iterate st) idx).
  assert (Hgs : same_size (iterate st) g = true)
    by (apply same_size_sym, Hg).
  destruct (@update_m_shaped _ _ self (m st) g) as (m1 & Em);
    [eapply same_size_trans; eassumption |].
  rewrite Em. simpl. apply update_m_Ok in Em as (Em & _).
  assert (Hm1 : same_size m1 (iterate st) = true)
    by (eapply same_size_trans; eassumption).
  unfold second_buffer in Hb. destruct (adaMax self).
  - destruct (@update_u_shaped _ _ self (u st) g) as (u1 & Eu);
      [eapply same_size_trans; eassumption |].
    rewrite Eu. simpl. apply update_u_Ok in Eu as (Eu & _).
    destruct (@step_adamax_shaped _ _ self (i st) (iterate st) m1 u1)
      as (x1 & Ex); [assumption | eapply same_size_trans; eassumption |].
    rewrite Ex. simpl. eauto.
  - destruct (@update_v_shaped _ _ self (v st) g) as (v1 & Ev);
      [eapply same_size_trans; eassumption |].
    rewrite Ev. simpl. apply update_v_Ok in Ev as (Ev & _).
    destruct (@step_adam_shaped _ _ self (i st) (iterate st) m1 v1)
      as (x1 & Ex); [assumption | eapply same_size_trans; eassumption |].
    rewrite Ex. simpl. eauto.
Qed.

(** How a pass returns: the iteration limit, or one of the two tests at the
    start of a sequence. *)
Lemma pass_Ret (st : state D rng) why value final :
  pass self st = Ret why value final ->
  (i st = maxIterations self /\ why = Exhausted /\
   value = sum_terms (iterate st) d_zero /\
   iterate final = iterate st /\
   trace final = trace st ++ InfoMaxIterations (maxIterations self)
                          :: evaluate_calls)
  \/
  (i st <> maxIterations self /\
   (currentFunction st mod numFunctions = 0)%N /\
   value = overallObjective st /\
   iterate final = iterate st /\
   m final = m st /\ u final = u st /\ v final = v st /\
   ((why = Diverged /\
     d_isnan (overallObjective st) || d_isinf (overallObjective st) = true /\
     trace final = trace st ++ [InfoObjective (i st) (overallObjective st);
                                WarnDiverged (overallObjective st)])
    \/
    (why = Converged /\
     d_isnan (overallObjective st) || d_isinf (overallObjective st) = false /\
     d_ltb (d_abs (lastObjective st - overallObjective st)%D)
           (tolerance self) = true /\
     trace final = trace st ++ [InfoObjective (i st) (overallObjective st);
                                InfoConverged (tolerance self)]))).
Proof.
  unfold pass. destruct (i st =? maxIterations self)%N eqn:Hi.
  - apply N.eqb_eq in Hi. unfold finish. intros H. inversion H. subst.
    left. simpl. repeat split; auto.
  - apply N.eqb_neq in Hi. intros H. right. split; [exact Hi |].
    unfold body in H.
    destruct (epoch_start self st) as [st1 | w x f | e] eqn:Hes; simpl in H.
    + destruct (update self st1) as [st2 | w x f | e] eqn:Hup; simpl in H;
        try discriminate.
      exfalso. eapply update_no_Ret. exact Hup.
    + inversion H; subst. clear H. unfold epoch_start in Hes.
      destruct (numFunctions =? 0)%N; [discriminate |].
      destruct (currentFunction st mod numFunctions =? 0)%N eqn:Hc;
        simpl in Hes; [| discriminate].
      apply N.eqb_eq in Hc. split; [exact Hc |].
      destruct (d_isnan (overallObjective st) || d_isinf (overallObjective st))
        eqn:Hnf.
      * inversion Hes; subst. simpl. rewrite <- app_assoc. simpl.
        repeat split; auto.
      * destruct (d_ltb _ (tolerance self)) eqn:Hlt; [| discriminate].
        inversion Hes; subst. simpl. rewrite <- app_assoc. simpl.
        repeat split; auto.
    + discriminate.
Qed.

Lemma epoch_start_no_Fail (Hvalid : valid_function) (st : state D rng) (e : error) :
  epoch_start self st <> Fail e.
Proof.
  pose proof Hvalid as HN. unfold valid_function in HN. unfold epoch_start.
  destruct (numFunctions =? 0)%N eqn:E; [apply N.eqb_eq in E; lia |].
  destruct (negb _); [discriminate |].
  destruct (_ || _); [discriminate |].
  destruct (d_ltb _ _); discriminate.
Qed.

(** A pass from a reachable state goes on or returns; it does not throw. *)
Lemma pass_progress (Hvalid : valid_function) (k : nat) (st : state D rng) :
  gradient_shaped -> shuffle_keeps_length ->
  run self k start = Next st ->
  (exists st', pass self st = Next st') \/
  (exists why value final, pass self st = Ret why value final).
Proof.
  intros Hg Hkeep Hr. unfold pass.
  destruct (i st =? maxIterations self)%N; [right; unfold finish; eauto |].
  unfold body.
  destruct (epoch_start self st) as [st1 | w x f | e] eqn:Hes; simpl.
  - destruct (selected_ok Hvalid k Hkeep Hr Hes) as (idx & Hsel).
    destruct (shapes_after _ Hr) as (_ & Hm & Hb).
    apply epoch_start_keeps in Hes as (_ & Ex & Em & Eu & Ev).
    destruct (@update_progress st1 idx Hg Hsel) as (st2 & Hup).
    + now rewrite Em, Ex.
    + unfold second_buffer in *. now rewrite Eu, Ev, Ex.
    + rewrite Hup. simpl. eauto.
  - eauto.
  - exfalso. eapply epoch_start_no_Fail; eassumption.
Qed.


(** ** The trace and the running objective *)

Lemma gradient_indices_app (a b : list (event D)) :
  gradient_indices (a ++ b) = gradient_indices a ++ gradient_indices b.
Proof.
  induction a as [| e a IH]; simpl; [reflexivity |].
  destruct e; simpl; now rewrite ?IH.
Qed.

Lemma gradient_indices_evaluate_calls :
  gradient_indices (evaluate_calls (D := D)) = [].
Proof.
  unfold evaluate_calls. induction (iota numFunctions); simpl; auto.
Qed.

Lemma objective_calls_app (a b : list (event D)) :
  objective_calls (a ++ b) = objective_calls a ++ objective_calls b.
Proof. apply filter_app. Qed.

Lemma objective_calls_evaluate_calls :
  objective_calls (evaluate_calls (D := D)) = evaluate_calls.
Proof.
  unfold evaluate_calls, objective_calls.
  induction (iota numFunctions); simpl; [reflexivity | now f_equal].
Qed.

(** The trace of a pass: what the start of a sequence logs, then one
    gradient and one evaluation at the selected term. *)
Lemma pass_trace (st st' : state D rng) :
  pass self st = Next st' ->
  exists st1 idx,
    epoch_start self st = Next st1 /\ selected self st1 = Ok idx /\
    gradient_indices (trace st') = gradient_indices (trace st) ++ [idx] /\
    objective_calls (trace st')
    = objective_calls (trace st) ++ [CallGradient idx; CallEvaluate idx].
Proof.
  intros Hp. apply pass_Next in Hp as (_ & st1 & st2 & Hes & Hup & ->).
  exists st1.
  apply update_Next in Hup
    as (idx & x1 & m1 & u1 & v1 & Hsel & _ & _ & _ & _ & ->).
  exists idx. split; [exact Hes |]. split; [exact Hsel |]. simpl.
  rewrite gradient_indices_app, objective_calls_app. simpl.
  apply epoch_start_Next in Hes as (_ & [(_ & ->) | (_ & _ & _ & ->)]);
    [auto |].
  simpl. rewrite !gradient_indices_app, !objective_calls_app. simpl.
  destruct (shuffle self); simpl; rewrite !app_nil_r; auto.
Qed.

(** Every pass computes one gradient. *)
Lemma gradients_after (k : nat) (st : state D rng) :
  run self k start = Next st ->
  length (gradient_indices (trace st)) = k.
Proof.
  revert st. induction k as [| k IH]; intros st H.
  - simpl in H. inversion H. simpl.
    rewrite gradient_indices_app, gradient_indices_evaluate_calls.
    destruct (shuffle self); reflexivity.
  - apply run_prefix in H as (mid & Hr & Hp).
    apply pass_trace in Hp as (st1 & idx & _ & _ & Hg & _).
    rewrite Hg, length_app, (IH _ Hr). simpl. lia.
Qed.

Lemma sequential_calls_S (k : nat) :
  sequential_calls (D := D) (S k)
  = sequential_calls k ++ [CallGradient (N.of_nat k mod numFunctions);
                           CallEvaluate (N.of_nat k mod numFunctions)].
Proof.
  unfold sequential_calls. rewrite seq_S, flat_map_app. simpl.
  reflexivity.
Qed.

Lemma fold_left_pointwise (A B : Type) (f g : A -> B -> A) (l : list B) (a : A) :
  (forall x y, f x y = g x y) -> fold_left f l a = fold_left g l a.
Proof.
  intros E. revert a. induction l as [| y l IH]; intros a; simpl; auto.
  now rewrite E, IH.
Qed.

(** Without shuffling, pass [k] works on term [k mod numFunctions]. *)
Lemma sequential_after (Hvalid : valid_function) (k : nat) (st : state D rng) :
  shuffle self = false ->
  run self k start = Next st ->
  objective_calls (trace st) = evaluate_calls ++ sequential_calls k /\
  gradient_indices (trace st)
  = map (fun j => (N.of_nat j mod numFunctions)%N) (seq 0 k).
Proof.
  intros Hs. revert st. induction k as [| k IH]; intros st H.
  - simpl in H. inversion H. simpl. rewrite Hs. simpl.
    rewrite objective_calls_evaluate_calls, gradient_indices_evaluate_calls.
    unfold sequential_calls. simpl. now rewrite app_nil_r.
  - apply run_prefix in H as (mid & Hr & Hp).
    destruct (IH _ Hr) as (IHc & IHg).
    apply pass_trace in Hp as (st1 & idx & Hes & Hsel & Hg & Hc).
    pose proof (position_in_step Hvalid _ Hr Hes) as Hpos.
    unfold selected in Hsel. rewrite Hs in Hsel. inversion Hsel; subst idx.
    rewrite Hc, Hg, IHc, IHg, Hpos, sequential_calls_S, seq_S, map_app.
    simpl. now rewrite <- app_assoc.
Qed.

(** The term of a step, as [term_index] names it. *)
Lemma selected_term_index (st : state D rng) (idx : N) :
  selected self st = Ok idx ->
  idx = term_index self st (N.to_nat (currentFunction st)).
Proof.
  unfold selected, term_index. destruct (shuffle self).
  - destruct (nth_error _ _) eqn:E; intros H; inversion H; subst.
    symmetry. now apply nth_error_nth.
  - intros H. inversion H. now rewrite N2Nat.id.
Qed.

Lemma state_after_run (n : nat) (st : state D rng) :
  run self n start = Next st -> state_after self x0 g0 n = st.
Proof. unfold state_after. now intros ->. Qed.

Lemma state_after_reached (n : nat) :
  (exists st, run self n start = Next st) ->
  run self n start = Next (state_after self x0 g0 n).
Proof. intros (st & H). unfold state_after. now rewrite H. Qed.

(** After at least one pass, the running objective is the sum, over the
    steps of the current epoch, of the value of each step's term at the
    iterate that step produced. *)
Lemma aggregate_after (Hvalid : valid_function) (k : nat) (st : state D rng) :
  run self k start = Next st -> (0 < k)%nat ->
  overallObjective st
  = interleaved_aggregate self x0 g0 k st (N.to_nat (currentFunction st)).
Proof.
  pose proof Hvalid as HN. unfold valid_function in HN.
  revert st. induction k as [| k IH]; intros st H Hk; [lia |]. clear Hk.
  pose proof H as Hrun.
  apply run_prefix in H as (mid & Hr & Hp).
  apply pass_Next in Hp as (_ & st1 & st2 & Hes & Hup & ->).
  pose proof (position_in_step Hvalid _ Hr Hes) as Hpos.
  destruct (position_after Hvalid _ Hr) as (_ & _ & Hz & _).
  apply update_Next in Hup
    as (idx & x1 & m1 & u1 & v1 & Hsel & _ & _ & _ & _ & ->).
  apply selected_term_index in Hsel.
  assert (Hlt : (N.of_nat k mod numFunctions < numFunctions)%N)
    by (apply N.mod_lt; lia).
  assert (Hmk : (N.of_nat k mod numFunctions <= N.of_nat k)%N)
    by (apply N.Div0.mod_le).
  remember (N.to_nat (currentFunction st1)) as c eqn:Ec.
  assert (Hck : (c <= k)%nat) by lia.
  assert (Hcf : N.to_nat (currentFunction
                            (advance (stepped st1 idx x1 m1 u1 v1)))
                = S c).
  { simpl. rewrite size_succ_small by lia. lia. }
  rewrite Hcf. unfold interleaved_aggregate.
  rewrite seq_S, fold_left_app. simpl.
  replace (k - c + c + 1)%nat with (S k) by lia.
  rewrite (state_after_run _ Hrun). simpl.
  change (term_index self (advance (stepped st1 idx x1 m1 u1 v1)) c)
    with (term_index self st1 c).
  rewrite <- Hsel. f_equal.
  apply epoch_start_Next in Hes as (_ & [(Hne & ->) | (He & _ & _ & ->)]).
  - assert (Hk : (0 < k)%nat).
    { destruct k; [| lia]. simpl in Hr. inversion Hr; subst mid.
      simpl in Hne. rewrite N.Div0.mod_0_l in Hne. congruence. }
    rewrite (IH _ Hr Hk), <- Ec. unfold interleaved_aggregate.
    apply fold_left_pointwise. intros acc j. reflexivity.
  - simpl in Ec. subst c. reflexivity.
Qed.


(** ** [Optimize] and the states of its run *)

Lemma Optimize_from (k : nat) (st : state D rng) :
  (maxIterations self < SIZE_MODULUS)%N ->
  run self k start = Next st ->
  Optimize self x0 g0 = loop self (S (N.to_nat (passes self) - k)) st.
Proof.
  intros HM Hr. destruct (counter_after _ HM Hr) as (Hk & _).
  unfold Optimize.
  replace (S (N.to_nat (passes self)))
    with (k + S (N.to_nat (passes self) - k))%nat by lia.
  now apply loop_run.
Qed.

Lemma Optimize_returns_at (k : nat) (st : state D rng) why value final :
  (maxIterations self < SIZE_MODULUS)%N ->
  run self k start = Next st ->
  pass self st = Ret why value final ->
  Optimize self x0 g0 = Returns why value final.
Proof.
  intros HM Hr Hp. rewrite (Optimize_from _ HM Hr). simpl. now rewrite Hp.
Qed.

Lemma Optimize_Returns_inv why value final :
  Optimize self x0 g0 = Returns why value final ->
  exists k st, run self k start = Next st /\
               pass self st = Ret why value final.
Proof.
  unfold Optimize. intros H.
  apply loop_Returns in H as (k & st & _ & Hr & Hp). eauto.
Qed.

Lemma pass_diverged (st : state D rng) :
  i st <> maxIterations self -> numFunctions <> 0%N ->
  (currentFunction st mod numFunctions = 0)%N ->
  d_isnan (overallObjective st) || d_isinf (overallObjective st) = true ->
  pass self st
  = Ret Diverged (overallObjective st)
        (emit (WarnDiverged (overallObjective st))
              (emit (InfoObjective (i st) (overallObjective st)) st)).
Proof.
  intros Hi HN Hc Hnf. unfold pass, body, epoch_start.
  apply N.eqb_neq in Hi, HN. apply N.eqb_eq in Hc.
  now rewrite Hi, HN, Hc, Hnf.
Qed.

Lemma pass_converged (st : state D rng) :
  i st <> maxIterations self -> numFunctions <> 0%N ->
  (currentFunction st mod numFunctions = 0)%N ->
  d_isnan (overallObjective st) || d_isinf (overallObjective st) = false ->
  d_ltb (d_abs (lastObjective st - overallObjective st)%D) (tolerance self)
    = true ->
  pass self st
  = Ret Converged (overallObjective st)
        (emit (InfoConverged (tolerance self))
              (emit (InfoObjective (i st) (overallObjective st)) st)).
Proof.
  intros Hi HN Hc Hnf Hlt. unfold pass, body, epoch_start.
  apply N.eqb_neq in Hi, HN. apply N.eqb_eq in Hc.
  now rewrite Hi, HN, Hc, Hnf, Hlt.
Qed.

Lemma pass_mid_epoch (st : state D rng) :
  i st <> maxIterations self -> numFunctions <> 0%N ->
  (currentFunction st mod numFunctions <> 0)%N ->
  pass self st = bind (update self st) (fun st2 => Next (advance st2)).
Proof.
  intros Hi HN Hc. unfold pass, body, epoch_start.
  apply N.eqb_neq in Hi, HN, Hc. now rewrite Hi, HN, Hc.
Qed.

(** With enough passes left, the loop returns. *)
Lemma loop_total (Hvalid : valid_function) (n k : nat) (st : state D rng) :
  (maxIterations self < SIZE_MODULUS)%N ->
  gradient_shaped -> shuffle_keeps_length ->
  run self k start = Next st ->
  (k + n = N.to_nat (passes self))%nat ->
  exists why value final, loop self (S n) st = Returns why value final.
Proof.
  intros HM Hg Hkeep. revert k st.
  induction n as [| n IH]; intros k st Hr Hn.
  - assert (Hi : i st = maxIterations self)
      by (apply (counter_at_exit _ HM Hr); lia).
    simpl. unfold pass. apply N.eqb_eq in Hi. rewrite Hi. unfold finish. eauto.
  - change (loop self (S (S n)) st)
      with (match pass self st with
            | Next st' => loop self (S n) st'
            | Ret why value final => Returns why value final
            | Fail e => Throws e
            end).
    destruct (pass_progress Hvalid k Hg Hkeep Hr)
      as [(st' & Hp) | (why & value & final & Hp)]; rewrite Hp; [| eauto].
    apply (IH (S k)); [| lia]. simpl. now rewrite Hr.
Qed.

(** ** The step, as the specification writes it *)

Lemma pass_of_run (k : nat) (st st' : state D rng) :
  run self k start = Next st -> run self (S k) start = Next st' ->
  pass self st = Next st'.
Proof. intros Hr HS. simpl in HS. now rewrite Hr in HS. Qed.

(** What a pass that goes on does, whatever the mode: the start of the
    sequence leaves iterate and moments alone, and the step takes one
    gradient at the iterate. *)
Lemma step_of_pass (st st' : state D rng) :
  pass self st = Next st' ->
  exists idx x1 m1 u1 v1,
    i st <> maxIterations self /\
    gradient_indices (trace st') = gradient_indices (trace st) ++ [idx] /\
    update_m self (m st) (Gradient (iterate st) idx) = Ok m1 /\
    (if adaMax self then update_u self (u st) (Gradient (iterate st) idx)
     else Ok (u st)) = Ok u1 /\
    (if adaMax self then Ok (v st)
     else update_v self (v st) (Gradient (iterate st) idx)) = Ok v1 /\
    (if adaMax self then step_adamax self (i st) (iterate st) m1 u1
     else step_adam self (i st) (iterate st) m1 v1) = Ok x1 /\
    iterate st' = x1 /\ m st' = m1 /\ u st' = u1 /\ v st' = v1.
Proof.
  intros Hp. pose proof Hp as Ht.
  apply pass_trace in Ht as (st1' & idx' & Hes' & Hsel' & Hgi & _).
  apply pass_Next in Hp as (Hi & st1 & st2 & Hes & Hup & ->).
  rewrite Hes in Hes'. inversion Hes'; subst st1'. clear Hes'.
  apply epoch_start_keeps in Hes as (E1 & E2 & E3 & E4 & E5).
  apply update_Next in Hup
    as (idx & x1 & m1 & u1 & v1 & Hsel & Hm & Hu & Hv & Hx & ->).
  rewrite Hsel in Hsel'. inversion Hsel'; subst idx'. clear Hsel'.
  rewrite E1, E2, E3, E4, E5 in *.
  exists idx, x1, m1, u1, v1. simpl. repeat apply conj; auto.
Qed.

(** In pass [k + 1] of a run the counter is [k + 1]. *)
Lemma step_of_run (k : nat) (st st' : state D rng) :
  (maxIterations self < SIZE_MODULUS)%N ->
  run self k start = Next st -> run self (S k) start = Next st' ->
  exists idx x1 m1 u1 v1,
    i st = (N.of_nat k + 1)%N /\
    gradient_indices (trace st') = gradient_indices (trace st) ++ [idx] /\
    update_m self (m st) (Gradient (iterate st) idx) = Ok m1 /\
    (if adaMax self then update_u self (u st) (Gradient (iterate st) idx)
     else Ok (u st)) = Ok u1 /\
    (if adaMax self then Ok (v st)
     else update_v self (v st) (Gradient (iterate st) idx)) = Ok v1 /\
    (if adaMax self then step_adamax self (i st) (iterate st) m1 u1
     else step_adam self (i st) (iterate st) m1 v1) = Ok x1 /\
    iterate st' = x1 /\ m st' = m1 /\ u st' = u1 /\ v st' = v1.
Proof.
  intros HM Hr HS. pose proof (pass_of_run _ Hr HS) as Hp.
  apply step_of_pass in Hp
    as (idx & x1 & m1 & u1 & v1 & Hi & Hgi & Hm & Hu & Hv & Hx & Hrest).
  destruct (counter_in_loop _ HM Hr Hi) as (_ & Ei).
  exists idx, x1, m1, u1, v1. repeat apply conj; auto; apply Hrest.
Qed.

(** C1. In Adam mode, pass [t = k + 1] of a run, [t] counting the passes
    since the start of [Optimize] and never reset, takes the state at the
    head of the loop to one in which, entry by entry, [m] is
    [beta1 m + (1 - beta1) gradient], [v] is
    [beta2 v + (1 - beta2) gradient^2] and the iterate is
    [iterate - (stepSize sqrt(1 - beta2^t) / (1 - beta1^t)) m
     / (sqrt(v) + eps)], with the new [m] and [v]; the shapes stay. *)
Theorem adam_step_formulas (k : nat) (st st' : state D rng) :
  adaMax self = false ->
  (forall a b : D, (a * b)%D = (b * a)%D) ->
  (maxIterations self < SIZE_MODULUS)%N ->
  run self k start = Next st ->
  run self (S k) start = Next st' ->
  let t := (N.of_nat k + 1)%N in
  exists idx,
    let g := Gradient (iterate st) idx in
    i st = t /\
    gradient_indices (trace st') = gradient_indices (trace st) ++ [idx] /\
    mem (m st') = zip_with (first_moment_formula self) (mem (m st)) (mem g) /\
    mem (v st') = zip_with (second_moment_formula self) (mem (v st)) (mem g) /\
    mem (iterate st')
    = zip_with3 (adam_formula self t)
                (mem (iterate st)) (mem (m st')) (mem (v st')) /\
    same_size (m st') (m st) = true /\
    same_size (v st') (v st) = true /\
    same_size (iterate st') (iterate st) = true.
Proof.
  intros Hmode Hcomm HM Hr HS t.
  destruct (step_of_run _ HM Hr HS)
    as (idx & x1 & m1 & u1 & v1 & Ei & Hgi & Hm & _ & Hv & Hx & -> & -> & _ & ->).
  rewrite Hmode in Hv, Hx. fold t in Ei. rewrite Ei in Hx.
  exists idx. cbv zeta.
  apply update_m_Ok in Hm as (Sm & Em).
  apply update_v_Ok in Hv as (Sv & Ev).
  apply step_adam_Ok in Hx as (Sx & Ex).
  repeat apply conj; auto.
  - rewrite Em. apply zip_with_ext. intros a b.
    unfold first_moment_formula.
    now rewrite (Hcomm a), (Hcomm b).
  - rewrite Ev. apply zip_with_ext. intros a b.
    unfold second_moment_formula.
    now rewrite (Hcomm a), (Hcomm (b * b)%D).
  - rewrite Ex. apply zip_with3_ext. intros a b c.
    unfold adam_formula, power, biasCorrection1, biasCorrection2.
    now rewrite (Hcomm b).
Qed.

(** C2. In AdaMax mode, pass [t = k + 1] of a run updates [m] and [u] by
    their formulas and then, if [1 - beta1^t] is not zero, makes the
    iterate [iterate - (stepSize / (1 - beta1^t)) m / (u + eps)] entry by
    entry; if [1 - beta1^t] is zero, the iterate after the pass is the
    iterate before it. *)
Theorem adamax_step_formulas (k : nat) (st st' : state D rng) :
  adaMax self = true ->
  (forall a b : D, (a * b)%D = (b * a)%D) ->
  (maxIterations self < SIZE_MODULUS)%N ->
  run self k start = Next st ->
  run self (S k) start = Next st' ->
  let t := (N.of_nat k + 1)%N in
  exists idx,
    let g := Gradient (iterate st) idx in
    i st = t /\
    gradient_indices (trace st') = gradient_indices (trace st) ++ [idx] /\
    mem (m st') = zip_with (first_moment_formula self) (mem (m st)) (mem g) /\
    mem (u st') = zip_with (inf_norm_formula self) (mem (u st)) (mem g) /\
    if d_neqb (d_one - power (beta1 self) t)%D d_zero
    then mem (iterate st')
         = zip_with3 (adamax_formula self t)
                     (mem (iterate st)) (mem (m st')) (mem (u st')) /\
         same_size (iterate st') (iterate st) = true
    else iterate st' = iterate st.
Proof.
  intros Hmode Hcomm HM Hr HS t.
  destruct (step_of_run _ HM Hr HS)
    as (idx & x1 & m1 & u1 & v1 & Ei & Hgi & Hm & Hu & _ & Hx & -> & -> & -> & _).
  rewrite Hmode in Hu, Hx. fold t in Ei. rewrite Ei in Hx.
  exists idx. cbv zeta.
  apply update_m_Ok in Hm as (Sm & Em).
  apply update_u_Ok in Hu as (Su & Eu).
  apply step_adamax_Ok in Hx.
  repeat apply conj; auto.
  - rewrite Em. apply zip_with_ext. intros a b.
    unfold first_moment_formula.
    now rewrite (Hcomm a), (Hcomm b).
  - rewrite Eu. apply zip_with_ext. intros a b.
    unfold inf_norm_formula. now rewrite (Hcomm a).
  - change (d_one - power (beta1 self) t)%D with (biasCorrection1 self t).
    destruct (d_neqb (biasCorrection1 self t) d_zero); [| exact Hx].
    destruct Hx as (Sx & Ex). split; [| exact Sx].
    rewrite Ex. apply zip_with3_ext. intros a b c.
    unfold adamax_formula, power, biasCorrection1.
    now rewrite (Hcomm b).
Qed.

(** ** The three ways out *)

Lemma trace_emit (e : event D) (st : state D rng) :
  trace (emit e st) = trace st ++ [e].
Proof. reflexivity. Qed.

(** Inside an epoch a running objective that is NaN or infinite stays so:
    nothing resets it, and every step adds to it. *)
Lemma nonfinite_persists (k : nat) (st : state D rng) :
  valid_function -> nonfinite_absorbs ->
  run self k start = Next st ->
  (currentFunction st mod numFunctions <> 0)%N ->
  nonfinite (overallObjective st) = true ->
  forall (d : nat) (st' : state D rng),
    run self (k + d) start = Next st' ->
    (currentFunction st + N.of_nat d <= numFunctions)%N ->
    currentFunction st' = (currentFunction st + N.of_nat d)%N /\
    nonfinite (overallObjective st') = true.
Proof.
  intros Hvalid Habs Hr Hc Hnf.
  pose proof Hvalid as HN. unfold valid_function in HN.
  destruct (position_after Hvalid _ Hr) as (Hle & _ & _ & _).
  assert (Hpos : (0 < currentFunction st)%N).
  { destruct (N.eq_dec (currentFunction st) 0) as [E | E]; [| lia].
    exfalso. apply Hc. rewrite E. apply N.Div0.mod_0_l. }
  induction d as [| d IH]; intros st' Hr' Hd.
  - rewrite Nat.add_0_r, Hr in Hr'. inversion Hr'; subst st'.
    split; [simpl; lia | exact Hnf].
  - rewrite Nat.add_succ_r in Hr'.
    apply run_prefix in Hr' as (mid & Hrm & Hp).
    destruct (IH _ Hrm) as (Ecf & Hnfm); [lia |].
    assert (Hcm : (currentFunction mid mod numFunctions <> 0)%N)
      by (rewrite N.mod_small; lia).
    pose proof Hp as Hi. apply pass_Next in Hi as (Hi & _).
    rewrite (pass_mid_epoch _ Hi) in Hp by (exact Hcm || lia).
    apply bind_Next_inv in Hp as (st2 & Hup & Hadv). inversion Hadv.
    apply update_Next in Hup
      as (idx & x1 & m1 & u1 & v1 & _ & _ & _ & _ & _ & ->).
    simpl. rewrite Ecf, size_succ_small by lia.
    split; [lia | now apply Habs].
Qed.

(** C4. At the head of a pass that starts a sequence, a NaN or infinite
    running objective makes [Optimize] return that value as [Diverged],
    whatever the tolerance test would say: the iterate and the moments are
    those at the head of the pass and no call of the objective is added to
    the trace.  At the head of any other pass the running objective is not
    examined: the pass does not return, whatever that objective is; if it
    is NaN or infinite there, it is so at the start of the next sequence,
    where [Optimize] returns it unless the iteration limit comes first. *)
Theorem divergence_checked_at_epoch_start (k : nat) (st : state D rng) :
  (maxIterations self < SIZE_MODULUS)%N ->
  valid_function ->
  run self k start = Next st ->
  i st <> maxIterations self ->
  ((currentFunction st mod numFunctions = 0)%N ->
   nonfinite (overallObjective st) = true ->
   exists final,
     Optimize self x0 g0 = Returns Diverged (overallObjective st) final /\
     iterate final = iterate st /\ m final = m st /\
     u final = u st /\ v final = v st /\
     objective_calls (trace final) = objective_calls (trace st))
  /\
  ((currentFunction st mod numFunctions <> 0)%N ->
   (forall why value final, pass self st <> Ret why value final) /\
   (nonfinite_absorbs ->
    nonfinite (overallObjective st) = true ->
    forall (d : nat) (st' : state D rng),
      run self (k + d) start = Next st' ->
      (currentFunction st + N.of_nat d = numFunctions)%N ->
      i st' <> maxIterations self ->
      nonfinite (overallObjective st') = true /\
      exists final,
        Optimize self x0 g0 = Returns Diverged (overallObjective st') final /\
        iterate final = iterate st')).
Proof.
  intros HM Hvalid Hr Hi.
  pose proof Hvalid as HN. unfold valid_function in HN.
  assert (HN0 : numFunctions <> 0%N) by lia.
  assert (Hret : forall n s,
             run self n start = Next s -> i s <> maxIterations self ->
             (currentFunction s mod numFunctions = 0)%N ->
             nonfinite (overallObjective s) = true ->
             Optimize self x0 g0
             = Returns Diverged (overallObjective s)
                 (emit (WarnDiverged (overallObjective s))
                       (emit (InfoObjective (i s) (overallObjective s)) s))).
  { intros n s Hrs His Hcs Hnfs.
    eapply Optimize_returns_at; [exact HM | exact Hrs |].
    now apply pass_diverged. }
  split.
  - intros Hc Hnf. eexists. split; [now apply (Hret k st) |].
    simpl. repeat apply conj; auto.
    rewrite !objective_calls_app. simpl. now rewrite !app_nil_r.
  - intros Hc. split.
    + intros why value final Hp.
      rewrite (pass_mid_epoch _ Hi HN0 Hc) in Hp.
      destruct (update self st) as [st2 | w x f | e] eqn:Hup; simpl in Hp;
        try discriminate.
      eapply update_no_Ret. exact Hup.
    + intros Habs Hnf d st' Hr' Hd Hi'.
      destruct (nonfinite_persists k Hvalid Habs Hr Hc Hnf d Hr')
        as (Ecf & Hnf'); [lia |].
      split; [exact Hnf' |]. eexists. split.
      * apply (Hret (k + d)%nat st'); auto.
        rewrite Ecf, Hd. apply N.Div0.mod_same.
      * reflexivity.
Qed.

(** C5, as the code has it. At the head of a pass that starts a sequence,
    with a finite running objective within the tolerance of the objective
    recorded before, [Optimize] returns the running objective as
    [Converged], the iterate being that at the head of the pass.  Before
    the first pass that value is the sum of all terms at the initial
    iterate; after [k >= numFunctions] passes it is the sum, over the steps
    of the epoch just completed, of the value of each step's term at the
    iterate that step produced. *)
Theorem convergence_returns_running_objective (k : nat) (st : state D rng) :
  (maxIterations self < SIZE_MODULUS)%N ->
  valid_function ->
  run self k start = Next st ->
  i st <> maxIterations self ->
  (currentFunction st mod numFunctions = 0)%N ->
  d_isnan (overallObjective st) || d_isinf (overallObjective st) = false ->
  d_ltb (d_abs (lastObjective st - overallObjective st)%D) (tolerance self)
    = true ->
  exists final,
    Optimize self x0 g0 = Returns Converged (overallObjective st) final /\
    iterate final = iterate st /\
    objective_calls (trace final) = objective_calls (trace st) /\
    ((k = 0%nat /\ overallObjective st = sum_terms x0 d_zero)
     \/
     ((N.to_nat numFunctions <= k)%nat /\
      overallObjective st
      = interleaved_aggregate self x0 g0 k st (N.to_nat numFunctions))).
Proof.
  intros HM Hvalid Hr Hi Hc Hnf Hlt.
  pose proof Hvalid as HN. unfold valid_function in HN.
  eexists. split; [| split; [| split]].
  - eapply Optimize_returns_at; [exact HM | exact Hr |].
    apply pass_converged; auto. lia.
  - reflexivity.
  - simpl. rewrite !objective_calls_app. simpl. now rewrite !app_nil_r.
  - destruct k as [| k].
    + left. split; [reflexivity |]. simpl in Hr. now inversion Hr.
    + right. destruct (position_after Hvalid _ Hr) as (Hle & _ & Hz & Hk).
      assert (E : currentFunction st = numFunctions).
      { destruct (N.eq_dec (currentFunction st) numFunctions) as [E | E];
          [exact E |].
        rewrite N.mod_small in Hc by lia. apply Hz in Hc. discriminate. }
      split; [lia |].
      rewrite <- E. apply (aggregate_after Hvalid Hr). lia.
Qed.

(** The loop does not run out of the passes it is given. *)
Lemma loop_ends (n k : nat) (st : state D rng) :
  (maxIterations self < SIZE_MODULUS)%N ->
  run self k start = Next st ->
  (k + n = N.to_nat (passes self))%nat ->
  loop self (S n) st <> OutOfFuel.
Proof.
  intros HM. revert k st.
  induction n as [| n IH]; intros k st Hr Hn.
  - assert (Hi : i st = maxIterations self)
      by (apply (counter_at_exit _ HM Hr); lia).
    simpl. unfold pass. apply N.eqb_eq in Hi. rewrite Hi. discriminate.
  - change (loop self (S (S n)) st)
      with (match pass self st with
            | Next st' => loop self (S n) st'
            | Ret why value final => Returns why value final
            | Fail e => Throws e
            end).
    destruct (pass self st) as [st' | why value final | e] eqn:Hp;
      try discriminate.
    apply (IH (S k)); [| lia]. simpl. now rewrite Hr.
Qed.


(** C7. Without shuffling, with [numFunctions >= 1] terms, the calls of the
    objective after [k] passes are the initial evaluations followed, for
    [j = 0, ..., k - 1], by the gradient and then the evaluation of term
    [j mod numFunctions]: the terms [0, 1, ..., numFunctions - 1] in order,
    round after round.  The trace that [Optimize] returns with has this
    form too, for the number of passes made. *)
Theorem sequential_visitation :
  shuffle self = false ->
  valid_function ->
  (forall k st,
     run self k start = Next st ->
     objective_calls (trace st) = evaluate_calls ++ sequential_calls k /\
     gradient_indices (trace st)
     = map (fun j => (N.of_nat j mod numFunctions)%N) (seq 0 k))
  /\
  (forall why value final,
     Optimize self x0 g0 = Returns why value final ->
     exists k,
       gradient_indices (trace final)
       = map (fun j => (N.of_nat j mod numFunctions)%N) (seq 0 k) /\
       objective_calls (trace final)
       = evaluate_calls ++ sequential_calls k
           ++ (match why with Exhausted => evaluate_calls | _ => [] end)).
Proof.
  intros Hs Hvalid. split.
  - intros k st Hr. now apply sequential_after.
  - intros why value final HO.
    apply Optimize_Returns_inv in HO as (k & st & Hr & Hp).
    destruct (sequential_after Hvalid _ Hs Hr) as (Hc & Hg).
    exists k.
    apply pass_Ret in Hp
      as [(_ & -> & _ & _ & Ht)
         | (_ & _ & _ & _ & _ & _ & _ & [(-> & _ & Ht) | (-> & _ & _ & Ht)])];
      rewrite Ht, gradient_indices_app, objective_calls_app; simpl;
      rewrite ?gradient_indices_evaluate_calls,
              ?objective_calls_evaluate_calls, ?app_nil_r, Hc, Hg;
      rewrite <- ?app_assoc; auto.
Qed.

(** C10. [lastObjective] starts at [DBL_MAX].  If [DBL_MAX] minus the
    first objective is not below the tolerance, the first pass does not
    return through the tolerance test, and a run that returns as
    [Converged] has computed at least [numFunctions] gradients: it has
    completed an epoch. *)
Theorem no_convergence_before_an_epoch :
  valid_function ->
  abs_keeps_at_least ->
  d_ltb (DBL_MAX - sum_terms x0 d_zero)%D (tolerance self) = false ->
  lastObjective start = DBL_MAX /\
  (forall value final, pass self start <> Ret Converged value final) /\
  (forall value final,
     Optimize self x0 g0 = Returns Converged value final ->
     (N.to_nat numFunctions <= length (gradient_indices (trace final)))%nat).
Proof.
  intros Hvalid Habs Htol.
  pose proof Hvalid as HN. unfold valid_function in HN.
  assert (Hfirst : forall value final,
             pass self start <> Ret Converged value final).
  { intros value final Hp.
    apply pass_Ret in Hp
      as [(_ & Hw & _)
         | (_ & _ & _ & _ & _ & _ & _ & [(Hw & _) | (_ & _ & Hlt & _)])];
      try discriminate.
    apply Habs in Htol.
    change (lastObjective start) with (@DBL_MAX D ops) in Hlt.
    change (overallObjective start) with (sum_terms x0 d_zero) in Hlt.
    congruence. }
  split; [reflexivity |]. split; [exact Hfirst |].
  intros value final HO.
  apply Optimize_Returns_inv in HO as (k & st & Hr & Hp).
  destruct k as [| k].
  { simpl in Hr. inversion Hr; subst st. exfalso. eapply Hfirst. exact Hp. }
  pose proof (gradients_after _ Hr) as Hlen.
  destruct (position_after Hvalid _ Hr) as (Hle & _ & Hz & Hk).
  apply pass_Ret in Hp
    as [(_ & Hw & _)
       | (_ & Hc & _ & _ & _ & _ & _ & [(Hw & _) | (_ & _ & _ & Ht)])];
    try discriminate.
  rewrite Ht, gradient_indices_app. simpl. rewrite app_nil_r, Hlen.
  assert (E : currentFunction st = numFunctions).
  { destruct (N.eq_dec (currentFunction st) numFunctions) as [E | E];
      [exact E |].
    rewrite N.mod_small in Hc by lia. apply Hz in Hc. discriminate. }
  lia.
Qed.

End Run.

(** ** Signs of the moment buffers, in any arithmetic with the rules of
    signs *)

Section Signs.
Context {D : Type} {ops : DoubleOps D}.
Context {function : DecomposableFunctionType D}.
Context {rng : Type} {shuffler : ShuffleSource rng}.
Variable self : Adam D.
Variable x0 : mat D.
Variable g0 : rng.
Hypothesis rules : sign_rules (ops := ops).

Local Abbreviation start := (init self x0 g0).

Lemma zeros_never_negative (r c : N) :
  Forall never_negative (mem (zeros (D := D) r c)).
Proof.
  simpl. apply Forall_forall. intros e He. apply repeat_spec in He.
  subst e. apply (zero_sign rules).
Qed.

Lemma Forall_anything (l : list D) : Forall (fun _ => True) l.
Proof. apply Forall_forall. auto. Qed.

(** In Adam mode, with [beta2] and [1 - beta2] not below zero, no entry of
    [v] is ever below zero: the square root of line 159 is never taken of
    a negative number. *)
Lemma second_moment_never_negative (k : nat) (st : state D rng) :
  adaMax self = false ->
  never_negative (beta2 self) ->
  never_negative (d_one - beta2 self)%D ->
  run self k start = Next st ->
  entries_all never_negative (v st).
Proof.
  intros Hmode Hb Hb'. unfold entries_all. revert st.
  induction k as [| k IH]; intros st H.
  - simpl in H. inversion H. simpl v. rewrite Hmode.
    apply zeros_never_negative.
  - apply run_prefix in H as (mid & Hr & Hp). specialize (IH _ Hr).
    apply step_of_pass in Hp
      as (idx & x1 & m1 & u1 & v1 & _ & _ & _ & _ & Hv & _ & _ & _ & _ & ->).
    rewrite Hmode in Hv. apply update_v_Ok in Hv as (_ & ->).
    eapply zip_with_Forall; [| exact IH | apply Forall_anything].
    intros a b Ha _. apply (add_sign rules).
    + now apply (mul_sign rules).
    + apply (mul_sign rules); [apply (square_sign rules) | exact Hb'].
Qed.

(** In AdaMax mode, with [beta2] not below zero, no entry of [u] is ever
    below zero. *)
Lemma inf_norm_never_negative (k : nat) (st : state D rng) :
  adaMax self = true ->
  never_negative (beta2 self) ->
  run self k start = Next st ->
  entries_all never_negative (u st).
Proof.
  intros Hmode Hb. unfold entries_all. revert st.
  induction k as [| k IH]; intros st H.
  - simpl in H. inversion H. simpl u. rewrite Hmode.
    apply zeros_never_negative.
  - apply run_prefix in H as (mid & Hr & Hp). specialize (IH _ Hr).
    apply step_of_pass in Hp
      as (idx & x1 & m1 & u1 & v1 & _ & _ & _ & Hu & _ & _ & _ & _ & -> & _).
    rewrite Hmode in Hu. apply update_u_Ok in Hu as (_ & ->).
    eapply zip_with_Forall; [| exact IH | apply Forall_anything].
    intros a b Ha _. apply (max_sign rules).
    + now apply (mul_sign rules).
    + apply (abs_sign rules).
Qed.

End Signs.

(** * In exact arithmetic *)

Section RealRun.
Context {function : DecomposableFunctionType R}.
Context {rng : Type} {shuffler : ShuffleSource rng}.
Variable self : Adam R.
Variable x0 : mat R.
Variable g0 : rng.

Local Abbreviation start := (init self x0 g0).
Local Open Scope R_scope.

Lemma pow_real_INR (x : R) (n : nat) : pow_real x (INR n) = x ^ n.
Proof.
  unfold pow_real. destruct (Rlt_dec 0 x) as [Hx | Hx].
  - now apply Rpower_pow.
  - now rewrite Int_part_INR, Nat2Z.id.
Qed.

Lemma real_bias_positive (beta : R) (t : N) :
  0 <= beta < 1 -> (1 <= t)%N ->
  0 < 1 - pow_real beta (INR (N.to_nat t)).
Proof.
  intros Hb Ht. rewrite pow_real_INR.
  assert (Hn : (0 < N.to_nat t)%nat) by lia.
  pose proof (pow_lt_1_compat beta (N.to_nat t) Hb Hn). lra.
Qed.

Lemma real_ltb_true (a b : R) : d_ltb a b = true <-> a < b.
Proof.
  simpl. destruct (Rlt_dec a b); split; intros; auto; discriminate || tauto.
Qed.

Lemma real_abs_keeps_at_least : abs_keeps_at_least (ops := real_ops).
Proof.
  intros x t. simpl.
  destruct (Rlt_dec x t) as [H | H]; [discriminate |]. intros _.
  destruct (Rlt_dec (Rabs x) t) as [H' | H']; [| reflexivity].
  pose proof (Rle_abs x). lra.
Qed.

Lemma real_never_negative (e : R) : never_negative e <-> 0 <= e.
Proof.
  unfold never_negative. simpl.
  destruct (Rlt_dec e 0); split; intros; try lra; discriminate || reflexivity.
Qed.

Lemma real_sign_rules : sign_rules (ops := real_ops).
Proof.
  assert (E : forall e : R, never_negative e <-> (0 <= e)%R).
  { intros e. unfold never_negative. simpl.
    destruct (Rlt_dec e 0); split; intros; try lra; discriminate || reflexivity. }
  split.
  - apply E. simpl. lra.
  - intros a b Ha%E Hb%E. apply E. simpl. nra.
  - intros a. apply E. simpl. nra.
  - intros a b Ha%E Hb%E. apply E. simpl. lra.
  - intros a. apply E. simpl. apply Rabs_pos.
  - intros a b Ha%E Hb%E. apply E. simpl.
    eapply Rle_trans; [exact Ha | apply Rmax_l].
Qed.

(** On the reals, [t <= x] excludes [x < t]. *)
Lemma real_not_below (t x : R) : t <= x -> d_ltb x t = false.
Proof.
  intros H. simpl. destruct (Rlt_dec x t); [lra | reflexivity].
Qed.

Lemma zeros_nonnegative (r c : N) : Forall (fun e => 0 <= e) (mem (zeros r c)).
Proof.
  simpl. apply Forall_forall. intros e He. apply repeat_spec in He.
  subst e. lra.
Qed.

Lemma empty_nonnegative : Forall (fun e : R => 0 <= e) (mem empty_mat).
Proof. constructor. Qed.

Lemma Forall_trivial (l : list R) : Forall (fun _ => True) l.
Proof. apply Forall_forall. auto. Qed.




(** With a tolerance that nothing is below, no test at the start of a
    sequence returns: the reals hold no NaN and no infinity. *)
Lemma real_pass_goes_on (k : nat) (st : state R rng) :
  valid_function -> gradient_shaped -> shuffle_keeps_length ->
  tolerance self <= 0 ->
  run self k start = Next st ->
  i st <> maxIterations self ->
  exists st', pass self st = Next st'.
Proof.
  intros Hvalid Hg Hkeep Htol Hr Hi.
  destruct (@pass_progress _ _ _ _ _ self x0 g0 Hvalid k st Hg Hkeep Hr)
    as [Hn | (why & value & final & Hp)]; [exact Hn |].
  exfalso. apply pass_Ret in Hp
    as [(Hi' & _) | (_ & _ & _ & _ & _ & _ & _ & [(_ & Hnf & _) | (_ & _ & Hlt & _)])].
  - contradiction.
  - simpl in Hnf. discriminate.
  - apply real_ltb_true in Hlt. cbn [d_abs real_ops] in Hlt.
    pose proof (Rabs_pos (lastObjective st - overallObjective st)%D). lra.
Qed.

Lemma real_run_reaches (k : nat) :
  valid_function -> gradient_shaped -> shuffle_keeps_length ->
  tolerance self <= 0 ->
  (maxIterations self < SIZE_MODULUS)%N ->
  (N.of_nat k <= passes self)%N ->
  exists st, run self k start = Next st.
Proof.
  intros Hvalid Hg Hkeep Htol HM.
  induction k as [| k IH]; intros Hk; [simpl; eauto |].
  destruct IH as (st & Hr); [lia |].
  assert (Hi : i st <> maxIterations self).
  { intros E.
    apply (@counter_at_exit _ _ _ _ _ self x0 g0 k st HM Hr) in E. lia. }
  destruct (real_pass_goes_on k Hvalid Hg Hkeep Htol Hr Hi) as (st' & Hp).
  exists st'. simpl. now rewrite Hr.
Qed.

End RealRun.

(** ** Exact runs *)

Section OnSlopeThenFlat.
#[local] Existing Instance slope_then_flat.

Local Open Scope R_scope.

Lemma slope_then_flat_valid : valid_function.
Proof. split; vm_compute; [discriminate | reflexivity]. Qed.

Lemma exact_run_reaches (maxIt : N) (adamax : bool) (k : nat) :
  (maxIt < SIZE_MODULUS)%N ->
  (N.of_nat k <= passes (exact_adam maxIt adamax))%N ->
  exists st,
    run (exact_adam maxIt adamax) k
        (init (exact_adam maxIt adamax) (column [0]) tt) = Next st.
Proof.
  intros HM Hk. apply real_run_reaches; auto.
  - exact slope_then_flat_valid.
  - exact (@linear_terms_shaped _ _ _).
  - exact identity_shuffle_keeps_length.
  - simpl. lra.
Qed.





End OnSlopeThenFlat.

(** * On binary64 *)

Lemma SFmul_comm (prec emax : Z) (x y : spec_float) :
  SFmul prec emax x y = SFmul prec emax y x.
Proof.
  destruct x as [sx | sx | | sx mx ex], y as [sy | sy | | sy my ey]; simpl;
    rewrite ?(xorb_comm sx sy); try reflexivity.
  now rewrite (Pos.mul_comm mx my), (Z.add_comm ex ey).
Qed.

(** The product of two doubles does not depend on their order. *)
Lemma binary64_mul_comm (a b : float) : (a * b)%D = (b * a)%D.
Proof.
  simpl. apply Prim2SF_inj. rewrite !mul_spec. apply SFmul_comm.
Qed.

Lemma SFabs_keeps_at_least (x t : spec_float) :
  SFltb x t = false -> SFltb (SFabs x) t = false.
Proof.
  unfold SFltb.
  destruct x as [sx | sx | | sx mx ex], t as [st | st | | st mt et];
    repeat match goal with s : bool |- _ => destruct s end;
    simpl; intros H; try reflexivity; try discriminate; exact H.
Qed.

(** On doubles, NaN included, [|x| < t] only if [x < t]. *)
Lemma binary64_abs_keeps_at_least : abs_keeps_at_least (ops := binary64_ops).
Proof.
  intros x t. simpl. rewrite !ltb_spec, abs_spec. apply SFabs_keeps_at_least.
Qed.

Lemma SF_never_negative_iff (x : spec_float) :
  SF_never_negative x <->
  match x with
  | S754_infinity true | S754_finite true _ _ => False
  | _ => True
  end.
Proof.
  unfold SF_never_negative, SFltb, SFcompare.
  destruct x as [s | s | | s m e]; try destruct s; simpl;
    split; intros H; try reflexivity; try exact I; try discriminate;
    try contradiction.
Qed.

Lemma binary_round_aux_sign (mx ex : Z) (lx : location) :
  SF_never_negative (binary_round_aux prec emax false mx ex lx).
Proof.
  apply SF_never_negative_iff. unfold binary_round_aux.
  destruct (shr_fexp prec emax mx ex lx) as (mrs' & e').
  destruct (shr_fexp prec emax _ e' loc_Exact) as (mrs'' & e'').
  destruct (shr_m mrs''); auto.
  destruct (Z.leb e'' (emax - prec))%Z; auto.
Qed.

Lemma SFmul_sign (x y : spec_float) :
  SF_never_negative x -> SF_never_negative y ->
  SF_never_negative (SFmul prec emax x y).
Proof.
  rewrite !SF_never_negative_iff.
  destruct x as [sx | sx | | sx mx ex], y as [sy | sy | | sy my ey];
    repeat match goal with s : bool |- _ => destruct s end;
    simpl; intros Hx Hy; try contradiction; auto.
  apply SF_never_negative_iff, binary_round_aux_sign.
Qed.

Lemma SFmul_square_sign (x : spec_float) :
  SF_never_negative (SFmul prec emax x x).
Proof.
  destruct x as [sx | sx | | sx mx ex]; try destruct sx; simpl;
    try (apply SF_never_negative_iff; exact I);
    apply binary_round_aux_sign.
Qed.

Lemma binary_round_sign (mx : positive) (ex : Z) :
  SF_never_negative (binary_round prec emax false mx ex).
Proof.
  unfold binary_round. destruct (shl_align _ _ _). apply binary_round_aux_sign.
Qed.

Lemma SFadd_sign (x y : spec_float) :
  SF_never_negative x -> SF_never_negative y ->
  SF_never_negative (SFadd prec emax x y).
Proof.
  intros Hx%SF_never_negative_iff Hy%SF_never_negative_iff.
  destruct x as [sx | sx | | sx mx ex], y as [sy | sy | | sy my ey];
    repeat match goal with s : bool |- _ => destruct s end;
    simpl in *; try contradiction;
    try (apply SF_never_negative_iff; exact I).
  apply binary_round_sign.
Qed.

Lemma SFabs_sign (x : spec_float) : SF_never_negative (SFabs x).
Proof. apply SF_never_negative_iff. destruct x; simpl; exact I. Qed.

Lemma binary64_sign_rules : sign_rules (ops := binary64_ops).
Proof.
  assert (E : forall e : float,
             never_negative e <-> SF_never_negative (Prim2SF e)).
  { intros e. unfold never_negative, SF_never_negative. simpl.
    rewrite ltb_spec. reflexivity. }
  split.
  - reflexivity.
  - intros a b Ha%E Hb%E. apply E. simpl. rewrite mul_spec.
    now apply SFmul_sign.
  - intros a. apply E. simpl. rewrite mul_spec. apply SFmul_square_sign.
  - intros a b Ha%E Hb%E. apply E. simpl. rewrite add_spec.
    now apply SFadd_sign.
  - intros a. apply E. simpl. rewrite abs_spec. apply SFabs_sign.
  - intros a b Ha Hb. simpl. unfold max_binary64.
    destruct (PrimFloat.ltb a b); assumption.
Qed.

Lemma SFleb_not_ltb (t x : spec_float) :
  SFleb t x = true -> SFltb x t = false.
Proof.
  unfold SFleb, SFltb, SFcompare.
  destruct t as [st | st | | st mt et], x as [sx | sx | | sx mx ex];
    repeat match goal with s : bool |- _ => destruct s end;
    simpl; intros H; try reflexivity; try discriminate;
    rewrite (Z.compare_antisym et ex);
    change (Pos.compare_cont Eq mx mt) with (Pos.compare mx mt);
    change (Pos.compare_cont Eq mt mx) with (Pos.compare mt mx) in H;
    rewrite (Pos.compare_antisym mt mx);
    destruct (et ?= ex)%Z; simpl in *; try reflexivity; try discriminate;
    destruct (mt ?= mx)%positive; simpl in *; try reflexivity; discriminate.
Qed.

(** On doubles, [t <= x] excludes [x < t]. *)
Lemma binary64_not_below (t x : float) :
  PrimFloat.leb t x = true -> d_ltb x t = false.
Proof.
  simpl. rewrite leb_spec, ltb_spec. apply SFleb_not_ltb.
Qed.

Lemma binary64_nonfinite_iff (f : float) :
  nonfinite f = true <->
  match Prim2SF f with
  | S754_nan | S754_infinity _ => True
  | _ => False
  end.
Proof.
  unfold nonfinite. simpl. unfold is_nan, is_infinity.
  rewrite !eqb_spec, abs_spec.
  change (Prim2SF infinity) with (S754_infinity false).
  unfold SFeqb, SFcompare.
  destruct (Prim2SF f) as [s | s | | s mant e]; try destruct s; simpl;
    rewrite ?Z.compare_refl, ?Pos.compare_cont_refl; simpl;
    split; intros H; try exact I; try reflexivity; try discriminate;
    contradiction.
Qed.

(** On doubles a sum with a NaN or an infinity is a NaN or an infinity. *)
Lemma binary64_nonfinite_absorbs : nonfinite_absorbs (ops := binary64_ops).
Proof.
  intros a b Ha. apply binary64_nonfinite_iff in Ha.
  apply binary64_nonfinite_iff.
  change (Prim2SF (a + b)%D) with (Prim2SF (a + b)%float).
  rewrite add_spec. unfold SF64add.
  destruct (Prim2SF a) as [sa | sa | | sa ma ea]; try contradiction;
    destruct (Prim2SF b) as [sb | sb | | sb mb eb]; simpl; try exact I;
    destruct sa, sb; exact I.
Qed.

(** ** The moment buffers on doubles *)

Section OnDoubles.
Context {function : DecomposableFunctionType float}.
Context {rng : Type} {shuffler : ShuffleSource rng}.
Variable self : Adam float.
Variable x0 : mat float.
Variable g0 : rng.

(** On doubles no entry of [v] is below zero, whatever the gradients,
    NaN and infinities included. *)
Lemma second_moment_never_negative_binary64 (k : nat) (st : state float rng) :
  adaMax self = false ->
  PrimFloat.ltb (beta2 self) 0 = false ->
  PrimFloat.ltb (1 - beta2 self) 0 = false ->
  run self k (init self x0 g0) = Next st ->
  Forall (fun e => PrimFloat.ltb e 0 = false) (mem (v st)).
Proof.
  intros Hmode Hb Hb' Hr.
  exact (@second_moment_never_negative _ _ _ _ _ self x0 g0
           binary64_sign_rules k st Hmode Hb Hb' Hr).
Qed.

(** On doubles no entry of [u] is below zero. *)
Lemma inf_norm_never_negative_binary64 (k : nat) (st : state float rng) :
  adaMax self = true ->
  PrimFloat.ltb (beta2 self) 0 = false ->
  run self k (init self x0 g0) = Next st ->
  Forall (fun e => PrimFloat.ltb e 0 = false) (mem (u st)).
Proof.
  intros Hmode Hb Hr.
  exact (@inf_norm_never_negative _ _ _ _ _ self x0 g0
           binary64_sign_rules k st Hmode Hb Hr).
Qed.

End OnDoubles.

(** The specification's convergence tests, run on doubles: from [x = 0],
    Adam and AdaMax minimize [(x - 3)^2] to below [1e-6], within [1e-3] of
    [x = 3], and return through the tolerance test long before the
    iteration limit. *)
Lemma convergence_tests_on_doubles :
  let x0 := column [0%float] in
  let close (o : outcome float unit) :=
    match o with
    | Returns Converged value final =>
        PrimFloat.ltb value 0x1.0c6f7a0b5ed8dp-20              (* 1e-6 *)
        && PrimFloat.ltb (abs (entry (iterate final) 0 - 3))
                         0x1.0624dd2f1a9fcp-10                 (* 1e-3 *)
        && (i final <? 1000)%N
    | _ => false
    end in
  close (Optimize (function := parabola) (test_adam 10000 false) x0 tt) = true
  /\
  close (Optimize (function := parabola) (test_adam 10000 true) x0 tt) = true.
Proof. split; vm_compute; reflexivity. Qed.

(** The guard of line 148 at work: with [beta1 = 1], outside the range the
    hyperparameters are meant to lie in, [1 - beta1^t] is zero at every
    step and AdaMax, while it updates [m] and [u], leaves the iterate
    where it is. *)
Lemma adamax_skips_on_doubles :
  let self := {| stepSize := 0x1p-1%float; beta1 := 1%float;
                 beta2 := 0x1p-1%float; eps := 1%float;
                 maxIterations := 4; tolerance := 0%float;
                 shuffle := false; adaMax := true |} in
  let x0 := column [0%float] in
  let st := state_after (function := parabola) self x0 tt 3 in
  d_neqb (biasCorrection1 self 3) d_zero = false /\
  iterate st = x0 /\ mem (m st) = [0%float] /\ mem (u st) = [6%float].
Proof. repeat split; vm_compute; reflexivity. Qed.

(** The run of [inf_norm_decreases] on doubles: [u] goes from [0] to [1]
    and down to [0.5]. *)
Lemma inf_norm_decreases_on_doubles :
  let self := halving_adamax 3 false in
  let x0 := column [0%float] in
  let after n :=
    mem (u (state_after (function := slope_then_flat_binary64) self x0 tt n)) in
  after 0%nat = [0%float] /\ after 1%nat = [1%float] /\
  after 2%nat = [0x1p-1%float].
Proof. repeat split; vm_compute; reflexivity. Qed.

(** A run that shuffles: the order drawn before the loop is replaced at
    the first start of a sequence, before it is ever used, and each epoch
    visits the order drawn at its start. *)
Lemma shuffled_visitation_on_doubles :
  let self := halving_adamax 30 true in
  let x0 := column [0%float; 0%float; 0%float; 0%float; 0%float] in
  let st := state_after (function := five_terms) (shuffler := rotating_shuffle)
                        self x0 0%nat 10 in
  visitationOrder (init (function := five_terms) (shuffler := rotating_shuffle)
                        self x0 0%nat) = [1; 2; 3; 4; 0]%N /\
  gradient_indices (trace st) = [2; 3; 4; 0; 1; 3; 4; 0; 1; 2]%N /\
  generator st = 3%nat.
Proof. repeat split; vm_compute; reflexivity. Qed.

(** ** The claims at work *)

Section OnParabola.
#[local] Existing Instance parabola.

(** The third pass of Adam on [(x - 3)^2] from [x = 0]. *)
Lemma adam_step_formulas_witness :
  let self := test_adam 10 false in
  let x0 := column [0%float] in
  let st := state_after self x0 tt 2 in
  let st' := state_after self x0 tt 3 in
  (adaMax self = false /\
   (maxIterations self < SIZE_MODULUS)%N /\
   run self 2 (init self x0 tt) = Next st /\
   run self 3 (init self x0 tt) = Next st') /\
  exists idx,
    i st = 3%N /\
    gradient_indices (trace st') = gradient_indices (trace st) ++ [idx] /\
    mem (m st')
    = zip_with (first_moment_formula self) (mem (m st))
               (mem (Gradient (iterate st) idx)) /\
    mem (v st')
    = zip_with (second_moment_formula self) (mem (v st))
               (mem (Gradient (iterate st) idx)) /\
    mem (iterate st')
    = zip_with3 (adam_formula self 3)
                (mem (iterate st)) (mem (m st')) (mem (v st')) /\
    same_size (m st') (m st) = true /\
    same_size (v st') (v st) = true /\
    same_size (iterate st') (iterate st) = true.
Proof.
  intros self x0 st st'.
  assert (H1 : adaMax self = false) by reflexivity.
  assert (H2 : (maxIterations self < SIZE_MODULUS)%N)
    by (vm_compute; reflexivity).
  assert (H3 : run self 2 (init self x0 tt) = Next st)
    by (vm_compute; reflexivity).
  assert (H4 : run self 3 (init self x0 tt) = Next st')
    by (vm_compute; reflexivity).
  split; [repeat apply conj; assumption |].
  exact (@adam_step_formulas _ _ _ _ _ self x0 tt 2 st st'
           H1 binary64_mul_comm H2 H3 H4).
Defined.

(** The third pass of AdaMax on [(x - 3)^2] from [x = 0]; [1 - beta1^3] is
    not zero. *)
Lemma adamax_step_formulas_witness :
  let self := test_adam 10 true in
  let x0 := column [0%float] in
  let st := state_after self x0 tt 2 in
  let st' := state_after self x0 tt 3 in
  (adaMax self = true /\
   (maxIterations self < SIZE_MODULUS)%N /\
   run self 2 (init self x0 tt) = Next st /\
   run self 3 (init self x0 tt) = Next st') /\
  exists idx,
    i st = 3%N /\
    gradient_indices (trace st') = gradient_indices (trace st) ++ [idx] /\
    mem (m st')
    = zip_with (first_moment_formula self) (mem (m st))
               (mem (Gradient (iterate st) idx)) /\
    mem (u st')
    = zip_with (inf_norm_formula self) (mem (u st))
               (mem (Gradient (iterate st) idx)) /\
    if d_neqb (d_one - power (beta1 self) 3)%D d_zero
    then mem (iterate st')
         = zip_with3 (adamax_formula self 3)
                     (mem (iterate st)) (mem (m st')) (mem (u st')) /\
         same_size (iterate st') (iterate st) = true
    else iterate st' = iterate st.
Proof.
  intros self x0 st st'.
  assert (H1 : adaMax self = true) by reflexivity.
  assert (H2 : (maxIterations self < SIZE_MODULUS)%N)
    by (vm_compute; reflexivity).
  assert (H3 : run self 2 (init self x0 tt) = Next st)
    by (vm_compute; reflexivity).
  assert (H4 : run self 3 (init self x0 tt) = Next st')
    by (vm_compute; reflexivity).
  split; [repeat apply conj; assumption |].
  exact (@adamax_step_formulas _ _ _ _ _ self x0 tt 2 st st'
           H1 binary64_mul_comm H2 H3 H4).
Defined.

(** Started at the minimum [x = 3], the run meets the tolerance after one
    epoch of one step. *)
Lemma convergence_returns_running_objective_witness :
  let self := test_adam 10000 false in
  let x0 := column [3%float] in
  let st := state_after self x0 tt 1 in
  ((maxIterations self < SIZE_MODULUS)%N /\
   valid_function /\
   run self 1 (init self x0 tt) = Next st /\
   i st <> maxIterations self /\
   (currentFunction st mod numFunctions = 0)%N /\
   d_isnan (overallObjective st) || d_isinf (overallObjective st) = false /\
   d_ltb (d_abs (lastObjective st - overallObjective st)%D) (tolerance self)
     = true) /\
  exists final,
    Optimize self x0 tt = Returns Converged (overallObjective st) final /\
    iterate final = iterate st /\
    objective_calls (trace final) = objective_calls (trace st) /\
    ((1%nat = 0%nat /\ overallObjective st = sum_terms x0 d_zero)
     \/
     ((N.to_nat numFunctions <= 1)%nat /\
      overallObjective st
      = interleaved_aggregate self x0 tt 1 st (N.to_nat numFunctions))).
Proof.
  intros self x0 st.
  assert (H1 : (maxIterations self < SIZE_MODULUS)%N)
    by (vm_compute; reflexivity).
  assert (H2 : valid_function)
    by (split; vm_compute; [discriminate | reflexivity]).
  assert (H3 : run self 1 (init self x0 tt) = Next st)
    by (vm_compute; reflexivity).
  assert (H4 : i st <> maxIterations self) by (vm_compute; discriminate).
  assert (H5 : (currentFunction st mod numFunctions = 0)%N)
    by (vm_compute; reflexivity).
  assert (H6 : d_isnan (overallObjective st) || d_isinf (overallObjective st)
               = false) by (vm_compute; reflexivity).
  assert (H7 : d_ltb (d_abs (lastObjective st - overallObjective st)%D)
                     (tolerance self) = true) by (vm_compute; reflexivity).
  split; [exact (conj H1 (conj H2 (conj H3 (conj H4 (conj H5 (conj H6 H7)))))) |].
  exact (@convergence_returns_running_objective _ _ _ _ _ self x0 tt 1 st
           H1 H2 H3 H4 H5 H6 H7).
Defined.

(** The specification's test run: [DBL_MAX - 9] is not below [1e-11]. *)
Lemma no_convergence_before_an_epoch_witness :
  let self := test_adam 10000 false in
  let x0 := column [0%float] in
  (valid_function /\
   abs_keeps_at_least (ops := binary64_ops) /\
   d_ltb (DBL_MAX - sum_terms x0 d_zero)%D (tolerance self) = false) /\
  lastObjective (init self x0 tt) = DBL_MAX /\
  (forall value final,
     pass self (init self x0 tt) <> Ret Converged value final) /\
  (forall value final,
     Optimize self x0 tt = Returns Converged value final ->
     (N.to_nat numFunctions <= length (gradient_indices (trace final)))%nat).
Proof.
  intros self x0.
  assert (H1 : valid_function)
    by (split; vm_compute; [discriminate | reflexivity]).
  pose proof binary64_abs_keeps_at_least as H2.
  assert (H3 : d_ltb (DBL_MAX - sum_terms x0 d_zero)%D (tolerance self)
               = false) by (vm_compute; reflexivity).
  split; [exact (conj H1 (conj H2 H3)) |].
  exact (@no_convergence_before_an_epoch _ _ _ _ _ self x0 tt H1 H2 H3).
Defined.


End OnParabola.

Section OnTwoTerms.
#[local] Existing Instance two_terms.

(** With the step size [2^600] the first step throws the iterate so far
    that the running objective is infinite in the middle of the first
    epoch; [Optimize] returns it at the start of the next. *)
Lemma divergence_checked_at_epoch_start_witness :
  let self := reckless_adam in
  let x0 := column [0%float; 0%float] in
  let st := state_after self x0 tt 1 in
  let st' := state_after self x0 tt 2 in
  ((maxIterations self < SIZE_MODULUS)%N /\
   valid_function /\
   run self 1 (init self x0 tt) = Next st /\
   i st <> maxIterations self /\
   (currentFunction st mod numFunctions <> 0)%N /\
   nonfinite_absorbs (ops := binary64_ops) /\
   nonfinite (overallObjective st) = true /\
   run self 2 (init self x0 tt) = Next st') /\
  (forall why value final, pass self st <> Ret why value final) /\
  exists final,
    Optimize self x0 tt = Returns Diverged infinity final /\
    iterate final = iterate st'.
Proof.
  intros self x0 st st'.
  assert (H1 : (maxIterations self < SIZE_MODULUS)%N)
    by (vm_compute; reflexivity).
  assert (H2 : valid_function)
    by (split; vm_compute; [discriminate | reflexivity]).
  assert (H3 : run self 1 (init self x0 tt) = Next st)
    by (vm_compute; reflexivity).
  assert (H4 : i st <> maxIterations self) by (vm_compute; discriminate).
  assert (H5 : (currentFunction st mod numFunctions <> 0)%N)
    by (vm_compute; discriminate).
  pose proof binary64_nonfinite_absorbs as H6.
  assert (H7 : nonfinite (overallObjective st) = true)
    by (vm_compute; reflexivity).
  assert (H8 : run self (1 + 1) (init self x0 tt) = Next st')
    by (vm_compute; reflexivity).
  split; [exact (conj H1 (conj H2 (conj H3 (conj H4 (conj H5 (conj H6
                  (conj H7 H8))))))) |].
  destruct (proj2 (@divergence_checked_at_epoch_start _ _ _ _ _ self x0 tt 1 st
                     H1 H2 H3 H4) H5) as (Hno & Hlater).
  split; [exact Hno |].
  assert (H9 : (currentFunction st + N.of_nat 1 = numFunctions)%N)
    by (vm_compute; reflexivity).
  assert (H10 : i st' <> maxIterations self) by (vm_compute; discriminate).
  exact (proj2 (Hlater H6 H7 1%nat st' H8 H9 H10)).
Defined.

End OnTwoTerms.

Section OnFiveTerms.
#[local] Existing Instance five_terms.

(** The specification's test: five terms, no shuffling, two epochs. *)
Lemma sequential_visitation_witness :
  let self := test_adam 11 false in
  let x0 := column [0%float; 0%float; 0%float; 0%float; 0%float] in
  (shuffle self = false /\ valid_function) /\
  gradient_indices (trace (state_after self x0 tt 10))
  = [0; 1; 2; 3; 4; 0; 1; 2; 3; 4]%N.
Proof.
  intros self x0.
  assert (H1 : shuffle self = false) by reflexivity.
  assert (H2 : valid_function)
    by (split; vm_compute; [discriminate | reflexivity]).
  split; [split; assumption |].
  assert (H3 : run self 10 (init self x0 tt) = Next (state_after self x0 tt 10))
    by (vm_compute; reflexivity).
  exact (proj2 (proj1 (@sequential_visitation _ _ _ _ _ self x0 tt H1 H2)
                      10%nat _ H3)).
Defined.

End OnFiveTerms.

Section OnParabolaAtOrigin.
#[local] Existing Instance parabola_at_origin.

(** C5, a run against the claim as stated. With the tolerance [DBL_MAX]
    and [x^2] started at [x = 2^511], the first objective is [2^1022] and
    [|DBL_MAX - 2^1022| < DBL_MAX]: [Optimize] returns as [Converged]
    before any gradient is computed, so the value returned is not the sum
    over an epoch of steps. *)
Lemma returns_before_any_epoch :
  let x0 := column [0x1p+511%float] in
  (exists final,
     Optimize lenient_adam x0 tt = Returns Converged 0x1p+1022%float final /\
     gradient_indices (trace final) = [] /\
     iterate final = x0) /\
  ~ returns_epoch_aggregate lenient_adam x0 tt.
Proof.
  intros x0. split.
  - eexists. split; [vm_compute; reflexivity |].
    split; vm_compute; reflexivity.
  - intros H.
    assert (H0 : run lenient_adam 0 (init lenient_adam x0 tt)
                 = Next (init lenient_adam x0 tt)) by reflexivity.
    destruct (H 0%nat _ H0) as (Hk & _); try (vm_compute; reflexivity).
    + vm_compute. discriminate.
    + vm_compute in Hk. lia.
Qed.

End OnParabolaAtOrigin.

(** * Further properties of [Optimize] *)

(** ** Shapes, buffers and calls *)

Section Returns.
Context {D : Type} {ops : DoubleOps D}.
Context {function : DecomposableFunctionType D}.
Context {rng : Type} {shuffler : ShuffleSource rng}.
Variable self : Adam D.
Variable x0 : mat D.
Variable g0 : rng.

Local Abbreviation start := (init self x0 g0).

(** A return leaves the iterate, the moments, the order of visitation and
    the generator as the loop had them. *)
Lemma pass_Ret_keeps (st : state D rng) why value final :
  pass self st = Ret why value final ->
  iterate final = iterate st /\ m final = m st /\
  u final = u st /\ v final = v st /\
  visitationOrder final = visitationOrder st /\
  generator final = generator st.
Proof.
  unfold pass. destruct (i st =? maxIterations self)%N.
  - unfold finish. intros H. inversion H. simpl. repeat apply conj; reflexivity.
  - unfold body.
    destruct (epoch_start self st) as [st1 | w x f | e] eqn:Hes; simpl.
    + destruct (update self st1) as [st2 | w x f | e] eqn:Hup; simpl;
        try discriminate.
      exfalso. eapply update_no_Ret. exact Hup.
    + intros H. inversion H; subst. clear H. unfold epoch_start in Hes.
      destruct (numFunctions =? 0)%N; [discriminate |].
      destruct (negb _); [discriminate |].
      destruct (_ || _).
      * inversion Hes. simpl. repeat apply conj; reflexivity.
      * destruct (d_ltb _ _); [| discriminate].
        inversion Hes. simpl. repeat apply conj; reflexivity.
    + discriminate.
Qed.

(** X1. Whatever way [Optimize] returns, the iterate it hands back has the
    shape of the iterate it was given, and so have the first moment and the
    moment buffer of the mode. *)
Theorem Optimize_keeps_shapes why value final :
  Optimize self x0 g0 = Returns why value final ->
  same_size (iterate final) x0 = true /\
  same_size (m final) x0 = true /\
  same_size (second_buffer self final) x0 = true.
Proof.
  intros H. apply Optimize_Returns_inv in H as (k & st & Hr & Hp).
  apply pass_Ret_keeps in Hp as (Ex & Em & Eu & Ev & _).
  destruct (shapes_after _ _ _ _ Hr) as (Hx & Hm & Hb).
  unfold second_buffer in *. rewrite Ex, Em, Eu, Ev.
  repeat apply conj; [exact Hx | |]; eapply same_size_trans; eassumption.
Qed.

(** X2. The buffer that the mode does not use is never allocated: [u]
    stays 0 by 0 in a run of Adam, [v] in a run of AdaMax. *)
Theorem idle_buffer_stays_empty :
  (forall k st, run self k start = Next st ->
     idle_buffer self st = empty_mat) /\
  (forall why value final,
     Optimize self x0 g0 = Returns why value final ->
     idle_buffer self final = empty_mat).
Proof.
  assert (Hrun : forall k st, run self k start = Next st ->
                              idle_buffer self st = empty_mat).
  { induction k as [| k IH]; intros st H.
    - simpl in H. inversion H. unfold idle_buffer. simpl.
      destruct (adaMax self); reflexivity.
    - apply run_prefix in H as (mid & Hr & Hp). specialize (IH _ Hr).
      apply pass_Next in Hp as (_ & st1 & st2 & Hes & Hup & ->).
      apply epoch_start_keeps in Hes as (_ & _ & _ & Eu & Ev).
      apply update_Next in Hup
        as (idx & x1 & m1 & u1 & v1 & _ & _ & Hu & Hv & _ & ->).
      unfold idle_buffer in *. simpl.
      destruct (adaMax self).
      + inversion Hv. now rewrite Ev.
      + inversion Hu. now rewrite Eu. }
  split; [exact Hrun |].
  intros why value final H.
  apply Optimize_Returns_inv in H as (k & st & Hr & Hp).
  apply pass_Ret_keeps in Hp as (_ & _ & Eu & Ev & _).
  specialize (Hrun _ _ Hr). unfold idle_buffer in *. now rewrite Eu, Ev.
Qed.

Lemma objective_calls_paired (indices : list N) :
  objective_calls (paired_calls (D := D) indices) = paired_calls indices.
Proof.
  induction indices as [| idx rest IH]; [reflexivity |].
  unfold paired_calls, objective_calls in *. simpl. now rewrite IH.
Qed.

Lemma paired_calls_app (a b : list N) :
  paired_calls (D := D) (a ++ b) = paired_calls a ++ paired_calls b.
Proof. apply flat_map_app. Qed.

Lemma calls_after (k : nat) (st : state D rng) :
  run self k start = Next st ->
  objective_calls (trace st)
  = evaluate_calls ++ paired_calls (gradient_indices (trace st)).
Proof.
  revert st. induction k as [| k IH]; intros st H.
  - simpl in H. inversion H. simpl.
    rewrite objective_calls_app, gradient_indices_app.
    rewrite objective_calls_evaluate_calls, gradient_indices_evaluate_calls.
    destruct (shuffle self); simpl; now rewrite app_nil_r.
  - apply run_prefix in H as (mid & Hr & Hp). specialize (IH _ Hr).
    apply pass_trace in Hp as (st1 & idx & _ & _ & Hg & Hc).
    rewrite Hc, Hg, IH, paired_calls_app, <- app_assoc. reflexivity.
Qed.

(** X3. With or without shuffling, the objective is called in one
    pattern: the first sum over the terms, then for every step the gradient
    of a term followed by the value of that same term, and after the last
    step of a run that reaches the iteration limit the sum over the terms
    again. *)
Theorem calls_come_in_pairs why value final :
  Optimize self x0 g0 = Returns why value final ->
  objective_calls (trace final)
  = evaluate_calls
      ++ paired_calls (gradient_indices (trace final))
      ++ match why with Exhausted => evaluate_calls | _ => [] end.
Proof.
  intros H. apply Optimize_Returns_inv in H as (k & st & Hr & Hp).
  pose proof (calls_after _ Hr) as Hc.
  apply pass_Ret in Hp
    as [(_ & -> & _ & _ & Ht)
       | (_ & _ & _ & _ & _ & _ & _ & [(-> & _ & Ht) | (-> & _ & _ & Ht)])];
    rewrite Ht, objective_calls_app, gradient_indices_app, Hc; simpl.
  - rewrite gradient_indices_evaluate_calls, app_nil_r.
    change (filter is_call evaluate_calls)
      with (objective_calls (evaluate_calls (D := D))).
    rewrite objective_calls_evaluate_calls, <- app_assoc. reflexivity.
  - now rewrite !app_nil_r.
  - now rewrite !app_nil_r.
Qed.

End Returns.

(** ** The iteration limit and the two tests *)

Section Limits.
Context {D : Type} {ops : DoubleOps D}.
Context {function : DecomposableFunctionType D}.
Context {rng : Type} {shuffler : ShuffleSource rng}.
Variable self : Adam D.
Variable x0 : mat D.
Variable g0 : rng.

Local Abbreviation start := (init self x0 g0).

(** X4. The limit [maxIterations = 1] leaves no room for a step: the loop
    test fails at once, and [Optimize] sums the terms a second time at the
    iterate it was given and returns that sum.  No gradient is computed,
    whatever the objective; not even the number of its terms is looked
    at. *)
Theorem limit_of_one_makes_no_step :
  maxIterations self = 1%N ->
  exists final,
    Optimize self x0 g0 = Returns Exhausted (sum_terms x0 d_zero) final /\
    iterate final = x0 /\
    gradient_indices (trace final) = [] /\
    objective_calls (trace final) = evaluate_calls ++ evaluate_calls.
Proof.
  intros H1. unfold Optimize, passes. rewrite H1.
  change ((1 + SIZE_MODULUS - 1) mod SIZE_MODULUS)%N with 0%N.
  simpl. unfold pass. rewrite H1. simpl. unfold finish. simpl.
  eexists. split; [reflexivity |]. simpl.
  split; [reflexivity |].
  rewrite !gradient_indices_app, !objective_calls_app. simpl.
  rewrite gradient_indices_evaluate_calls.
  change (filter is_call evaluate_calls)
    with (objective_calls (evaluate_calls (D := D))).
  rewrite objective_calls_evaluate_calls.
  destruct (shuffle self); simpl; split; reflexivity.
Qed.

(** X5. The limit [maxIterations = 0] is no limit: the counter starts at
    one and meets zero only when it wraps around, so the loop test holds
    for the first [2^64 - 1] passes and a return through the iteration limit
    has made [2^64 - 1] steps. *)
Theorem limit_of_zero_is_no_limit :
  maxIterations self = 0%N ->
  passes self = (SIZE_MODULUS - 1)%N /\
  Optimize self x0 g0 <> OutOfFuel /\
  (forall k st,
     run self k start = Next st ->
     (N.of_nat k < SIZE_MODULUS - 1)%N ->
     i st = (N.of_nat k + 1)%N /\ i st <> maxIterations self) /\
  (forall value final,
     Optimize self x0 g0 = Returns Exhausted value final ->
     length (gradient_indices (trace final)) = N.to_nat (SIZE_MODULUS - 1)).
Proof.
  intros H0.
  assert (HM : (maxIterations self < SIZE_MODULUS)%N)
    by (rewrite H0; reflexivity).
  assert (Hp : passes self = (SIZE_MODULUS - 1)%N)
    by (unfold passes; rewrite H0; reflexivity).
  split; [exact Hp |].
  split.
  { unfold Optimize. apply (@loop_ends _ _ _ _ _ self x0 g0 _ 0%nat start HM).
    - reflexivity.
    - reflexivity. }
  split.
  - intros k st Hr Hk.
    destruct (counter_after _ _ _ k HM Hr) as (_ & Hi).
    rewrite N.mod_small in Hi by lia. split; [exact Hi |]. rewrite Hi, H0. lia.
  - intros value final H.
    apply Optimize_Returns_inv in H as (k & st & Hr & Hret).
    pose proof (gradients_after _ _ _ _ Hr) as Hlen.
    apply pass_Ret in Hret
      as [(Hi & _ & _ & _ & Ht)
         | (_ & _ & _ & _ & _ & _ & _ & [(E & _) | (E & _)])];
      try discriminate.
    apply (counter_at_exit _ _ _ k HM Hr) in Hi.
    rewrite <- Hp, <- Hi, Nat2N.id.
    rewrite Ht, gradient_indices_app. cbn [gradient_indices].
    now rewrite gradient_indices_evaluate_calls, app_nil_r.
Qed.

(** X6. What the value returned tells about the way out: a return for
    divergence carries a NaN or an infinity, a return through the tolerance
    test never does, and what it carries is closer than [tolerance] to the
    objective recorded at the start of the sequence before. *)
Theorem value_by_exit why value final :
  Optimize self x0 g0 = Returns why value final ->
  match why with
  | Diverged => nonfinite value = true
  | Converged =>
      nonfinite value = false /\
      d_ltb (d_abs (lastObjective final - value)%D) (tolerance self) = true
  | Exhausted => value = sum_terms (iterate final) d_zero
  end.
Proof.
  intros H. apply Optimize_Returns_inv in H as (k & st & Hr & Hret).
  assert (Hlast : why <> Exhausted -> lastObjective final = lastObjective st).
  { intros Hw. revert Hret. unfold pass.
    destruct (i st =? maxIterations self)%N.
    - unfold finish. intros H. inversion H. congruence.
    - unfold body.
      destruct (epoch_start self st) as [st1 | w x f | e] eqn:Hes; simpl.
      + destruct (update self st1) as [st2 | w x f | e] eqn:Hup; simpl;
          try discriminate.
        exfalso. eapply update_no_Ret. exact Hup.
      + intros H. inversion H; subst. clear H. unfold epoch_start in Hes.
        destruct (numFunctions =? 0)%N; [discriminate |].
        destruct (negb _); [discriminate |].
        destruct (_ || _).
        * inversion Hes. reflexivity.
        * destruct (d_ltb _ _); [| discriminate].
          inversion Hes. reflexivity.
      + discriminate. }
  apply pass_Ret in Hret
    as [(_ & -> & -> & -> & _)
       | (_ & _ & -> & _ & _ & _ & _ & [(-> & Hn & _) | (-> & Hn & Hlt & _)])].
  - reflexivity.
  - exact Hn.
  - split; [exact Hn |]. rewrite Hlast by discriminate. exact Hlt.
Qed.

(** X7. A tolerance that zero is not below (zero, a negative number or a
    NaN) switches the tolerance test off: no run returns through it. *)
Theorem no_tolerance_no_convergence why value final :
  magnitude_not_below ->
  d_ltb d_zero (tolerance self) = false ->
  Optimize self x0 g0 = Returns why value final ->
  why <> Converged.
Proof.
  intros Hlaw Htol H ->.
  apply Optimize_Returns_inv in H as (k & st & Hr & Hret).
  apply pass_Ret in Hret
    as [(_ & E & _)
       | (_ & _ & _ & _ & _ & _ & _ & [(E & _) | (_ & _ & Hlt & _)])];
    try discriminate.
  rewrite (Hlaw _ _ Htol) in Hlt. discriminate.
Qed.

End Limits.

Lemma real_magnitude_not_below : magnitude_not_below (ops := real_ops).
Proof.
  intros x t. simpl.
  destruct (Rlt_dec 0 t) as [H | H]; [discriminate |]. intros _.
  destruct (Rlt_dec (Rabs x) t) as [H' | H']; [| reflexivity].
  pose proof (Rabs_pos x). lra.
Qed.

Lemma SFabs_not_below (x t : spec_float) :
  SFltb (S754_zero false) t = false -> SFltb (SFabs x) t = false.
Proof.
  destruct x as [[] | [] | | [] mx ex], t as [[] | [] | | [] mt et];
    simpl; intros H; try reflexivity; try discriminate.
Qed.

Lemma binary64_magnitude_not_below : magnitude_not_below (ops := binary64_ops).
Proof.
  intros x t. simpl. rewrite !ltb_spec, abs_spec.
  change (Prim2SF 0) with (S754_zero false). apply SFabs_not_below.
Qed.

(** ** Shuffling *)

Lemma firstn_snoc (A : Type) (l : list A) (c : nat) (x : A) :
  nth_error l c = Some x -> firstn (S c) l = firstn c l ++ [x].
Proof.
  revert c. induction l as [| a l IH]; intros [| c] H; simpl in *;
    try discriminate.
  - now inversion H.
  - f_equal. now apply IH.
Qed.

Lemma In_iota (n idx : N) : In idx (iota n) <-> (idx < n)%N.
Proof.
  unfold iota. rewrite in_map_iff. split.
  - intros (j & <- & Hj). apply in_seq in Hj. lia.
  - intros H. exists (N.to_nat idx). split; [apply N2Nat.id |].
    apply in_seq. lia.
Qed.

Lemma rotating_shuffle_permutes :
  shuffle_permutes (shuffler := rotating_shuffle).
Proof.
  intros g [| x rest]; simpl; [constructor |].
  apply Permutation_sym, Permutation_cons_append.
Qed.

Lemma identity_shuffle_permutes :
  shuffle_permutes (shuffler := identity_shuffle).
Proof. intros g order. apply Permutation_refl. Qed.

Section Visitation.
Context {D : Type} {ops : DoubleOps D}.
Context {function : DecomposableFunctionType D}.
Context {rng : Type} {shuffler : ShuffleSource rng}.
Variable self : Adam D.
Variable x0 : mat D.
Variable g0 : rng.

Local Abbreviation start := (init self x0 g0).

Lemma shuffle_draws_app (a b : list (event D)) :
  shuffle_draws (a ++ b) = (shuffle_draws a + shuffle_draws b)%nat.
Proof. unfold shuffle_draws. now rewrite filter_app, length_app. Qed.

Lemma shuffle_draws_evaluate_calls :
  shuffle_draws (evaluate_calls (D := D)) = 0%nat.
Proof.
  unfold evaluate_calls, shuffle_draws.
  induction (iota numFunctions); simpl; auto.
Qed.

(** What a pass that goes on does to the order, the generator and the
    position in the epoch. *)
Lemma pass_order (st st' : state D rng) :
  pass self st = Next st' ->
  exists st1 idx,
    epoch_start self st = Next st1 /\ selected self st1 = Ok idx /\
    visitationOrder st' = visitationOrder st1 /\
    generator st' = generator st1 /\
    currentFunction st' = size_succ (currentFunction st1) /\
    trace st' = trace st1 ++ [CallGradient idx; CallEvaluate idx] /\
    ((currentFunction st mod numFunctions <> 0)%N /\ st1 = st
     \/
     (currentFunction st mod numFunctions = 0)%N /\
     currentFunction st1 = 0%N /\
     visitationOrder st1
     = (if shuffle self
        then snd (arma_shuffle (generator st) (visitationOrder st))
        else visitationOrder st) /\
     generator st1
     = (if shuffle self
        then fst (arma_shuffle (generator st) (visitationOrder st))
        else generator st) /\
     trace st1
     = trace st ++ InfoObjective (i st) (overallObjective st)
                :: (if shuffle self then [CallShuffle] else [])).
Proof.
  intros H. apply pass_Next in H as (_ & st1 & st2 & Hes & Hup & ->).
  apply update_Next in Hup
    as (idx & x1 & m1 & u1 & v1 & Hsel & _ & _ & _ & _ & ->).
  exists st1, idx. simpl. repeat apply conj; auto.
  apply epoch_start_Next in Hes as (_ & [(Hne & ->) | (He & _ & _ & ->)]).
  - left. auto.
  - right. simpl. rewrite <- app_assoc. simpl.
    destruct (shuffle self); repeat apply conj; auto.
Qed.

(** X8. A run without shuffling never draws a permutation: the generator
    is left as it was found and no order of visitation is built. *)
Theorem unshuffled_run_draws_nothing :
  shuffle self = false ->
  (forall k st, run self k start = Next st ->
     generator st = g0 /\ visitationOrder st = [] /\
     shuffle_draws (trace st) = 0%nat) /\
  (forall why value final,
     Optimize self x0 g0 = Returns why value final ->
     generator final = g0 /\ visitationOrder final = [] /\
     shuffle_draws (trace final) = 0%nat).
Proof.
  intros Hs.
  assert (Hrun : forall k st, run self k start = Next st ->
                   generator st = g0 /\ visitationOrder st = [] /\
                   shuffle_draws (trace st) = 0%nat).
  { induction k as [| k IH]; intros st H.
    - simpl in H. inversion H. simpl. rewrite Hs. simpl.
      repeat apply conj; auto. apply shuffle_draws_evaluate_calls.
    - apply run_prefix in H as (mid & Hr & Hp).
      destruct (IH _ Hr) as (Hg & Ho & Hd).
      apply pass_order in Hp
        as (st1 & idx & _ & _ & Eo & Eg & _ & Et & Hcase).
      rewrite Eo, Eg, Et, shuffle_draws_app.
      destruct Hcase as [(_ & ->) | (_ & _ & Eo1 & Eg1 & Et1)].
      + rewrite Hd. auto.
      + rewrite Hs in *. rewrite Eo1, Eg1, Et1, shuffle_draws_app, Hd. auto. }
  split; [exact Hrun |].
  intros why value final H.
  apply Optimize_Returns_inv in H as (k & st & Hr & Hp).
  destruct (Hrun _ _ Hr) as (Hg & Ho & Hd).
  pose proof (pass_Ret_keeps _ _ Hp) as (_ & _ & _ & _ & Eo & Eg).
  rewrite Eo, Eg. repeat apply conj; auto.
  apply pass_Ret in Hp
    as [(_ & _ & _ & _ & Ht)
       | (_ & _ & _ & _ & _ & _ & _ & [(_ & _ & Ht) | (_ & _ & _ & Ht)])];
    rewrite Ht, shuffle_draws_app, Hd; simpl; auto.
  change (InfoMaxIterations (maxIterations self) :: evaluate_calls)
    with ([InfoMaxIterations (D := D) (maxIterations self)] ++ evaluate_calls).
  rewrite shuffle_draws_app, shuffle_draws_evaluate_calls. reflexivity.
Qed.

Lemma epoch_starts_S (k : nat) :
  valid_function ->
  epoch_starts (S k)
  = (epoch_starts k
     + (if (N.of_nat k mod numFunctions =? 0)%N then 1 else 0))%nat.
Proof.
  unfold valid_function, epoch_starts. intros HN.
  set (n := numFunctions) in *. set (a := N.of_nat k).
  replace (N.of_nat (S k)) with (a + 1)%N by (unfold a; lia).
  pose proof (N.div_mod a n ltac:(lia)) as Hdm.
  pose proof (N.mod_lt a n ltac:(lia)) as Hlt.
  set (q := (a / n)%N) in *. set (r := (a mod n)%N) in *.
  assert (H1 : ((a + 1 + n - 1) / n = q + 1)%N).
  { symmetry. apply N.div_unique with (r := r); [exact Hlt | lia]. }
  rewrite H1. destruct (r =? 0)%N eqn:Er.
  - apply N.eqb_eq in Er.
    assert (H2 : ((a + n - 1) / n = q)%N).
    { symmetry. apply N.div_unique with (r := (n - 1)%N); lia. }
    rewrite H2. lia.
  - apply N.eqb_neq in Er.
    assert (H2 : ((a + n - 1) / n = q + 1)%N).
    { symmetry. apply N.div_unique with (r := (r - 1)%N); lia. }
    rewrite H2. lia.
Qed.

(** X9. A run with shuffling draws one permutation before the loop and one
    at every start of a sequence, each from the order the draw before left:
    after [k] passes the order of visitation is the outcome of
    [1 + ceil (k / numFunctions)] draws in a row from [0 .. numFunctions - 1].
    The order in use in the first epoch is thus the second one drawn. *)
Theorem shuffled_run_draws (k : nat) (st : state D rng) :
  shuffle self = true ->
  valid_function ->
  run self k start = Next st ->
  (generator st, visitationOrder st)
  = shuffled (1 + epoch_starts k) g0 (iota numFunctions) /\
  shuffle_draws (trace st) = (1 + epoch_starts k)%nat.
Proof.
  intros Hs Hvalid. revert st. induction k as [| k IH]; intros st H.
  - simpl in H. inversion H. unfold init.
    cbn [generator visitationOrder trace]. rewrite Hs.
    assert (E0 : epoch_starts 0 = 0%nat).
    { unfold epoch_starts. unfold valid_function in Hvalid.
      rewrite N.div_small by lia. reflexivity. }
    rewrite E0, shuffle_draws_app, shuffle_draws_evaluate_calls.
    cbn [shuffled Nat.add fst snd].
    split; [| reflexivity]. now destruct (arma_shuffle g0 (iota numFunctions)).
  - apply run_prefix in H as (mid & Hr & Hp).
    destruct (IH _ Hr) as (Ho & Hd).
    destruct (position_after _ _ _ Hvalid _ Hr) as (_ & Hmod & _ & _).
    apply pass_order in Hp
      as (st1 & idx & _ & _ & Eo & Eg & _ & Et & Hcase).
    rewrite Eo, Eg, Et, shuffle_draws_app, epoch_starts_S by exact Hvalid.
    change (shuffle_draws [CallGradient idx; CallEvaluate idx]) with 0%nat.
    destruct Hcase as [(Hne & ->) | (He & _ & Eo1 & Eg1 & Et1)].
    + rewrite Hmod in Hne. apply N.eqb_neq in Hne. rewrite Hne.
      rewrite Nat.add_0_r, Ho, Hd. simpl. split; [reflexivity | lia].
    + rewrite Hmod in He. apply N.eqb_eq in He. rewrite He.
      rewrite Hs in *. rewrite Eo1, Eg1, Et1, shuffle_draws_app, Hd.
      change (shuffle_draws [InfoObjective (i mid) (overallObjective mid);
                             CallShuffle]) with 1%nat.
      replace (1 + (epoch_starts k + 1))%nat with (S (1 + epoch_starts k))
        by lia.
      cbn [shuffled]. rewrite <- Ho. simpl.
      split; [| lia].
      now destruct (arma_shuffle (generator mid) (visitationOrder mid)).
Qed.

Lemma order_permutation (k : nat) (st : state D rng) :
  shuffle self = true -> shuffle_permutes ->
  run self k start = Next st ->
  Permutation (visitationOrder st) (iota numFunctions).
Proof.
  intros Hs Hperm. revert st. induction k as [| k IH]; intros st H.
  - simpl in H. inversion H. simpl. rewrite Hs. apply Hperm.
  - apply run_prefix in H as (mid & Hr & Hp). specialize (IH _ Hr).
    apply pass_order in Hp
      as (st1 & idx & _ & _ & Eo & _ & _ & _ & Hcase).
    rewrite Eo. destruct Hcase as [(_ & ->) | (_ & _ & Eo1 & _)]; [exact IH |].
    rewrite Eo1, Hs. eapply Permutation_trans; [apply Hperm | exact IH].
Qed.

(** X10. With shuffling, every epoch visits every term exactly once: the
    gradients computed so far are a row of completed epochs, each a
    permutation of [0 .. numFunctions - 1], followed by the part of the
    order in use that the current epoch has walked. *)
Theorem shuffled_epochs_are_permutations (k : nat) (st : state D rng) :
  shuffle self = true ->
  valid_function ->
  shuffle_permutes ->
  run self k start = Next st ->
  Permutation (visitationOrder st) (iota numFunctions) /\
  exists epochs,
    Forall (fun e => Permutation e (iota numFunctions)) epochs /\
    gradient_indices (trace st)
    = concat epochs
        ++ firstn (N.to_nat (currentFunction st)) (visitationOrder st).
Proof.
  intros Hs Hvalid Hperm Hr.
  split; [exact (order_permutation k Hs Hperm Hr) |].
  pose proof Hvalid as HN. unfold valid_function in HN.
  revert st Hr. induction k as [| k IH]; intros st H.
  - simpl in H. inversion H. simpl. exists []. split; [constructor |].
    rewrite gradient_indices_app, gradient_indices_evaluate_calls.
    now destruct (shuffle self).
  - apply run_prefix in H as (mid & Hr & Hp).
    destruct (IH _ Hr) as (epochs & Hall & Hg).
    pose proof (order_permutation k Hs Hperm Hr) as Hpm.
    destruct (position_after _ _ _ Hvalid _ Hr) as (Hle & _).
    pose proof Hp as Hp'.
    apply pass_order in Hp
      as (st1 & idx & Hes & Hsel & Eo & _ & Ec & Et & Hcase).
    pose proof (position_in_step _ _ _ Hvalid _ Hr Hes) as Hc1.
    assert (Hlt : (N.of_nat k mod numFunctions < numFunctions)%N)
      by (apply N.mod_lt; lia).
    unfold selected in Hsel. rewrite Hs in Hsel.
    destruct (nth_error (visitationOrder st1) (N.to_nat (currentFunction st1)))
      as [idx' |] eqn:Enth; [| discriminate].
    inversion Hsel; subst idx'.
    apply firstn_snoc in Enth.
    rewrite Eo, Ec, Et, gradient_indices_app. cbn [gradient_indices].
    rewrite size_succ_small by lia.
    replace (N.to_nat (currentFunction st1 + 1))
      with (S (N.to_nat (currentFunction st1))) by lia.
    rewrite Enth.
    destruct Hcase as [(_ & ->) | (He & Ec1 & _ & _ & Et1)].
    + exists epochs. split; [exact Hall |]. rewrite Hg, app_assoc. reflexivity.
    + rewrite Et1, gradient_indices_app, Hg.
      assert (Eg1 : gradient_indices
                      (InfoObjective (i mid) (overallObjective mid)
                       :: (if shuffle self then [CallShuffle (D := D)] else []))
                    = []) by (destruct (shuffle self); reflexivity).
      rewrite Eg1, app_nil_r, Ec1.
      change (firstn (N.to_nat 0) (visitationOrder st1) ++ [idx]) with [idx].
      assert (Hcm : currentFunction mid = 0%N
                    \/ currentFunction mid = numFunctions).
      { destruct (N.eq_dec (currentFunction mid) numFunctions) as [E | E];
          [now right | left].
        rewrite N.mod_small in He by lia. exact He. }
      destruct Hcm as [E0 | EN].
      * exists epochs. split; [exact Hall |].
        rewrite E0. simpl. now rewrite app_nil_r.
      * exists (epochs ++ [visitationOrder mid]). split.
        -- apply Forall_app. split; [exact Hall |]. constructor; [exact Hpm |].
           constructor.
        -- rewrite EN, concat_app. simpl. rewrite app_nil_r.
           rewrite firstn_all2; [reflexivity |].
           apply Permutation_length in Hpm. rewrite Hpm, length_iota. lia.
Qed.

End Visitation.

(** ** Indices, shapes that do not fit, and the objective kept for the
    tolerance test *)

Section Bounds.
Context {D : Type} {ops : DoubleOps D}.
Context {function : DecomposableFunctionType D}.
Context {rng : Type} {shuffler : ShuffleSource rng}.
Variable self : Adam D.
Variable x0 : mat D.
Variable g0 : rng.

Local Abbreviation start := (init self x0 g0).

Lemma evaluate_calls_in_range :
  Forall (call_in_range (D := D)) evaluate_calls.
Proof.
  unfold evaluate_calls. apply Forall_forall. intros e He.
  apply in_map_iff in He as (idx & <- & Hin). simpl. now apply In_iota.
Qed.

Lemma calls_in_range_after (k : nat) (st : state D rng) :
  valid_function ->
  (shuffle self = true -> shuffle_permutes) ->
  run self k start = Next st ->
  Forall call_in_range (trace st).
Proof.
  intros Hvalid Hperm. pose proof Hvalid as HN. unfold valid_function in HN.
  revert st. induction k as [| k IH]; intros st H.
  - simpl in H. inversion H. simpl. apply Forall_app. split.
    + destruct (shuffle self); repeat constructor.
    + apply evaluate_calls_in_range.
  - pose proof H as HSk.
    apply run_prefix in H as (mid & Hr & Hp). specialize (IH _ Hr).
    apply pass_order in Hp
      as (st1 & idx & Hes & Hsel & Eo & _ & _ & Et & Hcase).
    pose proof (position_in_step _ _ _ Hvalid _ Hr Hes) as Hc1.
    assert (Hlt : (N.of_nat k mod numFunctions < numFunctions)%N)
      by (apply N.mod_lt; lia).
    assert (Hidx : (idx < numFunctions)%N).
    { unfold selected in Hsel. destruct (shuffle self) eqn:Hs.
      - destruct (nth_error (visitationOrder st1)
                            (N.to_nat (currentFunction st1)))
          as [idx' |] eqn:Enth; [| discriminate].
        inversion Hsel; subst idx'. apply nth_error_In in Enth.
        rewrite <- Eo in Enth. apply In_iota.
        eapply Permutation_in; [| exact Enth].
        exact (order_permutation _ _ _ (S k) Hs (Hperm eq_refl) HSk).
      - inversion Hsel. lia. }
    rewrite Et. apply Forall_app. split.
    + destruct Hcase as [(_ & ->) | (_ & _ & _ & _ & Et1)]; [exact IH |].
      rewrite Et1. apply Forall_app. split; [exact IH |].
      destruct (shuffle self); repeat constructor.
    + repeat constructor; exact Hidx.
Qed.

(** X11. Every index that [Optimize] passes to [Evaluate] or to [Gradient]
    is one of [0 .. NumFunctions() - 1], shuffled or not. *)
Theorem calls_stay_in_range :
  valid_function ->
  (shuffle self = true -> shuffle_permutes) ->
  (forall k st, run self k start = Next st ->
     Forall call_in_range (trace st)) /\
  (forall why value final,
     Optimize self x0 g0 = Returns why value final ->
     Forall call_in_range (trace final)).
Proof.
  intros Hvalid Hperm.
  split; [intros k st; now apply calls_in_range_after |].
  intros why value final H.
  apply Optimize_Returns_inv in H as (k & st & Hr & Hp).
  pose proof (calls_in_range_after k Hvalid Hperm Hr) as Hst.
  apply pass_Ret in Hp
    as [(_ & _ & _ & _ & Ht)
       | (_ & _ & _ & _ & _ & _ & _ & [(_ & _ & Ht) | (_ & _ & _ & Ht)])];
    rewrite Ht; apply Forall_app; (split; [exact Hst |]).
  - constructor; [exact I | apply evaluate_calls_in_range].
  - repeat constructor.
  - repeat constructor.
Qed.

Lemma Optimize_throws_at (k : nat) (st : state D rng) (e : error) :
  (maxIterations self < SIZE_MODULUS)%N ->
  run self k start = Next st ->
  pass self st = Fail e ->
  Optimize self x0 g0 = Throws e.
Proof.
  intros HM Hr Hp. rewrite (Optimize_from _ _ _ k HM Hr). simpl.
  now rewrite Hp.
Qed.


(** What a pass that goes on does to the objective kept for the tolerance
    test. *)
Lemma pass_last (st st' : state D rng) :
  pass self st = Next st' ->
  (currentFunction st mod numFunctions <> 0)%N /\
  lastObjective st' = lastObjective st
  \/
  (currentFunction st mod numFunctions = 0)%N /\
  lastObjective st' = overallObjective st.
Proof.
  intros H. apply pass_Next in H as (_ & st1 & st2 & Hes & Hup & ->).
  apply update_Next in Hup
    as (idx & x1 & m1 & u1 & v1 & _ & _ & _ & _ & _ & ->).
  simpl.
  apply epoch_start_Next in Hes as (_ & [(Hne & ->) | (He & _ & _ & ->)]);
    [left | right]; auto.
Qed.

Lemma last_objective_after (k : nat) (st : state D rng) :
  valid_function ->
  run self k start = Next st ->
  (0 < k)%nat ->
  let b := (k - N.to_nat (currentFunction st))%nat in
  run self b start = Next (state_after self x0 g0 b) /\
  (currentFunction (state_after self x0 g0 b) mod numFunctions = 0)%N /\
  lastObjective st = overallObjective (state_after self x0 g0 b).
Proof.
  intros Hvalid. pose proof Hvalid as HN. unfold valid_function in HN.
  revert st. induction k as [| k IH]; intros st H Hk; [lia |].
  cbv zeta in *.
  apply run_prefix in H as (mid & Hr & Hp).
  pose proof (@pass_order _ _ _ _ _ self _ _ Hp)
    as (st1 & idx & Hes & _ & _ & _ & Ec & _ & _).
  pose proof (position_in_step _ _ _ Hvalid _ Hr Hes) as Hc1.
  assert (Hlt : (N.of_nat k mod numFunctions < numFunctions)%N)
    by (apply N.mod_lt; lia).
  rewrite size_succ_small in Ec by lia.
  destruct (position_after _ _ _ Hvalid _ Hr) as (Hle & Hmod & _ & _).
  apply pass_last in Hp as [(Hne & El) | (He & El)].
  - assert (Hk0 : (0 < k)%nat).
    { destruct k as [| k']; [| lia]. exfalso. apply Hne.
      simpl in Hr. inversion Hr. apply N.Div0.mod_0_l. }
    destruct (IH _ Hr Hk0) as (Hb & Hcb & Hl).
    assert (Hcm : currentFunction mid = currentFunction st1).
    { rewrite Hc1, <- Hmod. symmetry. apply N.mod_small.
      destruct (N.eq_dec (currentFunction mid) numFunctions) as [E | E];
        [| lia].
      exfalso. apply Hne. rewrite E. apply N.Div0.mod_same. }
    replace (S k - N.to_nat (currentFunction st))%nat
      with (k - N.to_nat (currentFunction mid))%nat by lia.
    rewrite El. repeat apply conj; auto.
  - assert (Ecs : currentFunction st = 1%N).
    { rewrite Ec, Hc1, <- Hmod, He. reflexivity. }
    rewrite Ecs. change (N.to_nat 1) with 1%nat.
    replace (S k - 1)%nat with k by lia.
    rewrite (state_after_run _ _ _ _ Hr).
    repeat apply conj; auto.
Qed.

(** X13. The tolerance test compares the running objectives of two starts
    of a sequence in a row.  After [k > 0] passes, [lastObjective] is the
    running objective that the state at the start of the current epoch had
    (for the first epoch, the first sum over the terms), that is
    [currentFunction] passes ago; at the start of the next sequence
    [currentFunction] is [numFunctions]. *)
Theorem tolerance_test_compares_epochs (k : nat) (st : state D rng) :
  valid_function ->
  run self k start = Next st ->
  (0 < k)%nat ->
  let b := (k - N.to_nat (currentFunction st))%nat in
  run self b start = Next (state_after self x0 g0 b) /\
  (currentFunction (state_after self x0 g0 b) mod numFunctions = 0)%N /\
  lastObjective st = overallObjective (state_after self x0 g0 b) /\
  ((currentFunction st mod numFunctions = 0)%N ->
   b = (k - N.to_nat numFunctions)%nat).
Proof.
  intros Hvalid Hr Hk.
  destruct (last_objective_after Hvalid Hr Hk) as (H1 & H2 & H3).
  repeat apply conj; auto.
  intros Hc. pose proof Hvalid as HN. unfold valid_function in HN.
  destruct (position_after _ _ _ Hvalid _ Hr) as (Hle & _ & H0 & _).
  destruct (N.eq_dec (currentFunction st) numFunctions) as [E | E];
    [now rewrite E |].
  rewrite N.mod_small in Hc by lia. specialize (H0 Hc). lia.
Qed.

End Bounds.

(** ** A start at a stationary point, in exact arithmetic *)

Lemma zip_with_repeat (D : Type) (f : D -> D -> D) (a b : D) (n : nat) :
  zip_with f (repeat a n) (repeat b n) = repeat (f a b) n.
Proof. induction n as [| n IH]; simpl; [reflexivity | now rewrite IH]. Qed.

Lemma zip_with_repeat_r (D : Type) (f : D -> D -> D) (b : D) (l : list D) :
  (forall x, f x b = x) -> zip_with f l (repeat b (length l)) = l.
Proof.
  intros Hf. induction l as [| x l IH]; simpl; [reflexivity |].
  now rewrite Hf, IH.
Qed.

Lemma fold_left_map_arg (A B C : Type) (f : A -> C -> A) (g : B -> C)
    (l : list B) (a : A) :
  fold_left f (map g l) a = fold_left (fun acc x => f acc (g x)) l a.
Proof. revert a. induction l as [| x l IH]; intros a; simpl; auto. Qed.

Lemma map_nth_seq (A : Type) (l : list A) (d : A) :
  map (fun j => nth j l d) (seq 0 (length l)) = l.
Proof.
  induction l as [| a l IH]; [reflexivity |].
  simpl. f_equal. rewrite <- seq_shift, map_map. exact IH.
Qed.

Lemma fold_left_Rplus_Permutation (A : Type) (f : A -> R) (l l' : list A) :
  Permutation l l' ->
  forall acc : R,
    fold_left (fun a x => (a + f x)%R) l acc
    = fold_left (fun a x => (a + f x)%R) l' acc.
Proof.
  induction 1 as [| x l l' _ IH | x y l | l l' l'' _ IH1 _ IH2]; intros acc;
    simpl.
  - reflexivity.
  - apply IH.
  - f_equal. ring.
  - now rewrite IH1.
Qed.

Section RealStationary.
Context {function : DecomposableFunctionType R}.
Context {rng : Type} {shuffler : ShuffleSource rng}.
Variable self : Adam R.
Variable x0 : mat R.
Variable g0 : rng.

Local Abbreviation start := (init self x0 g0).
Local Abbreviation O := (zeros (D := R) (n_rows x0) (n_cols x0)).
Local Open Scope R_scope.

Lemma update_m_zeros : update_m self O O = Ok O.
Proof.
  unfold update_m, mat_add, entrywise, scale, mat_map, same_size, zeros.
  cbn [n_rows n_cols mem]. rewrite !N.eqb_refl. cbn [andb].
  rewrite !map_repeat, zip_with_repeat. do 3 f_equal. simpl. ring.
Qed.

Lemma update_v_zeros : update_v self O O = Ok O.
Proof.
  unfold update_v, schur, mat_add, entrywise, scale, mat_map, same_size, zeros.
  cbn [n_rows n_cols mem]. rewrite !N.eqb_refl. cbn [andb n_rows n_cols mem].
  rewrite !N.eqb_refl. cbn [andb].
  rewrite zip_with_repeat, !map_repeat, zip_with_repeat.
  do 3 f_equal. simpl. ring.
Qed.

Lemma update_u_zeros : update_u self O O = Ok O.
Proof.
  unfold update_u, mat_max, mat_abs, entrywise, scale, mat_map, same_size,
    zeros.
  cbn [n_rows n_cols mem]. rewrite !N.eqb_refl. cbn [andb].
  rewrite !map_repeat, zip_with_repeat. do 3 f_equal. simpl.
  rewrite Rabs_R0, Rmult_0_l. apply Rmax_left. lra.
Qed.

Lemma step_adam_zeros (t : N) :
  well_formed x0 -> step_adam self t x0 O O = Ok x0.
Proof.
  intros Hwf. unfold well_formed in Hwf.
  unfold step_adam, mat_div, mat_sub, mat_sqrt, plus_scalar, entrywise, scale,
    mat_map, same_size, zeros.
  cbn [n_rows n_cols mem]. rewrite !N.eqb_refl. cbn [andb n_rows n_cols mem].
  rewrite !N.eqb_refl. cbn [andb].
  rewrite !map_repeat, zip_with_repeat.
  replace (d_div (d_zero * (stepSize self * d_sqrt (biasCorrection2 self t)
                            / biasCorrection1 self t))%D
                 (d_sqrt d_zero + eps self)%D) with 0
    by (simpl; unfold Rdiv; ring).
  rewrite <- Hwf, zip_with_repeat_r by (intros x; simpl; ring).
  now destruct x0.
Qed.

Lemma step_adamax_zeros (t : N) :
  well_formed x0 -> step_adamax self t x0 O O = Ok x0.
Proof.
  intros Hwf. unfold well_formed in Hwf.
  unfold step_adamax. destruct (d_neqb _ _); [| reflexivity].
  unfold mat_div, mat_sub, plus_scalar, entrywise, scale,
    mat_map, same_size, zeros.
  cbn [n_rows n_cols mem]. rewrite !N.eqb_refl. cbn [andb n_rows n_cols mem].
  rewrite !N.eqb_refl. cbn [andb].
  rewrite !map_repeat, zip_with_repeat.
  replace (d_div (d_zero * (stepSize self / biasCorrection1 self t))%D
                 (d_zero + eps self)%D) with 0
    by (simpl; unfold Rdiv; ring).
  rewrite <- Hwf, zip_with_repeat_r by (intros x; simpl; ring).
  now destruct x0.
Qed.

(** A step from the stationary point, the moments zero: nothing moves. *)
Lemma stationary_update (st : state R rng) (idx : N) :
  well_formed x0 -> stationary_at x0 ->
  iterate st = x0 -> m st = O -> second_buffer self st = O ->
  selected self st = Ok idx ->
  exists st2,
    update self st = Next st2 /\
    iterate st2 = x0 /\ m st2 = O /\ second_buffer self st2 = O.
Proof.
  intros Hwf Hstat Ex Em Eb Hsel. unfold update. rewrite Hsel. simpl.
  rewrite Ex, Em, (Hstat idx). rewrite update_m_zeros. simpl.
  unfold second_buffer in *. destruct (adaMax self).
  - rewrite Eb, update_u_zeros. simpl.
    rewrite (step_adamax_zeros _ Hwf). simpl.
    eexists. split; [reflexivity |]. simpl. auto.
  - rewrite Eb, update_v_zeros. simpl.
    rewrite (step_adam_zeros _ Hwf). simpl.
    eexists. split; [reflexivity |]. simpl. auto.
Qed.

Lemma stationary_after (k : nat) (st : state R rng) :
  well_formed x0 -> stationary_at x0 ->
  run self k start = Next st ->
  iterate st = x0 /\ m st = O /\ second_buffer self st = O.
Proof.
  intros Hwf Hstat. revert st. induction k as [| k IH]; intros st H.
  - simpl in H. inversion H. unfold second_buffer. simpl.
    destruct (adaMax self); auto.
  - apply run_prefix in H as (mid & Hr & Hp).
    destruct (IH _ Hr) as (Ex & Em & Eb).
    apply pass_Next in Hp as (_ & st1 & st2 & Hes & Hup & ->).
    apply epoch_start_keeps in Hes as (_ & Ex1 & Em1 & Eu1 & Ev1).
    pose proof Hup as Hup'.
    apply update_Next in Hup' as (idx & _ & _ & _ & _ & Hsel & _).
    destruct (@stationary_update st1 idx Hwf Hstat) as (st2' & Hup2 & Hinv);
      try congruence.
    { unfold second_buffer in *. now rewrite Eu1, Ev1. }
    rewrite Hup in Hup2. inversion Hup2. subst st2'. exact Hinv.
Qed.

Lemma stationary_iterates (n : nat) :
  well_formed x0 -> stationary_at x0 ->
  iterate (state_after self x0 g0 n) = x0.
Proof.
  intros Hwf Hstat. unfold state_after.
  destruct (run self n start) as [s | w x f | e] eqn:E; try reflexivity.
  now destruct (stationary_after n Hwf Hstat E).
Qed.

Lemma stationary_aggregate (k : nat) (st : state R rng) :
  valid_function -> well_formed x0 -> stationary_at x0 ->
  (shuffle self = true -> shuffle_permutes) ->
  run self k start = Next st -> (0 < k)%nat ->
  currentFunction st = numFunctions ->
  overallObjective st = sum_terms x0 0.
Proof.
  intros Hvalid Hwf Hstat Hperm Hr Hk Hc.
  rewrite (@aggregate_after _ _ _ _ _ self x0 g0 Hvalid k st Hr Hk), Hc.
  unfold interleaved_aggregate.
  rewrite (fold_left_pointwise _
             (fun acc j => acc + Evaluate x0 (term_index self st j)))
    by (intros acc j; simpl; now rewrite stationary_iterates).
  unfold sum_terms, term_index. destruct (shuffle self) eqn:Hs.
  - pose proof (order_permutation _ _ _ k Hs (Hperm eq_refl) Hr) as Hpm.
    pose proof (Permutation_length Hpm) as Hlen. rewrite length_iota in Hlen.
    rewrite <- (fold_left_map_arg (fun acc idx => acc + Evaluate x0 idx)
                  (fun j => nth j (visitationOrder st) 0%N)).
    rewrite <- Hlen, map_nth_seq.
    apply (fold_left_Rplus_Permutation (Evaluate x0) Hpm).
  - unfold iota. rewrite fold_left_map_arg. reflexivity.
Qed.

Lemma selected_in_range (k : nat) (st st1 : state R rng) :
  valid_function ->
  (shuffle self = true -> shuffle_permutes) ->
  run self k start = Next st ->
  epoch_start self st = Next st1 ->
  exists idx, selected self st1 = Ok idx.
Proof.
  intros Hvalid Hperm Hr Hes. destruct (shuffle self) eqn:Hs.
  - apply (@selected_ok _ _ _ _ _ self x0 g0 Hvalid k st st1); auto.
    intros g order. apply Permutation_length, (Hperm eq_refl).
  - unfold selected. rewrite Hs. eauto.
Qed.

Lemma stationary_pass_no_Fail (k : nat) (st : state R rng) (e : error) :
  valid_function -> well_formed x0 -> stationary_at x0 ->
  (shuffle self = true -> shuffle_permutes) ->
  run self k start = Next st ->
  pass self st <> Fail e.
Proof.
  intros Hvalid Hwf Hstat Hperm Hr. unfold pass.
  destruct (i st =? maxIterations self)%N; [unfold finish; discriminate |].
  unfold body.
  destruct (epoch_start self st) as [st1 | w x f | e'] eqn:Hes; simpl.
  - destruct (selected_in_range k Hvalid Hperm Hr Hes) as (idx & Hsel).
    destruct (stationary_after k Hwf Hstat Hr) as (Ex & Em & Eb).
    apply epoch_start_keeps in Hes as (_ & Ex1 & Em1 & Eu1 & Ev1).
    destruct (@stationary_update st1 idx Hwf Hstat) as (st2 & Hup & _);
      try congruence.
    { unfold second_buffer in *. now rewrite Eu1, Ev1. }
    rewrite Hup. simpl. discriminate.
  - discriminate.
  - exfalso. eapply epoch_start_no_Fail; eassumption.
Qed.

Lemma stationary_reach (k : nat) :
  valid_function -> well_formed x0 -> stationary_at x0 ->
  (shuffle self = true -> shuffle_permutes) ->
  (numFunctions + 1 < maxIterations self < SIZE_MODULUS)%N ->
  d_ltb (d_abs (DBL_MAX - sum_terms x0 0)%D) (tolerance self) = false ->
  (k <= N.to_nat numFunctions)%nat ->
  exists st, run self k start = Next st.
Proof.
  intros Hvalid Hwf Hstat Hperm Hlim Hno.
  pose proof Hvalid as HN. unfold valid_function in HN.
  induction k as [| k IH]; intros Hk; [simpl; eauto |].
  destruct IH as (st & Hr); [lia |].
  destruct (pass self st) as [st' | why value final | e] eqn:Hp.
  - exists st'. simpl. rewrite Hr. simpl. exact Hp.
  - exfalso.
    destruct (counter_after _ _ _ k (proj2 Hlim) Hr) as (_ & Hi).
    rewrite N.mod_small in Hi by lia.
    destruct (position_after _ _ _ Hvalid _ Hr) as (Hle & Hmod & H0 & _).
    apply pass_Ret in Hp
      as [(Hi' & _)
         | (_ & Hc & _ & _ & _ & _ & _
            & [(_ & Hnf & _) | (_ & _ & Hlt & _)])].
    + lia.
    + simpl in Hnf. discriminate.
    + destruct k as [| k'].
      * simpl in Hr. inversion Hr. subst st.
        change (lastObjective start) with (@DBL_MAX R real_ops) in Hlt.
        change (overallObjective start) with (sum_terms x0 0) in Hlt.
        rewrite Hno in Hlt. discriminate.
      * rewrite Hmod, N.mod_small in Hc by lia. lia.
  - exfalso. eapply stationary_pass_no_Fail; eassumption.
Qed.


End RealStationary.

(** ** The size of the moments and of the divisors, in exact arithmetic *)

Section RealMoments.
Context {function : DecomposableFunctionType R}.
Context {rng : Type} {shuffler : ShuffleSource rng}.
Variable self : Adam R.
Variable x0 : mat R.
Variable g0 : rng.

Local Abbreviation start := (init self x0 g0).
Local Open Scope R_scope.

Lemma Rabs_within (x G : R) : Rabs x <= G <-> - G <= x <= G.
Proof.
  unfold Rabs. destruct (Rcase_abs x); split; intros; lra.
Qed.

Lemma repeat_Forall (A : Type) (P : A -> Prop) (a : A) (n : nat) :
  P a -> Forall P (repeat a n).
Proof. intros H. induction n; simpl; constructor; auto. Qed.



End RealMoments.

(** ** The signs of the moment buffer on doubles *)

Section DoubleSigns.
Context {function : DecomposableFunctionType float}.
Context {rng : Type} {shuffler : ShuffleSource rng}.
Variable self : Adam float.
Variable x0 : mat float.
Variable g0 : rng.

(** X17. On IEEE doubles, whatever the gradients hold (NaN and infinities
    included), no entry of the moment buffer of the mode ever compares
    below zero, as long as [beta2] and, for Adam, [1 - beta2] do not:
    [arma::sqrt(v)] is never taken of a negative number. *)
Theorem moment_buffer_never_negative_on_doubles
    (k : nat) (st : state float rng) :
  PrimFloat.ltb (beta2 self) 0 = false ->
  (adaMax self = false -> PrimFloat.ltb (1 - beta2 self) 0 = false) ->
  run self k (init self x0 g0) = Next st ->
  Forall (fun e => PrimFloat.ltb e 0 = false) (mem (second_buffer self st)).
Proof.
  intros Hb Hc Hr. unfold second_buffer. destruct (adaMax self) eqn:Ha.
  - exact (@inf_norm_never_negative float binary64_ops function rng shuffler
             self x0 g0 binary64_sign_rules k st Ha Hb Hr).
  - exact (@second_moment_never_negative float binary64_ops function rng
             shuffler self x0 g0 binary64_sign_rules k st Ha Hb
             (Hc eq_refl) Hr).
Qed.

End DoubleSigns.

(** ** The lines written to the log *)

Section Log.
Context {D : Type} {ops : DoubleOps D}.
Context {function : DecomposableFunctionType D}.
Context {rng : Type} {shuffler : ShuffleSource rng}.
Variable self : Adam D.
Variable x0 : mat D.
Variable g0 : rng.

Local Abbreviation start := (init self x0 g0).

Lemma log_lines_app (a b : list (event D)) :
  log_lines (a ++ b) = log_lines a ++ log_lines b.
Proof. apply filter_app. Qed.

Lemma log_lines_evaluate_calls : log_lines (evaluate_calls (D := D)) = [].
Proof.
  unfold evaluate_calls, log_lines. induction (iota numFunctions); simpl; auto.
Qed.

Lemma objective_lines_S (k : nat) :
  objective_lines self x0 g0 (S k)
  = objective_lines self x0 g0 k
      ++ (if starts_sequence k
          then [InfoObjective (N.of_nat k + 1)
                              (overallObjective (state_after self x0 g0 k))]
          else []).
Proof.
  unfold objective_lines. rewrite seq_S, filter_app, map_app. simpl.
  now destruct (starts_sequence k).
Qed.

Lemma log_after (k : nat) (st : state D rng) :
  valid_function ->
  (maxIterations self < SIZE_MODULUS)%N ->
  run self k start = Next st ->
  log_lines (trace st) = objective_lines self x0 g0 k.
Proof.
  intros Hvalid HM. revert st. induction k as [| k IH]; intros st H.
  - simpl in H. inversion H. simpl.
    rewrite log_lines_app, log_lines_evaluate_calls.
    now destruct (shuffle self).
  - apply run_prefix in H as (mid & Hr & Hp). specialize (IH _ Hr).
    destruct (position_after _ _ _ Hvalid _ Hr) as (_ & Hmod & _ & _).
    pose proof (pass_Next _ _ Hp) as (Hi & _).
    destruct (counter_in_loop _ _ _ k HM Hr Hi) as (_ & Ei).
    pose proof (@pass_order _ _ _ _ _ self _ _ Hp)
      as (st1 & idx & _ & _ & _ & _ & _ & Et & Hcase).
    rewrite Et, log_lines_app, objective_lines_S. unfold starts_sequence.
    change (log_lines [CallGradient idx; CallEvaluate idx])
      with (@nil (event D)).
    rewrite app_nil_r.
    destruct Hcase as [(Hne & ->) | (He & _ & _ & _ & Et1)].
    + rewrite Hmod in Hne. apply N.eqb_neq in Hne. rewrite Hne.
      now rewrite app_nil_r.
    + rewrite Hmod in He. apply N.eqb_eq in He. rewrite He.
      rewrite Et1, log_lines_app, IH, Ei, (state_after_run _ _ _ _ Hr).
      f_equal. now destruct (shuffle self).
Qed.

(** X18. The log of a run: one line with the iteration number and the
    running objective for every pass that starts a sequence (the passes
    [0], [numFunctions], [2 numFunctions], ..., the iteration number one
    more than the pass), and on return one closing line that names the way
    out. *)
Theorem objective_is_logged_at_every_start :
  valid_function ->
  (maxIterations self < SIZE_MODULUS)%N ->
  (forall k st, run self k start = Next st ->
     log_lines (trace st) = objective_lines self x0 g0 k) /\
  (forall why value final,
     Optimize self x0 g0 = Returns why value final ->
     let k := length (gradient_indices (trace final)) in
     log_lines (trace final)
     = match why with
       | Diverged =>
           objective_lines self x0 g0 (S k) ++ [WarnDiverged value]
       | Converged =>
           objective_lines self x0 g0 (S k) ++ [InfoConverged (tolerance self)]
       | Exhausted =>
           objective_lines self x0 g0 k
             ++ [InfoMaxIterations (maxIterations self)]
       end).
Proof.
  intros Hvalid HM. split; [intros k st; now apply log_after |].
  intros why value final H. cbv zeta.
  apply Optimize_Returns_inv in H as (k & st & Hr & Hp).
  pose proof (log_after k Hvalid HM Hr) as Hlog.
  pose proof (gradients_after _ _ _ _ Hr) as Hlen.
  destruct (position_after _ _ _ Hvalid _ Hr) as (_ & Hmod & _ & _).
  apply pass_Ret in Hp
    as [(_ & -> & _ & _ & Ht)
       | (Hi & Hc & -> & _ & _ & _ & _
          & [(-> & _ & Ht) | (-> & _ & _ & Ht)])];
    rewrite Ht, gradient_indices_app, log_lines_app, Hlog.
  - cbn [gradient_indices]. rewrite gradient_indices_evaluate_calls.
    rewrite app_nil_r, Hlen.
    change (InfoMaxIterations (maxIterations self) :: evaluate_calls)
      with ([InfoMaxIterations (D := D) (maxIterations self)]
              ++ evaluate_calls).
    now rewrite log_lines_app, log_lines_evaluate_calls.
  - destruct (counter_in_loop _ _ _ k HM Hr Hi) as (_ & Ei).
    cbn [gradient_indices]. rewrite app_nil_r, Hlen, objective_lines_S.
    unfold starts_sequence. rewrite <- Hmod, Hc. cbn [N.eqb].
    rewrite Ei, (state_after_run _ _ _ _ Hr), <- app_assoc. reflexivity.
  - destruct (counter_in_loop _ _ _ k HM Hr Hi) as (_ & Ei).
    cbn [gradient_indices]. rewrite app_nil_r, Hlen, objective_lines_S.
    unfold starts_sequence. rewrite <- Hmod, Hc. cbn [N.eqb].
    rewrite Ei, (state_after_run _ _ _ _ Hr), <- app_assoc. reflexivity.
Qed.

End Log.

(** ** An objective without terms *)

Section NoTerms.
Context {D : Type} {ops : DoubleOps D}.
Context {function : DecomposableFunctionType D}.
Context {rng : Type} {shuffler : ShuffleSource rng}.
Variable self : Adam D.
Variable x0 : mat D.
Variable g0 : rng.

(** X19. An objective with no terms makes the first pass compute
    [currentFunction % 0]: unless the iteration limit is one, [Optimize]
    ends in that division by zero, before any call of the objective. *)
Theorem no_terms_divide_by_zero :
  numFunctions = 0%N ->
  maxIterations self <> 1%N ->
  (maxIterations self < SIZE_MODULUS)%N ->
  trace (init self x0 g0) = (if shuffle self then [CallShuffle] else []) /\
  pass self (init self x0 g0) = Fail DivisionByZero /\
  Optimize self x0 g0 = Throws DivisionByZero.
Proof.
  intros H0 H1 HM.
  assert (Hp : pass self (init self x0 g0) = Fail DivisionByZero).
  { unfold pass. change (i (init self x0 g0)) with 1%N.
    destruct (1 =? maxIterations self)%N eqn:E;
      [apply N.eqb_eq in E; congruence |].
    unfold body, epoch_start. rewrite H0. reflexivity. }
  split; [| split; [exact Hp |]].
  - simpl. unfold evaluate_calls. rewrite H0. simpl. apply app_nil_r.
  - exact (@Optimize_throws_at _ _ _ _ _ self x0 g0 0%nat _ _ HM eq_refl Hp).
Qed.

End NoTerms.

(** ** The first step, in exact arithmetic *)

Lemma zip_with3_nth_error (D : Type) (f : D -> D -> D -> D)
    (xs ys zs : list D) (j : nat) (r : D) :
  nth_error (zip_with3 f xs ys zs) j = Some r ->
  exists a b c,
    nth_error xs j = Some a /\ nth_error ys j = Some b /\
    nth_error zs j = Some c /\ r = f a b c.
Proof.
  revert ys zs j.
  induction xs as [| x xs IH]; intros [| y ys] [| z zs] [| j] H;
    simpl in *; try discriminate.
  - inversion H. eauto 8.
  - now apply IH.
Qed.

Lemma nth_error_zeros (D : Type) (ops : DoubleOps D) (r c : N) (j : nat)
    (z : D) :
  nth_error (mem (zeros r c)) j = Some z -> z = d_zero.
Proof.
  intros H. apply nth_error_In in H. simpl in H.
  now apply repeat_spec in H.
Qed.

Section RealFirstStep.
Context {function : DecomposableFunctionType R}.
Context {rng : Type} {shuffler : ShuffleSource rng}.
Variable self : Adam R.
Variable x0 : mat R.
Variable g0 : rng.

Local Abbreviation start := (init self x0 g0).
Local Open Scope R_scope.

Lemma div_within (x d : R) : 0 < d -> - d <= x <= d -> -1 <= x / d <= 1.
Proof.
  intros Hd Hx. split; apply Rmult_le_reg_r with d; try lra;
    unfold Rdiv; rewrite Rmult_assoc, Rinv_l by lra; lra.
Qed.

Lemma scaled_within (alpha q : R) :
  -1 <= q <= 1 -> Rabs (alpha * q) <= Rabs alpha.
Proof.
  intros Hq. rewrite Rabs_mult.
  assert (Rabs q <= 1) by (apply Rabs_within; lra).
  pose proof (Rabs_pos alpha). nra.
Qed.

Lemma adam_first_step (alpha b1 b2 e a g : R) :
  0 <= b1 < 1 -> 0 <= b2 <= 1 -> 0 < e ->
  Rabs ((a - (0 * b1 + g * (1 - b1))
              * (alpha * R_sqrt.sqrt (1 - b2) / (1 - b1))
              / (R_sqrt.sqrt (0 * b2 + g * g * (1 - b2)) + e)) - a)
  <= Rabs alpha.
Proof.
  intros H1 H2 He.
  assert (Hs : R_sqrt.sqrt (0 * b2 + g * g * (1 - b2))
               = Rabs g * R_sqrt.sqrt (1 - b2)).
  { replace (0 * b2 + g * g * (1 - b2)) with (Rsqr g * (1 - b2))
      by (unfold Rsqr; ring).
    rewrite sqrt_mult by (try apply Rle_0_sqr; lra).
    now rewrite sqrt_Rsqr_abs. }
  rewrite Hs. set (s := R_sqrt.sqrt (1 - b2)).
  assert (Hs0 : 0 <= s) by apply sqrt_pos.
  pose proof (Rabs_pos g) as Hg.
  assert (Hd : 0 < Rabs g * s + e) by nra.
  replace (a - (0 * b1 + g * (1 - b1)) * (alpha * s / (1 - b1))
               / (Rabs g * s + e) - a)
    with (alpha * (- (g * s) / (Rabs g * s + e)))
    by (field; lra).
  apply scaled_within. apply div_within; [exact Hd |].
  assert (- Rabs g <= g <= Rabs g) by (apply Rabs_within; lra).
  nra.
Qed.

Lemma adamax_first_step (alpha b1 b2 e a g : R) :
  0 <= b1 < 1 -> 0 < e ->
  Rabs ((a - (0 * b1 + g * (1 - b1)) * (alpha / (1 - b1))
             / (Rmax (0 * b2) (Rabs g) + e)) - a)
  <= Rabs alpha.
Proof.
  intros H1 He. pose proof (Rabs_pos g) as Hg.
  replace (0 * b2) with 0 by ring. rewrite Rmax_right by exact Hg.
  assert (Hd : 0 < Rabs g + e) by lra.
  replace (a - (0 * b1 + g * (1 - b1)) * (alpha / (1 - b1))
               / (Rabs g + e) - a)
    with (alpha * (- g / (Rabs g + e)))
    by (field; lra).
  apply scaled_within. apply div_within; [exact Hd |].
  assert (- Rabs g <= g <= Rabs g) by (apply Rabs_within; lra).
  lra.
Qed.

Lemma bias_at_one (beta : R) : 1 - pow_real beta (INR (N.to_nat 1)) = 1 - beta.
Proof.
  change (N.to_nat 1) with 1%nat. rewrite pow_real_INR. simpl. ring.
Qed.


End RealFirstStep.

(** ** The number of steps *)

Section Budget.
Context {D : Type} {ops : DoubleOps D}.
Context {function : DecomposableFunctionType D}.
Context {rng : Type} {shuffler : ShuffleSource rng}.
Variable self : Adam D.
Variable x0 : mat D.
Variable g0 : rng.

(** X21. However [Optimize] returns, it has computed at most
    [maxIterations - 1] gradients (as a [size_t]: [2^64 - 1] for the limit
    zero), and a return through the divergence or the tolerance test comes
    after a whole number of epochs. *)
Theorem steps_within_budget why value final :
  valid_function ->
  (maxIterations self < SIZE_MODULUS)%N ->
  Optimize self x0 g0 = Returns why value final ->
  let k := N.of_nat (length (gradient_indices (trace final))) in
  (k <= passes self)%N /\
  (why <> Exhausted -> (k mod numFunctions = 0)%N) /\
  (why = Exhausted -> k = passes self).
Proof.
  intros Hvalid HM H. cbv zeta.
  apply Optimize_Returns_inv in H as (k & st & Hr & Hp).
  destruct (counter_after _ _ _ k HM Hr) as (Hk & _).
  pose proof (gradients_after _ _ _ _ Hr) as Hlen.
  destruct (position_after _ _ _ Hvalid _ Hr) as (_ & Hmod & _ & _).
  assert (Hg : length (gradient_indices (trace final)) = k).
  { apply pass_Ret in Hp
      as [(_ & _ & _ & _ & Ht)
         | (_ & _ & _ & _ & _ & _ & _ & [(_ & _ & Ht) | (_ & _ & _ & Ht)])];
      rewrite Ht, gradient_indices_app; cbn [gradient_indices];
      rewrite ?gradient_indices_evaluate_calls, app_nil_r; exact Hlen. }
  rewrite Hg. split; [exact Hk |].
  apply pass_Ret in Hp
    as [(Hi & -> & _)
       | (Hi & Hc & _ & _ & _ & _ & _ & [(-> & _) | (-> & _)])].
  - split; [congruence |]. intros _.
    now apply (counter_at_exit _ _ _ k HM Hr).
  - split; [| discriminate]. intros _. now rewrite <- Hmod.
  - split; [| discriminate]. intros _. now rewrite <- Hmod.
Qed.

End Budget.

(** * Runs that meet the hypotheses of the further properties *)

Section MoreOnParabola.
#[local] Existing Instance parabola.

(** Nine passes of Adam on [(x - 3)^2] and the return at the limit. *)
Lemma Optimize_keeps_shapes_witness :
  let self := test_adam 10 false in
  let x0 := column [0%float] in
  exists why value final,
    Optimize self x0 tt = Returns why value final /\
    same_size (iterate final) x0 = true /\
    same_size (m final) x0 = true /\
    same_size (second_buffer self final) x0 = true.
Proof.
  intros self x0.
  destruct (Optimize self x0 tt) as [why value final | e |] eqn:E.
  - exists why, value, final. split; [reflexivity |].
    exact (@Optimize_keeps_shapes _ _ _ _ _ self x0 tt why value final E).
  - exfalso. vm_compute in E. discriminate.
  - exfalso. vm_compute in E. discriminate.
Defined.

(** Three passes of Adam: [u] is still 0 by 0. *)
Lemma idle_buffer_stays_empty_witness :
  let self := test_adam 10 false in
  let x0 := column [0%float] in
  let st := state_after self x0 tt 3 in
  run self 3 (init self x0 tt) = Next st /\
  u st = empty_mat.
Proof.
  intros self x0 st.
  assert (H : run self 3 (init self x0 tt) = Next st)
    by (vm_compute; reflexivity).
  split; [exact H |].
  exact (proj1 (@idle_buffer_stays_empty _ _ _ _ _ self x0 tt) 3%nat st H).
Defined.

(** The limit of one on [(x - 3)^2] from [x = 0]: the value is [9]. *)
Lemma limit_of_one_makes_no_step_witness :
  let self := test_adam 1 false in
  let x0 := column [0%float] in
  maxIterations self = 1%N /\
  exists final,
    Optimize self x0 tt = Returns Exhausted (sum_terms x0 d_zero) final /\
    iterate final = x0 /\
    gradient_indices (trace final) = [] /\
    objective_calls (trace final) = evaluate_calls ++ evaluate_calls.
Proof.
  intros self x0.
  assert (H : maxIterations self = 1%N) by reflexivity.
  split; [exact H |].
  exact (@limit_of_one_makes_no_step _ _ _ _ _ self x0 tt H).
Defined.

(** The limit of zero: after five passes the counter is at six. *)
Lemma limit_of_zero_is_no_limit_witness :
  let self := test_adam 0 false in
  let x0 := column [0%float] in
  let st := state_after self x0 tt 5 in
  (maxIterations self = 0%N /\
   run self 5 (init self x0 tt) = Next st) /\
  passes self = (SIZE_MODULUS - 1)%N /\
  i st = 6%N /\ i st <> maxIterations self.
Proof.
  intros self x0 st.
  assert (H0 : maxIterations self = 0%N) by reflexivity.
  assert (H1 : run self 5 (init self x0 tt) = Next st)
    by (vm_compute; reflexivity).
  split; [exact (conj H0 H1) |].
  destruct (@limit_of_zero_is_no_limit _ _ _ _ _ self x0 tt H0)
    as (Hp & _ & Hrun & _).
  split; [exact Hp |].
  apply (Hrun 5%nat st H1). vm_compute. reflexivity.
Defined.

(** The specification's convergence test returns through the tolerance
    test. *)
Lemma value_by_exit_witness :
  let self := test_adam 10000 false in
  let x0 := column [0%float] in
  exists value final,
    Optimize self x0 tt = Returns Converged value final /\
    nonfinite value = false /\
    d_ltb (d_abs (lastObjective final - value)%D) (tolerance self) = true.
Proof.
  intros self x0.
  destruct (Optimize self x0 tt) as [[| |] value final | e |] eqn:E.
  - exfalso. vm_compute in E. discriminate E.
  - exists value, final. split; [reflexivity |].
    exact (@value_by_exit _ _ _ _ _ self x0 tt Converged value final E).
  - exfalso. vm_compute in E. discriminate E.
  - exfalso. vm_compute in E. discriminate E.
  - exfalso. vm_compute in E. discriminate E.
Defined.

(** The tolerance zero: the run ends at the iteration limit. *)
Lemma no_tolerance_no_convergence_witness :
  let self := halving_adamax 4 false in
  let x0 := column [0%float] in
  (magnitude_not_below (ops := binary64_ops) /\
   d_ltb d_zero (tolerance self) = false) /\
  exists why value final,
    Optimize self x0 tt = Returns why value final /\ why <> Converged.
Proof.
  intros self x0.
  pose proof binary64_magnitude_not_below as H1.
  assert (H2 : d_ltb d_zero (tolerance self) = false)
    by (vm_compute; reflexivity).
  split; [exact (conj H1 H2) |].
  destruct (Optimize self x0 tt) as [why value final | e |] eqn:E.
  - exists why, value, final. split; [reflexivity |].
    exact (@no_tolerance_no_convergence _ _ _ _ _ self x0 tt why value final
             H1 H2 E).
  - exfalso. vm_compute in E. discriminate.
  - exfalso. vm_compute in E. discriminate.
Defined.

(** Three passes of Adam: every entry of [v] is a square times a weight. *)
Lemma moment_buffer_never_negative_on_doubles_witness :
  let self := test_adam 10 false in
  let x0 := column [0%float] in
  let st := state_after self x0 tt 3 in
  (PrimFloat.ltb (beta2 self) 0 = false /\
   PrimFloat.ltb (1 - beta2 self) 0 = false /\
   run self 3 (init self x0 tt) = Next st) /\
  Forall (fun e => PrimFloat.ltb e 0 = false) (mem (second_buffer self st)).
Proof.
  intros self x0 st.
  assert (H1 : PrimFloat.ltb (beta2 self) 0 = false)
    by (vm_compute; reflexivity).
  assert (H2 : PrimFloat.ltb (1 - beta2 self) 0 = false)
    by (vm_compute; reflexivity).
  assert (H3 : run self 3 (init self x0 tt) = Next st)
    by (vm_compute; reflexivity).
  split; [exact (conj H1 (conj H2 H3)) |].
  exact (@moment_buffer_never_negative_on_doubles _ _ _ self x0 tt 3 st
           H1 (fun _ => H2) H3).
Defined.

(** Nine passes and the return at the limit: the first sum, nine pairs
    and the last sum. *)
Lemma calls_come_in_pairs_witness :
  let self := test_adam 10 false in
  let x0 := column [0%float] in
  exists why value final,
    Optimize self x0 tt = Returns why value final /\
    objective_calls (trace final)
    = evaluate_calls
        ++ paired_calls (gradient_indices (trace final))
        ++ match why with Exhausted => evaluate_calls | _ => [] end.
Proof.
  intros self x0.
  destruct (Optimize self x0 tt) as [why value final | e |] eqn:E.
  - exists why, value, final. split; [reflexivity |].
    exact (@calls_come_in_pairs _ _ _ _ _ self x0 tt why value final E).
  - exfalso. vm_compute in E. discriminate E.
  - exfalso. vm_compute in E. discriminate E.
Defined.

(** The specification's convergence test, which returns through the
    tolerance test. *)
Lemma steps_within_budget_witness :
  let self := test_adam 10000 false in
  let x0 := column [0%float] in
  (valid_function /\ (maxIterations self < SIZE_MODULUS)%N) /\
  exists why value final,
    Optimize self x0 tt = Returns why value final /\
    let k := N.of_nat (length (gradient_indices (trace final))) in
    (k <= passes self)%N /\
    (why <> Exhausted -> (k mod numFunctions = 0)%N) /\
    (why = Exhausted -> k = passes self).
Proof.
  intros self x0.
  assert (H1 : valid_function)
    by (split; vm_compute; [discriminate | reflexivity]).
  assert (H2 : (maxIterations self < SIZE_MODULUS)%N)
    by (vm_compute; reflexivity).
  split; [exact (conj H1 H2) |].
  destruct (Optimize self x0 tt) as [why value final | e |] eqn:E.
  - exists why, value, final. split; [reflexivity |].
    exact (@steps_within_budget _ _ _ _ _ self x0 tt why value final
             H1 H2 E).
  - exfalso. vm_compute in E. discriminate E.
  - exfalso. vm_compute in E. discriminate E.
Defined.

(** Three passes without shuffling. *)
Lemma unshuffled_run_draws_nothing_witness :
  let self := test_adam 10 false in
  let x0 := column [0%float] in
  let st := state_after self x0 tt 3 in
  (shuffle self = false /\ run self 3 (init self x0 tt) = Next st) /\
  generator st = tt /\ visitationOrder st = [] /\
  shuffle_draws (trace st) = 0%nat.
Proof.
  intros self x0 st.
  assert (H1 : shuffle self = false) by reflexivity.
  assert (H2 : run self 3 (init self x0 tt) = Next st)
    by (vm_compute; reflexivity).
  split; [exact (conj H1 H2) |].
  exact (proj1 (@unshuffled_run_draws_nothing _ _ _ _ _ self x0 tt H1)
               3%nat st H2).
Defined.

End MoreOnParabola.

Section MoreOnFiveTerms.
#[local] Existing Instance five_terms.

Lemma five_terms_valid : valid_function.
Proof. split; vm_compute; [discriminate | reflexivity]. Qed.

(** Ten passes over five terms, the order rotated by every draw: three
    draws, and the order in use is [0 .. 4] rotated three times. *)
Lemma shuffled_run_draws_witness :
  let self := halving_adamax 30 true in
  let x0 := column [0%float; 0%float; 0%float; 0%float; 0%float] in
  let st := state_after (shuffler := rotating_shuffle) self x0 0%nat 10 in
  (shuffle self = true /\ valid_function /\
   run self 10 (init self x0 0%nat) = Next st) /\
  (generator st, visitationOrder st) = (3%nat, [3; 4; 0; 1; 2]%N) /\
  shuffle_draws (trace st) = 3%nat.
Proof.
  intros self x0 st.
  assert (H1 : shuffle self = true) by reflexivity.
  pose proof five_terms_valid as H2.
  assert (H3 : run self 10 (init self x0 0%nat) = Next st)
    by (vm_compute; reflexivity).
  split; [exact (conj H1 (conj H2 H3)) |].
  destruct (@shuffled_run_draws _ _ _ _ rotating_shuffle self x0 0%nat 10 st
              H1 H2 H3) as (Ho & Hd).
  split.
  - rewrite Ho. vm_compute. reflexivity.
  - rewrite Hd. vm_compute. reflexivity.
Defined.

(** The same run: two completed epochs, each a permutation of the five
    terms. *)
Lemma shuffled_epochs_are_permutations_witness :
  let self := halving_adamax 30 true in
  let x0 := column [0%float; 0%float; 0%float; 0%float; 0%float] in
  let st := state_after (shuffler := rotating_shuffle) self x0 0%nat 10 in
  (shuffle self = true /\ valid_function /\
   shuffle_permutes (shuffler := rotating_shuffle) /\
   run self 10 (init self x0 0%nat) = Next st) /\
  Permutation (visitationOrder st) (iota numFunctions) /\
  exists epochs,
    Forall (fun e => Permutation e (iota numFunctions)) epochs /\
    gradient_indices (trace st)
    = concat epochs
        ++ firstn (N.to_nat (currentFunction st)) (visitationOrder st).
Proof.
  intros self x0 st.
  assert (H1 : shuffle self = true) by reflexivity.
  pose proof five_terms_valid as H2.
  pose proof rotating_shuffle_permutes as H3.
  assert (H4 : run self 10 (init self x0 0%nat) = Next st)
    by (vm_compute; reflexivity).
  split; [exact (conj H1 (conj H2 (conj H3 H4))) |].
  exact (@shuffled_epochs_are_permutations _ _ _ _ rotating_shuffle self x0
           0%nat 10 st H1 H2 H3 H4).
Defined.

(** The same run: every index called is below five. *)
Lemma calls_stay_in_range_witness :
  let self := halving_adamax 30 true in
  let x0 := column [0%float; 0%float; 0%float; 0%float; 0%float] in
  let st := state_after (shuffler := rotating_shuffle) self x0 0%nat 10 in
  (valid_function /\
   (shuffle self = true -> shuffle_permutes (shuffler := rotating_shuffle)) /\
   run self 10 (init self x0 0%nat) = Next st) /\
  Forall call_in_range (trace st).
Proof.
  intros self x0 st.
  pose proof five_terms_valid as H1.
  assert (H2 : shuffle self = true ->
               shuffle_permutes (shuffler := rotating_shuffle))
    by (intros _; exact rotating_shuffle_permutes).
  assert (H3 : run self 10 (init self x0 0%nat) = Next st)
    by (vm_compute; reflexivity).
  split; [exact (conj H1 (conj H2 H3)) |].
  exact (proj1 (@calls_stay_in_range _ _ _ _ rotating_shuffle self x0 0%nat
                  H1 H2) 10%nat st H3).
Defined.

(** Seven passes over five terms without shuffling: the objective kept
    for the tolerance test is the running objective found after five. *)
Lemma tolerance_test_compares_epochs_witness :
  let self := test_adam 30 false in
  let x0 := column [0%float; 0%float; 0%float; 0%float; 0%float] in
  let st := state_after self x0 tt 7 in
  (valid_function /\ run self 7 (init self x0 tt) = Next st /\ (0 < 7)%nat) /\
  lastObjective st = overallObjective (state_after self x0 tt 5).
Proof.
  intros self x0 st.
  pose proof five_terms_valid as H1.
  assert (H2 : run self 7 (init self x0 tt) = Next st)
    by (vm_compute; reflexivity).
  assert (H3 : (0 < 7)%nat) by lia.
  split; [exact (conj H1 (conj H2 H3)) |].
  destruct (@tolerance_test_compares_epochs _ _ _ _ _ self x0 tt 7 st
              H1 H2 H3) as (_ & _ & Hl & _).
  assert (Eb : (7 - N.to_nat (currentFunction st))%nat = 5%nat)
    by (vm_compute; reflexivity).
  rewrite Eb in Hl. exact Hl.
Defined.

(** The same run: lines at the iterations one and six. *)
Lemma objective_is_logged_at_every_start_witness :
  let self := test_adam 30 false in
  let x0 := column [0%float; 0%float; 0%float; 0%float; 0%float] in
  let st := state_after self x0 tt 7 in
  (valid_function /\ (maxIterations self < SIZE_MODULUS)%N /\
   run self 7 (init self x0 tt) = Next st) /\
  log_lines (trace st)
  = [InfoObjective 1 (overallObjective (state_after self x0 tt 0));
     InfoObjective 6 (overallObjective (state_after self x0 tt 5))].
Proof.
  intros self x0 st.
  pose proof five_terms_valid as H1.
  assert (H2 : (maxIterations self < SIZE_MODULUS)%N)
    by (vm_compute; reflexivity).
  assert (H3 : run self 7 (init self x0 tt) = Next st)
    by (vm_compute; reflexivity).
  split; [exact (conj H1 (conj H2 H3)) |].
  rewrite (proj1 (@objective_is_logged_at_every_start _ _ _ _ _ self x0 tt
                    H1 H2) 7%nat st H3).
  reflexivity.
Defined.

End MoreOnFiveTerms.

Section OnTransposedTwoTerms.
#[local] Existing Instance transposed_two_terms.


End OnTransposedTwoTerms.

Section OnNoTerms.
#[local] Existing Instance no_terms.

(** No terms and the limit ten. *)
Lemma no_terms_divide_by_zero_witness :
  let self := test_adam 10 false in
  let x0 := column [0%float] in
  (numFunctions = 0%N /\ maxIterations self <> 1%N /\
   (maxIterations self < SIZE_MODULUS)%N) /\
  trace (init self x0 tt) = [] /\
  pass self (init self x0 tt) = Fail DivisionByZero /\
  Optimize self x0 tt = Throws DivisionByZero.
Proof.
  intros self x0.
  assert (H1 : numFunctions = 0%N) by reflexivity.
  assert (H2 : maxIterations self <> 1%N) by (vm_compute; discriminate).
  assert (H3 : (maxIterations self < SIZE_MODULUS)%N)
    by (vm_compute; reflexivity).
  split; [exact (conj H1 (conj H2 H3)) |].
  exact (@no_terms_divide_by_zero _ _ _ _ _ self x0 tt H1 H2 H3).
Defined.

End OnNoTerms.

Section MoreOnSlopeThenFlat.
#[local] Existing Instance slope_then_flat.

Local Open Scope R_scope.

Lemma slope_then_flat_bounded : gradient_bounded 1.
Proof.
  intros x idx. simpl.
  destruct (N.to_nat idx) as [| [| [| n]]]; simpl; constructor;
    try constructor; rewrite ?Rabs_R1, ?Rabs_R0; lra.
Qed.




End MoreOnSlopeThenFlat.

Section OnTwoParabolas.
#[local] Existing Instance two_parabolas.

Local Open Scope R_scope.

Lemma two_parabolas_stationary : stationary_at (column [1; 2]).
Proof.
  intros idx. unfold zeros. simpl. unfold entry. simpl.
  f_equal. destruct idx as [| q]; [| destruct (1 =? q)%positive];
    repeat f_equal; ring.
Qed.


End OnTwoParabolas.
